(** * xilefian::bvec — a shallow embedding of [cxx/include/xilefian/bvec.hpp]

    The container is modelled for the 64-bit configuration of the header
    ([__SIZEOF_POINTER__ == 8]): [block_type] is [std::uint64_t], the inline
    representation packs a 7-bit size and 120 data bits, the heap
    representation a 35-bit size, a 28-bit capacity (in words) and a word
    array.

    Conventions of the embedding.
    - Unsigned machine integers are [Z] values; every wrap-around of the
      source is written out with [wrap].
    - An operation of the source whose behaviour is undefined (a shift by at
      least the width of its operand, an array access outside the allocated
      words) yields [None], as does a counting loop that can never reach
      its bound; everything else is [Some].
    - The word array behind [heap.pointer] is a [list Z]; its length is the
      number of words that were allocated.
    - Byte views of the word array are little-endian. *)

From Stdlib Require Import ZArith Lia Bool List.
From stdpp Require Import base option list.

Local Open Scope Z_scope.

(** ** Machine arithmetic *)

Definition wrap (w x : Z) : Z := x mod 2 ^ w.

(** [x << k] on a [w]-bit unsigned operand. *)
Definition shl (w x k : Z) : option Z :=
  if (0 <=? k) && (k <? w) then Some (wrap w (Z.shiftl x k)) else None.

(** [x >> k] on a [w]-bit unsigned operand. *)
Definition shr (w x k : Z) : option Z :=
  if (0 <=? k) && (k <? w) then Some (Z.shiftr x k) else None.

(** [~x] on a [w]-bit unsigned operand. *)
Definition bnot (w x : Z) : Z := wrap w (Z.lnot x).

(** [static_cast<int>(x)] *)
Definition to_int (x : Z) : Z :=
  let y := wrap 32 x in if y <? 2 ^ 31 then y else y - 2 ^ 32.

(** Conversion of an integer to [bool]. *)
Definition to_bool (x : Z) : bool := negb (x =? 0).

(** ** Constants of the class *)

Definition block_digits : Z := 64.
Definition block_mask : Z := 2 ^ 64 - 1.
Definition block_round (x : Z) : Z := wrap 64 (x + (block_digits - 1)) / block_digits.

Definition stack_capacity : Z := 128 - 8.
Definition stack_size_mask : Z := 2 ^ 7 - 1.
Definition stack_data_mask : Z := 2 ^ stack_capacity - 1.

Definition heap_size_mask : Z := 2 ^ 35 - 1.
Definition heap_capacity_max : Z := 2 ^ 28.
Definition heap_capacity_mask : Z := heap_capacity_max - 1.

(** ** Representation *)

Record stack_type : Type := mk_stack {
  stack_size : Z;       (* size_type size : 7 *)
  stack_data : Z        (* __uint128_t data : 120 *)
}.

Record heap_type : Type := mk_heap {
  heap_size : Z;            (* size_type size : 35 *)
  heap_capacity : Z;        (* size_type capacity : 28, in words *)
  heap_pointer : list Z     (* block_type* pointer *)
}.

(** The union [m_data]; the constructor is the [is_heap] bit. *)
Inductive bvec : Type :=
| Stack (s : stack_type)
| Heap (h : heap_type).

Definition is_heap (c : bvec) : bool :=
  match c with Heap _ => true | Stack _ => false end.

Definition size (c : bvec) : Z :=
  match c with Heap h => heap_size h | Stack s => stack_size s end.

Definition capacity (c : bvec) : Z :=
  match c with
  | Heap h => wrap 64 (heap_capacity h * block_digits)
  | Stack _ => stack_capacity
  end.

(** [bvec()] *)
Definition empty_bvec : bvec := Stack (mk_stack 0 0).

(** ** Word array accesses *)

Definition load (p : list Z) (i : Z) : option Z :=
  if i <? 0 then None else p !! Z.to_nat i.

Definition store (p : list Z) (i v : Z) : option (list Z) :=
  if (0 <=? i) && (i <? Z.of_nat (length p)) then Some (<[Z.to_nat i := v]> p)
  else None.

(** [for (ii = start; ...; ++ii) body], run for [n] iterations. *)
Fixpoint for_loop {S : Type} (n : nat) (ii : Z) (body : Z -> S -> option S) (s : S)
  : option S :=
  match n with
  | O => Some s
  | S k => s' ← body ii s; for_loop k (ii + 1) body s'
  end.

(** A loop [for (auto ii = 0u; ii < bound; ++ii)] without early exit: [ii] is
    a 32-bit [unsigned], so the loop only ends when [bound] is below [2^32];
    otherwise the counter wraps for ever and there is no result. *)
Definition for_unsigned {S : Type} (bound : Z) (body : Z -> S -> option S) (s : S)
  : option S :=
  if bound <? 2 ^ 32 then for_loop (Z.to_nat bound) 0 body s else None.

(** ** Bit access *)

Definition get_at (c : bvec) (pos : Z) : option bool :=
  match c with
  | Heap h =>
      let word := pos / block_digits in
      let offset := pos mod block_digits in
      w ← load (heap_pointer h) word;
      m ← shl 64 1 offset;
      Some (to_bool (Z.land w m))
  | Stack s =>
      m ← shl 128 1 pos;
      Some (to_bool (Z.land (stack_data s) m))
  end.

Definition set_at (c : bvec) (pos : Z) (value : bool) : option bvec :=
  match c with
  | Heap h =>
      let word := pos / block_digits in
      let offset := pos mod block_digits in
      w ← load (heap_pointer h) word;
      m ← shl 64 1 offset;
      p ← store (heap_pointer h) word
            (if value then Z.lor w m else Z.land w (bnot 64 m));
      Some (Heap (mk_heap (heap_size h) (heap_capacity h) p))
  | Stack s =>
      m ← shl 128 1 pos;
      Some (Stack (mk_stack (stack_size s)
              (wrap 120 (if value then Z.lor (stack_data s) m
                         else Z.land (stack_data s) (bnot 128 m)))))
  end.

(** ** flip *)

Definition flip_body (ii : Z) (p : list Z) : option (list Z) :=
  prev ← load p ii; store p ii (bnot 64 prev).

Definition flip (c : bvec) : option bvec :=
  match c with
  | Heap h =>
      let words := block_round (heap_size h) in
      p ← for_unsigned words flip_body (heap_pointer h);
      Some (Heap (mk_heap (heap_size h) (heap_capacity h) p))
  | Stack s =>
      Some (Stack (mk_stack (stack_size s) (wrap 120 (bnot 128 (stack_data s)))))
  end.

(** ** Representation invariant (section 3 of the specification)

    [0 <= size <= capacity]; the heap capacity is the number of allocated
    words; every field fits its bit-field and every word its 64 bits. *)

Definition word_ok (w : Z) : bool := (0 <=? w) && (w <? 2 ^ 64).

Definition well_formed (c : bvec) : bool :=
  match c with
  | Stack s =>
      (0 <=? stack_size s) && (stack_size s <=? stack_capacity)
      && (0 <=? stack_data s) && (stack_data s <? 2 ^ 120)
  | Heap h =>
      (0 <=? heap_size h) && (heap_size h <? 2 ^ 35)
      && (heap_capacity h =? Z.of_nat (length (heap_pointer h)))
      && (heap_capacity h <? 2 ^ 28)
      && (heap_size h <=? heap_capacity h * block_digits)
      && forallb word_ok (heap_pointer h)
  end.

(** ** Storage *)

Section Operations.

(** The content of freshly allocated storage is indeterminate: [junk i] is
    what the [i]-th word of a new allocation happens to hold. *)
Variable junk : nat -> Z.

(** [m_wordAllocator.allocate(words)] *)
Definition allocate (words : Z) : list Z :=
  map (fun i => wrap 64 (junk i)) (seq 0 (Z.to_nat words)).

(** [__builtin_memcpy(&dst[d], &src[s], n * sizeof(block_type))] *)
Definition memcpy_words (dst : list Z) (d : Z) (src : list Z) (s n : Z)
  : option (list Z) :=
  if (0 <=? d) && (0 <=? s) && (0 <=? n)
     && (s + n <=? Z.of_nat (length src)) && (d + n <=? Z.of_nat (length dst))
  then Some (take (Z.to_nat d) dst
             ++ take (Z.to_nat n) (drop (Z.to_nat s) src)
             ++ drop (Z.to_nat (d + n)) dst)
  else None.

(** The bytes of a word and of the word array, lowest byte first. *)
Definition word_bytes (w : Z) : list Z :=
  map (fun k => Z.land (Z.shiftr w (8 * Z.of_nat k)) 255) (seq 0 8).

Definition bytes_word (bs : list Z) : Z :=
  fold_right (fun b acc => b + 256 * acc) 0 bs.

Fixpoint words_of_bytes (n : nat) (bs : list Z) : list Z :=
  match n with
  | O => []
  | S k => bytes_word (take 8 bs) :: words_of_bytes k (drop 8 bs)
  end.

(** [__builtin_memcpy(&data8[dst], &data8[src], n)] inside one word array.
    The two byte ranges may overlap; the copy is given its intended meaning
    (the source bytes are read before any is written). *)
Definition memcpy_bytes (p : list Z) (dst src n : Z) : option (list Z) :=
  let bs := flat_map word_bytes p in
  if (0 <=? dst) && (0 <=? src) && (0 <=? n)
     && (src + n <=? Z.of_nat (length bs)) && (dst + n <=? Z.of_nat (length bs))
  then Some (words_of_bytes (length p)
               (take (Z.to_nat dst) bs
                ++ take (Z.to_nat n) (drop (Z.to_nat src) bs)
                ++ drop (Z.to_nat (dst + n)) bs))
  else None.

(** [reinterpret_cast<T*>(pointer)[pos]] for an unsigned [T] of [digits] bits. *)
Definition load_as (digits : Z) (p : list Z) (pos : Z) : option Z :=
  let per := block_digits / digits in
  w ← load p (pos / per);
  Some (wrap digits (Z.shiftr w (digits * (pos mod per)))).

(** ** Capacity and growth *)

Definition clear (c : bvec) : bvec :=
  match c with
  | Heap h => Heap (mk_heap 0 (heap_capacity h) (heap_pointer h))
  | Stack s => Stack (mk_stack 0 (stack_data s))
  end.

(** [pointer[tailWord] |= block_mask << tailSize] or
    [pointer[tailWord] &= ~(block_mask << tailSize)] *)
Definition fill_tail (p : list Z) (tailWord tailSize : Z) (value : bool)
  : option (list Z) :=
  w ← load p tailWord;
  m ← shl 64 block_mask tailSize;
  store p tailWord (if value then Z.lor w m else Z.land w (bnot 64 m)).

Definition fill_body (fill : Z) (ii : Z) (p : list Z) : option (list Z) :=
  store p ii fill.

Definition reserve_heap (h : heap_type) (newCapacity : Z) : option bvec :=
  let words := block_round newCapacity in
  if words =? heap_capacity h then Some (Heap h)
  else
    pointer ← memcpy_words (allocate words) 0 (heap_pointer h) 0 (heap_capacity h);
    Some (Heap (mk_heap (heap_size h) (Z.land words heap_capacity_mask) pointer)).

Definition move_to_heap (s : stack_type) (newCapacity : Z) : option bvec :=
  let words := block_round newCapacity in
  let pointer := allocate words in
  pointer ← store pointer 0 (Z.land (stack_data s) block_mask);
  hi ← shr 128 (stack_data s) block_digits;
  pointer ← store pointer 1 (Z.land hi block_mask);
  Some (Heap (mk_heap (stack_size s) (Z.land words heap_capacity_mask) pointer)).

Definition reserve (c : bvec) (newCapacity : Z) : option bvec :=
  if newCapacity <=? capacity c then Some c
  else match c with
       | Heap h => reserve_heap h newCapacity
       | Stack s => move_to_heap s newCapacity
       end.

Definition resize_heap (h : heap_type) (count : Z) (value : bool) : option bvec :=
  let words := block_round count in
  if words >? heap_capacity h then
    pointer ← memcpy_words (allocate words) 0 (heap_pointer h) 0 (heap_capacity h);
    let tailWord := heap_size h / block_digits in
    let tailSize := heap_size h mod block_digits in
    '(pointer, tailWord) ←
       (if tailSize =? 0 then Some (pointer, tailWord)
        else p ← fill_tail pointer tailWord tailSize value; Some (p, tailWord + 1));
    let fill := if value then block_mask else 0 in
    pointer ← for_loop (Z.to_nat (words - tailWord)) tailWord (fill_body fill) pointer;
    Some (Heap (mk_heap (Z.land count heap_size_mask)
                        (Z.land words heap_capacity_mask) pointer))
  else
    pointer ←
      (if count >? heap_size h then
         (* Grow within the tail word *)
         fill_tail (heap_pointer h) (heap_size h / block_digits)
                   (heap_size h mod block_digits) value
       else Some (heap_pointer h));
    Some (Heap (mk_heap (Z.land count heap_size_mask) (heap_capacity h) pointer)).

Definition grow_to_heap (s : stack_type) (count : Z) (value : bool) : option bvec :=
  let words := block_round count in
  let tailWord := stack_size s / block_digits in
  let tailSize := stack_size s mod block_digits in
  let pointer := allocate words in
  pointer ←
    (if tailWord =? 0 then Some pointer
     else store pointer 0 (Z.land (stack_data s) block_mask));
  '(pointer, tailWord) ←
     (if tailSize =? 0 then Some (pointer, tailWord)
      else
        hi ← shr 128 (stack_data s) block_digits;
        v ← (if value then
               m ← shl 64 block_mask tailSize;
               Some (Z.lor m (Z.land hi block_mask))
             else Some (Z.land hi block_mask));
        p ← store pointer tailWord v;
        Some (p, tailWord + 1));
  let fill := if value then block_mask else 0 in
  pointer ← for_loop (Z.to_nat (words - tailWord)) tailWord (fill_body fill) pointer;
  Some (Heap (mk_heap (Z.land count heap_size_mask)
                      (Z.land words heap_capacity_mask) pointer)).

Definition resize_stack (s : stack_type) (count : Z) (value : bool) : option bvec :=
  data ←
    (if count >? stack_size s then
       m ← shl 128 stack_data_mask (stack_size s);
       let data := if value then Z.lor (stack_data s) m
                   else Z.land (stack_data s) (bnot 128 m) in
       Some (Z.land data stack_data_mask)
     else Some (stack_data s));
  Some (Stack (mk_stack (Z.land count stack_size_mask) data)).

Definition resize (c : bvec) (count : Z) (value : bool) : option bvec :=
  match c with
  | Heap h => resize_heap h count value
  | Stack s =>
      if count >? stack_capacity then grow_to_heap s count value
      else resize_stack s count value
  end.

Definition push_back (c : bvec) (value : bool) : option bvec :=
  resize c (wrap 64 (size c + 1)) value.

Definition pop_back (c : bvec) : bvec :=
  match c with
  | Heap h => Heap (mk_heap (wrap 35 (heap_size h - 1)) (heap_capacity h) (heap_pointer h))
  | Stack s => Stack (mk_stack (wrap 7 (stack_size s - 1)) (stack_data s))
  end.

(** [assign(count, value)]: the old storage is released, [m_data.stack = {}],
    then [resize(count, value)].  Also the constructor [bvec(count, value)]. *)
Definition assign_count (count : Z) (value : bool) : option bvec :=
  resize empty_bvec count value.

(** ** erase(pos) *)

(** [1 << (block_digits - 1)] *)
Definition carry_bit : Z := 2 ^ 63.

(** The loop [while (lastWord > posWord)] of [erase(pos)], which runs
    [lastWord - posWord] times, from the last word downwards. *)
Fixpoint erase_carry (n : nat) (lastWord : Z) (carry : bool) (p : list Z)
  : option (bool * list Z) :=
  match n with
  | O => Some (carry, p)
  | S k =>
      let carryBit := if carry then carry_bit else 0 in
      w ← load p lastWord;
      let carry := to_bool (Z.land w 1) in
      w1 ← shr 64 w 1;
      p ← store p lastWord (Z.lor w1 carryBit);
      erase_carry k (lastWord - 1) carry p
  end.

Definition erase (c : bvec) (pos : Z) : option bvec :=
  match c with
  | Heap h =>
      let posWord := wrap 64 pos / block_digits in
      let posWordSize := wrap 64 pos mod block_digits in
      let lastWord := heap_size h / block_digits in
      '(carry, p) ← erase_carry (Z.to_nat (lastWord - posWord)) lastWord false
                      (heap_pointer h);
      w ← load p posWord;
      upper ← shr 64 w (posWordSize + 1);
      one ← shl 64 1 posWordSize;
      let lower := Z.land w (wrap 64 (one - 1)) in
      up ← shl 64 upper posWordSize;
      p ← store p posWord (Z.lor (Z.lor (if carry : bool then carry_bit else 0) up) lower);
      (* the size field is left as it is *)
      Some (Heap (mk_heap (heap_size h) (heap_capacity h) p))
  | Stack s =>
      upper ← shr 128 (stack_data s) (pos + 1);
      one ← shl 128 1 pos;
      let lower := Z.land (stack_data s) (wrap 128 (one - 1)) in
      up ← shl 128 upper pos;
      Some (Stack (mk_stack (wrap 7 (stack_size s - 1))
                            (Z.land (Z.lor up lower) stack_data_mask)))
  end.

(** ** erase(first, last) *)

(** Body of the word-by-word loop of the range erase. *)
Definition shift_body (firstBlock lastBlock lastBit : Z) (ii : Z) (data : list Z)
  : option (list Z) :=
  a ← load data (lastBlock + ii);
  lo ← shr 64 a lastBit;
  b ← load data (lastBlock + ii + 1);
  hi ← shl 64 b (wrap 64 (block_digits - lastBit));
  store data (firstBlock + ii) (Z.lor lo hi).

(** "Handle first block": folds the word of [last] into the word of [first];
    yields the array and the updated [firstBlock, firstBit, lastBlock, lastBit]. *)
Definition erase_first_block (size : Z) (data : list Z)
    (firstBlock firstBit lastBlock lastBit : Z)
  : option (list Z * (Z * Z * Z * Z)) :=
  if firstBlock =? lastBlock then
    upperMask ← shl 64 block_mask lastBit;
    one ← shl 64 1 firstBit;
    let lowerMask := wrap 64 (one - 1) in
    let endBlock := block_round size in
    w ← load data firstBlock;
    hi ← shr 64 (Z.land w upperMask) (wrap 64 (lastBit - firstBit));
    data ← store data firstBlock (Z.lor (Z.land w lowerMask) hi);
    let lastBlock := lastBlock + 1 in
    data ←
      (if lastBlock <? endBlock then
         w0 ← load data firstBlock;
         w1 ← load data lastBlock;
         x ← shl 64 w1 (wrap 64 (block_digits - lastBit - firstBit));
         store data firstBlock (Z.lor w0 x)
       else Some data);
    let firstBlock := firstBlock + 1 in
    let lastBit := wrap 64 (lastBit + block_digits - firstBit) mod block_digits in
    Some (data, (firstBlock, 0, lastBlock, lastBit))
  else if negb (firstBit =? 0) then
    one ← shl 64 1 firstBit;
    let lowerMask := wrap 64 (one - 1) in
    let endBlock := block_round size in
    w ← load data firstBlock;
    wl ← load data lastBlock;
    a ← shr 64 wl lastBit;
    b ← shl 64 a firstBit;
    data ← store data firstBlock (Z.lor (Z.land w lowerMask) b);
    let lastBlock := lastBlock + 1 in
    data ←
      (if (firstBit <? lastBit) && (lastBlock <? endBlock) then
         w0 ← load data firstBlock;
         w1 ← load data lastBlock;
         x ← shl 64 w1 (wrap 64 (firstBit + block_digits - lastBit));
         store data firstBlock (Z.lor w0 x)
       else Some data);
    let firstBlock := firstBlock + 1 in
    let lastBit := wrap 64 (lastBit + block_digits - firstBit) mod block_digits in
    Some (data, (firstBlock, 0, lastBlock, lastBit))
  else Some (data, (firstBlock, firstBit, lastBlock, lastBit)).

(** "Handle remaining blocks". *)
Definition erase_remaining (size : Z) (data : list Z)
    (firstBlock firstBit lastBlock lastBit : Z) : option (list Z) :=
  let firstByteAlign := firstBit mod 8 in
  let lastByteAlign := lastBit mod 8 in
  if (firstByteAlign =? 0) && (lastByteAlign =? 0) then
    let firstByte := wrap 64 (firstBlock * 8 + firstBit / 8) in
    let lastByte := wrap 64 (lastBlock * 8 + lastBit / 8) in
    let endByte := wrap 64 (size + 7) / 8 in
    let numBytes := wrap 64 (endByte - lastByte) in
    memcpy_bytes data firstByte lastByte numBytes
  else if lastBlock >? firstBlock then
    let blockSpan := lastBlock - firstBlock in
    data ← for_unsigned blockSpan (shift_body firstBlock lastBlock lastBit) data;
    (* Shift last block *)
    w ← load data (lastBlock + blockSpan);
    w' ← shr 64 w lastBit;
    store data (firstBlock + blockSpan) w'
  else Some data.

(** [first] and [last] are the [m_pos] fields of the two iterators. *)
Definition erase_range (c : bvec) (first last : Z) : option bvec :=
  match c with
  | Heap h =>
      if wrap 64 last >? heap_size h then
        Some (Heap (mk_heap (Z.land (wrap 64 first) heap_size_mask)
                            (heap_capacity h) (heap_pointer h)))
      else
        let firstBlock := wrap 64 first / block_digits in
        let firstBit := wrap 64 first mod block_digits in
        let lastBlock := wrap 64 last / block_digits in
        let lastBit := wrap 64 last mod block_digits in
        '(data, (firstBlock, firstBit, lastBlock, lastBit)) ←
          erase_first_block (heap_size h) (heap_pointer h)
                            firstBlock firstBit lastBlock lastBit;
        data ← erase_remaining (heap_size h) data firstBlock firstBit lastBlock lastBit;
        Some (Heap (mk_heap
                (Z.land (wrap 64 (heap_size h - wrap 64 (last - first))) heap_size_mask)
                (heap_capacity h) data))
  | Stack s =>
      if last >? stack_size s then
        Some (Stack (mk_stack (Z.land (wrap 64 first) stack_size_mask) (stack_data s)))
      else
        let start := wrap 64 first in
        let end_ := wrap 64 last in
        one ← shl 128 1 start;
        let lower := Z.land (stack_data s) (wrap 128 (one - 1)) in
        upper ← shr 128 (stack_data s) end_;
        up ← shl 128 upper start;
        Some (Stack (mk_stack
                (Z.land (wrap 64 (stack_size s - (end_ - start))) stack_size_mask)
                (Z.land (Z.lor up lower) stack_data_mask)))
  end.

(** ** assign(first, last) from the iterators of another bvec *)

(** [first] and [last] are positions in [other]; the previous storage of the
    assigned vector is released and plays no part in the result. *)
Definition assign_range (other : bvec) (first last : Z) : option bvec :=
  match other with
  | Heap o =>
      let begin := wrap 64 first in
      let end_ := wrap 64 last in
      let beginWord := begin / block_digits in
      let beginBit := begin mod block_digits in
      let endWord := block_round end_ in
      let endBit := end_ mod block_digits in
      let words := wrap 64 (endWord - beginWord) in
      (* Copy entire words *)
      pointer ← memcpy_words (allocate words) 0 (heap_pointer o) beginWord words;
      let this :=
        Heap (mk_heap (Z.land (wrap 64 (words * block_digits - endBit)) heap_size_mask)
                      (Z.land words heap_capacity_mask) pointer) in
      (* Erase leading bits *)
      erase_range this 0 (0 + to_int beginBit)
  | Stack o =>
      data ← shr 128 (stack_data o) first;
      Some (Stack (mk_stack (Z.land (wrap 64 (last - first)) stack_size_mask)
                            (wrap 120 data)))
  end.

(** [cbegin()] and [cend()] as positions. *)
Definition cbegin (c : bvec) : Z := 0.
Definition cend (c : bvec) : Z := to_int (size c).

(** The copy constructor [bvec(const bvec& other)] and [operator=(const bvec&)]. *)
Definition copy (other : bvec) : option bvec :=
  assign_range other (cbegin other) (cend other).

(** ** Comparison *)

(** The loop of [operator==] over [n] positions from [ii]: [Some false] at
    the first mismatch, [Some true] when all [n] positions agree. *)
Fixpoint eq_loop (lhs rhs : bvec) (n : nat) (ii : Z) : option bool :=
  match n with
  | O => Some true
  | S k =>
      l ← get_at lhs ii;
      r ← get_at rhs ii;
      if xorb l r then Some false else eq_loop lhs rhs k (ii + 1)
  end.

(** [operator==].  The counter [ii] is a 32-bit [unsigned]: when the size is
    [2^32] or more it can never reach it, and the loop ends only by a
    mismatch among the first [2^32] positions. *)
Definition bvec_eq (lhs rhs : bvec) : option bool :=
  if negb (size lhs =? size rhs) then Some false
  else if size lhs <? 2 ^ 32 then eq_loop lhs rhs (Z.to_nat (size lhs)) 0
  else
    r ← eq_loop lhs rhs (Z.to_nat (2 ^ 32)) 0;
    if r : bool then None else Some false.

Inductive weak_ordering : Type := less | equivalent | greater.

(** A loop [while (sz > other) { if (c[--sz]) return ...; }] that runs at most
    [n = sz - other] times: [true] when it met a set bit and returned. *)
Fixpoint scan_extra (c : bvec) (n : nat) (sz : Z) : option bool :=
  match n with
  | O => Some false
  | S k =>
      b ← get_at c (sz - 1);
      if b : bool then Some true else scan_extra c k (sz - 1)
  end.

(** The loop [while (lhsSize--)] over the shared positions. *)
Fixpoint scan_shared (lhs rhs : bvec) (n : nat) (sz : Z) : option weak_ordering :=
  match n with
  | O => Some equivalent
  | S k =>
      l ← get_at lhs (sz - 1);
      r ← get_at rhs (sz - 1);
      if l && negb r then Some greater
      else if negb l && r then Some less
      else scan_shared lhs rhs k (sz - 1)
  end.

(** [operator<=>] *)
Definition spaceship (lhs rhs : bvec) : option weak_ordering :=
  let lhsSize := size lhs in
  let rhsSize := size rhs in
  g ← scan_extra lhs (Z.to_nat (lhsSize - rhsSize)) lhsSize;
  if g : bool then Some greater
  else
    let lhsSize := Z.min lhsSize rhsSize in
    l ← scan_extra rhs (Z.to_nat (rhsSize - lhsSize)) rhsSize;
    if l : bool then Some less
    else (* Size is same, compare MSB *)
      scan_shared lhs rhs (Z.to_nat lhsSize) lhsSize.

(** ** Cast, hash and the free erase functions *)

(** [bvec_cast<T>(c, pos)] for an unsigned integer [T] of [digits] bits. *)
Definition cast (digits : Z) (c : bvec) (pos : Z) : option Z :=
  let lastWord := size c / digits in
  mask ←
    (if pos =? lastWord then
       let bits := size c mod digits in
       shr 64 block_mask (wrap 64 (64 - bits))
     else Some block_mask);
  match c with
  | Heap h =>
      v ← load_as digits (heap_pointer h) pos;
      Some (wrap digits (Z.land v mask))
  | Stack s =>
      let shift := wrap 64 (pos * digits) in
      v ← shr 128 (stack_data s) shift;
      Some (wrap digits (Z.land v mask))
  end.

(** [std::hash<bvec>::operator()] *)
Definition hash_body (key : bvec) (ii : Z) (result : Z) : option Z :=
  v ← cast 64 key ii;
  Some (wrap 64 (result * block_digits + v)).

Definition hash (key : bvec) : option Z :=
  let digits := 64 in
  let lastWord := wrap 64 (size key + digits - 1) / digits in
  for_unsigned lastWord (hash_body key) (size key).

(** [__builtin_popcount] on an [unsigned int]. *)
Definition popcount (x : Z) : Z :=
  fold_right (fun i acc => (if Z.testbit x (Z.of_nat i) then 1 else 0) + acc) 0
             (seq 0 32).

Definition popcount_body (c : bvec) (ii : Z) (popCount : Z) : option Z :=
  v ← cast 32 c ii;
  Some (to_int (popCount + popcount v)).

(** [std::erase(c, value)]: the new content and the returned count. *)
Definition std_erase (c : bvec) (value : bool) : option (bvec * Z) :=
  let digits := 64 in
  let lastWord := wrap 64 (size c + digits - 1) / digits in
  popCount ← for_unsigned lastWord (popcount_body c) 0;
  if value then
    c' ← assign_count (wrap 64 (size c - popCount)) false;
    Some (c', wrap 64 popCount)
  else
    let removed := wrap 64 (size c - popCount) in
    c' ← assign_count (wrap 64 popCount) true;
    Some (c', removed).

(** What running a loop with a bound on its number of turns can give. *)
Inductive outcome (A : Type) : Type :=
| Returns (a : A)
| Undefined
| OutOfFuel.
Arguments Returns {A} a.
Arguments Undefined {A}.
Arguments OutOfFuel {A}.

(** The loop [while (iter != c.end())] of [std::erase_if], [fuel] turns at most. *)
Fixpoint erase_if_loop (fuel : nat) (pred : bool -> bool) (c : bvec) (iter : Z)
  : outcome bvec :=
  match fuel with
  | O => OutOfFuel
  | S k =>
      if iter =? to_int (size c) then Returns c
      else match get_at c (wrap 64 iter) with
           | None => Undefined
           | Some b =>
               if pred b then
                 match erase c iter with
                 | None => Undefined
                 | Some c' => erase_if_loop k pred c' iter
                 end
               else erase_if_loop k pred c (iter + 1)
           end
  end.

(** [std::erase_if(c, pred)]: the new content and the returned count. *)
Definition std_erase_if (fuel : nat) (pred : bool -> bool) (c : bvec)
  : outcome (bvec * Z) :=
  let startSize := size c in
  match erase_if_loop fuel pred c 0 with
  | Returns c' => Returns (c', wrap 64 (startSize - size c'))
  | Undefined => Undefined
  | OutOfFuel => OutOfFuel
  end.

End Operations.

Arguments Returns {A} a.
Arguments Undefined {A}.
Arguments OutOfFuel {A}.

(** ** Bit references and construction from a list of bits *)

(** [reference::flip()], that is [flip_at(pos)]. *)
Definition flip_at (c : bvec) (pos : Z) : option bvec :=
  match c with
  | Heap h =>
      let word := pos / block_digits in
      let offset := pos mod block_digits in
      prev ← load (heap_pointer h) word;
      m ← shl 64 1 offset;
      p ← store (heap_pointer h) word (Z.lxor prev m);
      Some (Heap (mk_heap (heap_size h) (heap_capacity h) p))
  | Stack s =>
      let prev := stack_data s in
      m ← shl 128 1 pos;
      Some (Stack (mk_stack (stack_size s) (wrap 120 (Z.lxor prev m))))
  end.

(** The static [swap(reference x, reference y)] for two references into the
    same vector, at positions [x] and [y]. *)
Definition swap_references (c : bvec) (x y : Z) : option bvec :=
  bx ← get_at c x;
  by_ ← get_at c y;
  if Bool.eqb bx by_ then Some c
  else c ← flip_at c x; flip_at c y.

Section Construction.

Variable junk : nat -> Z.

(** The loop [while (first != last) push_back( *first++ )] over the values
    of a plain iterator range. *)
Fixpoint push_back_all (c : bvec) (values : list bool) : option bvec :=
  match values with
  | [] => Some c
  | value :: rest => c' ← push_back junk c value; push_back_all c' rest
  end.

(** [assign(first, last)] from plain value iterators, and
    [assign(std::initializer_list<bool>)]: [clear()], then one [push_back]
    per value. *)
Definition assign_list (c : bvec) (init : list bool) : option bvec :=
  push_back_all (clear c) init.

(** The constructor [bvec(std::initializer_list<bool> init)]: [m_data{}],
    then [assign(init.begin(), init.end())]. *)
Definition bvec_of_list (init : list bool) : option bvec :=
  assign_list empty_bvec init.

(** [emplace_back(value)]: the new content and the position the returned
    reference is bound to. *)
Definition emplace_back (c : bvec) (value : bool) : option (bvec * Z) :=
  let endPos := size c in
  c' ← resize junk c (wrap 64 (endPos + 1)) value;
  Some (c', endPos).

End Construction.

(** [max_size()] *)
Definition max_size : Z := heap_capacity_max * block_digits.

(** * xilefian::bheap -- [cxx/include/xilefian/bheap.hpp]

    The container [m_heap] (a [std::vector<T>] by default) is a list; an
    iterator is an index into it and [end()] is its length.  Dereferencing
    an iterator outside the container has no defined result.  The loops of
    the class are run with a bound on their number of turns. *)

Module bheap.
Section Definitions.

Context {T : Type}.
Variable m_comparator : T -> T -> bool.

Definition empty (m_heap : list T) : bool :=
  match m_heap with [] => true | _ => false end.

Definition front (m_heap : list T) : option T := m_heap !! 0%nat.

(** [std::iter_swap(a, b)] *)
Definition iter_swap (m_heap : list T) (a b : nat) : option (list T) :=
  x ← m_heap !! a;
  y ← m_heap !! b;
  Some (<[b := x]> (<[a := y]> m_heap)).

Definition iterator_parent (m_heap : list T) (it : nat) : nat :=
  let idx := ((it - 1) / 2)%nat in
  if (length m_heap <=? idx)%nat then length m_heap else idx.

Definition iterator_positive (m_heap : list T) (it : nat) : nat :=
  let idx := (it * 2 + 1)%nat in
  if (length m_heap <=? idx)%nat then length m_heap else idx.

Definition iterator_negative (m_heap : list T) (it : nat) : nat :=
  let idx := (it * 2 + 2)%nat in
  if (length m_heap <=? idx)%nat then length m_heap else idx.

(** The loop [while (it != m_heap.begin())] of [fix_heap]: the container
    and the iterator it ends on. *)
Fixpoint fix_heap_loop (fuel : nat) (m_heap : list T) (it : nat)
  : outcome (list T * nat) :=
  if (it =? 0)%nat then Returns (m_heap, it)
  else
    match fuel with
    | O => OutOfFuel
    | S k =>
        let parent := iterator_parent m_heap it in
        match m_heap !! parent, m_heap !! it with
        | Some p, Some x =>
            if negb (m_comparator p x) then Returns (m_heap, it)
            else
              match iter_swap m_heap parent it with
              | Some swapped => fix_heap_loop k swapped parent
              | None => Undefined
              end
        | _, _ => Undefined
        end
    end.

(** [fix_heap()], which starts at [std::prev(m_heap.end())]. *)
Definition fix_heap (fuel : nat) (m_heap : list T) : outcome (list T * nat) :=
  match m_heap with
  | [] => Undefined
  | _ => fix_heap_loop fuel m_heap (length m_heap - 1)
  end.

(** [push(value)] and [emplace(args...)]: [push_back], then [fix_heap()]. *)
Definition push (fuel : nat) (m_heap : list T) (value : T)
  : outcome (list T * nat) :=
  fix_heap fuel (m_heap ++ [value]).

(** [child != m_heap.end() && m_comparator( *largest, *child)] decides
    whether [child] becomes the largest. *)
Definition pick_larger (m_heap : list T) (largest child : nat) : option nat :=
  if (child =? length m_heap)%nat then Some largest
  else
    l ← m_heap !! largest;
    c ← m_heap !! child;
    Some (if m_comparator l c then child else largest).

Fixpoint fix_heap_recursive (fuel : nat) (m_heap : list T) (it : nat)
  : outcome (list T) :=
  match fuel with
  | O => OutOfFuel
  | S k =>
      let positive := iterator_positive m_heap it in
      let negative := iterator_negative m_heap it in
      match (largest ← pick_larger m_heap it positive;
             pick_larger m_heap largest negative) with
      | None => Undefined
      | Some largest =>
          if (largest =? it)%nat then Returns m_heap
          else
            match iter_swap m_heap it largest with
            | Some swapped => fix_heap_recursive k swapped largest
            | None => Undefined
            end
      end
  end.

(** [pop()]: move the last element to the front, [pop_back], then
    [fix_heap_recursive(m_heap.begin())]. *)
Definition pop (fuel : nat) (m_heap : list T) : outcome (list T) :=
  match m_heap with
  | [] => Undefined
  | _ =>
      match iter_swap m_heap 0 (length m_heap - 1) with
      | Some swapped => fix_heap_recursive fuel (removelast swapped) 0
      | None => Undefined
      end
  end.

(** The order a binary heap keeps (not part of the header): no element
    compares greater than its parent, the parent of index [i] being index
    [(i - 1) / 2]. *)
Definition heap_ordered (m_heap : list T) : bool :=
  forallb (fun i =>
             match m_heap !! ((i - 1) / 2)%nat, m_heap !! i with
             | Some p, Some x => negb (m_comparator p x)
             | _, _ => true
             end)
          (seq 1 (length m_heap - 1)).

(** The element at index [i] is not greater than its parent. *)
Definition pair_ok (h : list T) (i : nat) : Prop :=
  forall x p, h !! i = Some x -> h !! ((i - 1) / 2)%nat = Some p ->
    m_comparator p x = false.

(** The heap order as a proposition over all indices. *)
Definition heap_prop (h : list T) : Prop :=
  forall i, (1 <= i)%nat -> pair_ok h i.

(** No child of [it] is greater than the parent of [it]. *)
Definition grandparent_ok (h : list T) (it : nat) : Prop :=
  (1 <= it)%nat ->
  forall c x g, (1 <= c)%nat -> ((c - 1) / 2)%nat = it ->
    h !! c = Some x -> h !! ((it - 1) / 2)%nat = Some g ->
    m_comparator g x = false.

End Definitions.
End bheap.

(** * Abstract view of a vector

    The definitions below do not come from the header: they describe the
    content of a vector the way the specification speaks about it, and the
    theorems relate the operations above to them. *)

(** The bit the storage holds at [pos]. *)
Definition bit (c : bvec) (pos : Z) : bool :=
  match c with
  | Heap h => Z.testbit (nth (Z.to_nat (pos / 64)) (heap_pointer h) 0) (pos mod 64)
  | Stack s => Z.testbit (stack_data s) pos
  end.

(** The sequence of bits [b[0..size)]. *)
Definition contents (c : bvec) : list bool :=
  map (fun i => bit c (Z.of_nat i)) (seq 0 (Z.to_nat (size c))).

(** A bit sequence read as an unsigned number, position 0 least significant. *)
Fixpoint number (bs : list bool) : Z :=
  match bs with
  | [] => 0
  | b :: rest => Z.b2z b + 2 * number rest
  end.

(** The value of the first [n] bits of a vector. *)
Definition prefix_number (c : bvec) (n : nat) : Z :=
  number (map (fun i => bit c (Z.of_nat i)) (seq 0 n)).

Definition ordering_of (c : comparison) : weak_ordering :=
  match c with Lt => less | Eq => equivalent | Gt => greater end.

(** The ordering rule in the words of the specification.
    [first_difference a b n] scans the shared positions from [n - 1] down to
    0 and decides at the first position where the two vectors differ. *)
Fixpoint first_difference (a b : bvec) (n : nat) : weak_ordering :=
  match n with
  | O => equivalent
  | S k =>
      match bit a (Z.of_nat k), bit b (Z.of_nat k) with
      | true, false => greater
      | false, true => less
      | _, _ => first_difference a b k
      end
  end.

(** All the bits of [c] at the [n] positions from [lo] on are zero. *)
Definition extra_bits_zero (c : bvec) (lo n : nat) : bool :=
  forallb (fun i => negb (bit c (Z.of_nat i))) (seq lo n).

Definition order_by_rule (a b : bvec) : weak_ordering :=
  let na := Z.to_nat (size a) in
  let nb := Z.to_nat (size b) in
  if (nb <? na)%nat then
    if extra_bits_zero a nb (na - nb) then first_difference a b nb else greater
  else if (na <? nb)%nat then
    if extra_bits_zero b na (nb - na) then first_difference a b na else less
  else first_difference a b na.

(** The hash in the words of the specification.  [word_value c i] is the
    value of the [i]-th word of the content, where a position at or beyond
    [size] counts as zero (the final partial word is masked beyond size);
    [occupied_words] is the number of words the content occupies. *)
Definition word_value (c : bvec) (i : nat) : Z :=
  number (map (fun j => let pos := 64 * Z.of_nat i + Z.of_nat j in
                        (pos <? size c) && bit c pos)
              (seq 0 64)).

Definition occupied_words (c : bvec) : nat := Z.to_nat ((size c + 63) / 64).

Definition hash_step (result w : Z) : Z := wrap 64 (result * 64 + w).

Definition hash_by_rule (c : bvec) : Z :=
  fold_left hash_step (map (word_value c) (seq 0 (occupied_words c))) (size c).

(** The value [bvec_cast<T>] is meant to give for an unsigned [T] of
    [digits] bits: chunk [i] of the content, [digits] bits from position
    [digits * i] on, where a position at or beyond [size] counts as zero. *)
Definition chunk_value (digits : Z) (c : bvec) (i : Z) : Z :=
  number (map (fun j => let pos := digits * i + Z.of_nat j in
                        (pos <? size c) && bit c pos)
              (seq 0 (Z.to_nat digits))).

(** * xilefian::btree -- [cxx/btree.hpp]

    The nodes the node allocator has handed out form a store: a list of
    [bnode] records in which the address of a node is its index, and a fresh
    allocation takes the next index.  A [bnode*] is an optional address,
    [None] being the null pointer; reading through a null or dangling
    pointer has no defined result.  The [value_type&] of a node refers to
    storage that no other node shares, so the value is kept in the node.
    The loops of the class are run with a bound on their number of turns. *)

Module btree.
Section Definitions.

Context {T : Type}.
Variable m_comparator : T -> T -> bool.
Variable junk : nat -> Z.

Definition pointer : Type := option nat.

Record bnode : Type := mk_bnode {
  parent : pointer;
  positive : pointer;
  negative : pointer;
  value : T
}.

(** [bnode::next<Forward>()], [bnode::prev<Forward>()] and [bnode::child]. *)
Definition next (Forward : bool) (n : bnode) : pointer :=
  if Forward then negative n else positive n.

Definition prev (Forward : bool) (n : bnode) : pointer :=
  if Forward then positive n else negative n.

Definition child (n : bnode) (which : bool) : pointer :=
  if which then positive n else negative n.

Record btree : Type := mk_btree {
  m_nodes : list bnode;
  m_root : pointer
}.

Definition empty (t : btree) : bool :=
  match m_root t with None => true | Some _ => false end.

(** A [bnode**]: the address of [m_root] or of a child field of a node. *)
Inductive slot : Type :=
| root_slot
| positive_slot (a : nat)
| negative_slot (a : nat).

Definition read_slot (t : btree) (node : slot) : option pointer :=
  match node with
  | root_slot => Some (m_root t)
  | positive_slot a => n ← m_nodes t !! a; Some (positive n)
  | negative_slot a => n ← m_nodes t !! a; Some (negative n)
  end.

Definition write_slot (t : btree) (node : slot) (p : pointer) : option btree :=
  match node with
  | root_slot => Some (mk_btree (m_nodes t) p)
  | positive_slot a =>
      n ← m_nodes t !! a;
      Some (mk_btree (<[a := mk_bnode (parent n) p (negative n) (value n)]> (m_nodes t))
                     (m_root t))
  | negative_slot a =>
      n ← m_nodes t !! a;
      Some (mk_btree (<[a := mk_bnode (parent n) (positive n) p (value n)]> (m_nodes t))
                     (m_root t))
  end.

Record iterator : Type := mk_iterator {
  m_node : pointer;
  m_code : bvec;
  m_isEnd : bool
}.

(** The two constructors of [iterator]: [m_code{code}] copies the vector
    it is given, since a named rvalue reference is an lvalue. *)
Definition make_iterator (node : pointer) (code : bvec) (isEnd : bool)
  : outcome iterator :=
  match copy junk code with
  | Some c => Returns (mk_iterator node c isEnd)
  | None => Undefined
  end.

(** The loop [while ( *node )] of [emplace]: the parent, the slot and the
    code it ends with. *)
Fixpoint emplace_loop (fuel : nat) (t : btree) (v : T)
    (parent : pointer) (node : slot) (code : bvec)
  : outcome (pointer * slot * bvec) :=
  match read_slot t node with
  | None => Undefined
  | Some None => Returns (parent, node, code)
  | Some (Some a) =>
      match fuel with
      | O => OutOfFuel
      | S k =>
          match m_nodes t !! a with
          | None => Undefined
          | Some n =>
              if m_comparator v (value n) then
                match push_back junk code true with
                | Some code' => emplace_loop k t v (Some a) (positive_slot a) code'
                | None => Undefined
                end
              else
                match push_back junk code false with
                | Some code' => emplace_loop k t v (Some a) (negative_slot a) code'
                | None => Undefined
                end
          end
      end
  end.

(** [emplace(args...)] with [v] the value constructed from the arguments:
    the tree afterwards and the returned iterator. *)
Definition emplace (fuel : nat) (t : btree) (v : T) : outcome (btree * iterator) :=
  match emplace_loop fuel t v None root_slot empty_bvec with
  | Returns (parent, node, code) =>
      let a := length (m_nodes t) in
      match write_slot t node (Some a) with
      | Some t1 =>
          let t' := mk_btree (m_nodes t1 ++ [mk_bnode parent None None v]) (m_root t1) in
          match make_iterator (Some a) code false with
          | Returns it => Returns (t', it)
          | Undefined => Undefined
          | OutOfFuel => OutOfFuel
          end
      | None => Undefined
      end
  | Undefined => Undefined
  | OutOfFuel => OutOfFuel
  end.

(** [insert(value)] *)
Definition insert (fuel : nat) (t : btree) (v : T) : outcome (btree * iterator) :=
  emplace fuel t v.

(** The first loop of [emplace_hint]: up from the hint while the last step
    of the code is not the way the value goes at the node above.
    [code.back()] reads the bit at [size() - 1]. *)
Fixpoint hint_loop (fuel : nat) (nodes : list bnode) (v : T)
    (parent_ : pointer) (code : bvec) : outcome (pointer * bvec) :=
  match parent_ with
  | None => Undefined
  | Some a =>
      match nodes !! a with
      | None => Undefined
      | Some n =>
          match parent n with
          | None => Returns (parent_, code)
          | Some g =>
              match nodes !! g with
              | None => Undefined
              | Some above =>
                  match get_at code (wrap 64 (size code - 1)) with
                  | None => Undefined
                  | Some back =>
                      if negb (Bool.eqb back (m_comparator v (value above))) then
                        match fuel with
                        | O => OutOfFuel
                        | S k => hint_loop k nodes v (parent n) (pop_back code)
                        end
                      else Returns (parent_, code)
                  end
              end
          end
      end
  end.

(** [emplace_hint(hint, args...)] with [v] the value constructed from the
    arguments.  [auto code = hint.m_code] copies the code; the reference
    [code.emplace_back(...)] returns is read as the [bool] that selects the
    child of [parent]. *)
Definition emplace_hint (fuel : nat) (t : btree) (hint : iterator) (v : T)
  : outcome (btree * iterator) :=
  match copy junk (m_code hint) with
  | None => Undefined
  | Some code =>
      match hint_loop fuel (m_nodes t) v (m_node hint) code with
      | Returns (Some p, code) =>
          match m_nodes t !! p with
          | None => Undefined
          | Some n =>
              match emplace_back junk code (m_comparator v (value n)) with
              | None => Undefined
              | Some (code, endPos) =>
                  match get_at code endPos with
                  | None => Undefined
                  | Some which =>
                      match emplace_loop fuel t v (Some p)
                              (if which then positive_slot p else negative_slot p)
                              code with
                      | Returns (parent, node, code) =>
                          let a := length (m_nodes t) in
                          match write_slot t node (Some a) with
                          | Some t1 =>
                              let t' := mk_btree
                                          (m_nodes t1 ++ [mk_bnode parent None None v])
                                          (m_root t1) in
                              match make_iterator (Some a) code false with
                              | Returns it => Returns (t', it)
                              | Undefined => Undefined
                              | OutOfFuel => OutOfFuel
                              end
                          | None => Undefined
                          end
                      | Undefined => Undefined
                      | OutOfFuel => OutOfFuel
                      end
                  end
              end
          end
      | Returns (None, _) => Undefined
      | Undefined => Undefined
      | OutOfFuel => OutOfFuel
      end
  end.

(** [insert_hint(hint, value)] *)
Definition insert_hint (fuel : nat) (t : btree) (hint : iterator) (v : T)
  : outcome (btree * iterator) :=
  emplace_hint fuel t hint v.

(** The loop [while (node->positive)] of [begin()]. *)
Fixpoint begin_loop (fuel : nat) (nodes : list bnode) (node : pointer) (code : bvec)
  : outcome (pointer * bvec) :=
  match node with
  | None => Undefined
  | Some a =>
      match nodes !! a with
      | None => Undefined
      | Some n =>
          match positive n with
          | None => Returns (node, code)
          | Some _ =>
              match fuel with
              | O => OutOfFuel
              | S k =>
                  match push_back junk code true with
                  | Some code' => begin_loop k nodes (positive n) code'
                  | None => Undefined
                  end
              end
          end
      end
  end.

(** [begin()] *)
Definition begin (fuel : nat) (t : btree) : outcome iterator :=
  match begin_loop fuel (m_nodes t) (m_root t) empty_bvec with
  | Returns (node, code) => make_iterator node code false
  | Undefined => Undefined
  | OutOfFuel => OutOfFuel
  end.

(** The loop [while (node->negative)] of [end()]. *)
Fixpoint end_loop (fuel : nat) (nodes : list bnode) (node : pointer) (code : bvec)
  : outcome (pointer * bvec) :=
  match node with
  | None => Undefined
  | Some a =>
      match nodes !! a with
      | None => Undefined
      | Some n =>
          match negative n with
          | None => Returns (node, code)
          | Some _ =>
              match fuel with
              | O => OutOfFuel
              | S k =>
                  match push_back junk code false with
                  | Some code' => end_loop k nodes (negative n) code'
                  | None => Undefined
                  end
              end
          end
      end
  end.

(** [end()] *)
Definition end_ (fuel : nat) (t : btree) : outcome iterator :=
  match end_loop fuel (m_nodes t) (m_root t) empty_bvec with
  | Returns (node, code) => make_iterator node code true
  | Undefined => Undefined
  | OutOfFuel => OutOfFuel
  end.

(** The loop [while (m_node->prev<Forward>())] of [iterator::advance]. *)
Fixpoint descend (fuel : nat) (Forward : bool) (nodes : list bnode)
    (m_node : pointer) (m_code : bvec) : outcome (pointer * bvec) :=
  match m_node with
  | None => Undefined
  | Some a =>
      match nodes !! a with
      | None => Undefined
      | Some n =>
          match prev Forward n with
          | None => Returns (m_node, m_code)
          | Some _ =>
              match fuel with
              | O => OutOfFuel
              | S k =>
                  match push_back junk m_code Forward with
                  | Some code' => descend k Forward nodes (prev Forward n) code'
                  | None => Undefined
                  end
              end
          end
      end
  end.

(** The loop [while (next->parent && *iter != Forward)] of
    [iterator::advance]; [iter] is the [m_pos] of the reverse iterator into
    the code, which [++iter] decrements. *)
Fixpoint climb (fuel : nat) (Forward : bool) (nodes : list bnode) (m_code : bvec)
    (next : pointer) (iter : Z) : outcome (pointer * Z) :=
  match next with
  | None => Undefined
  | Some a =>
      match nodes !! a with
      | None => Undefined
      | Some n =>
          match parent n with
          | None => Returns (next, iter)
          | Some _ =>
              match get_at m_code (wrap 64 iter) with
              | None => Undefined
              | Some b =>
                  if negb (Bool.eqb b Forward) then
                    match fuel with
                    | O => OutOfFuel
                    | S k => climb k Forward nodes m_code (parent n) (iter - 1)
                    end
                  else Returns (next, iter)
              end
          end
      end
  end.

(** [iterator::advance<Forward>()] on an iterator into the tree with the
    node store [nodes]. *)
Definition advance (fuel : nat) (Forward : bool) (nodes : list bnode) (it : iterator)
  : outcome iterator :=
  if m_isEnd it then
    if negb Forward then
      match m_node it with
      | None => Undefined
      | Some a =>
          match nodes !! a with
          | None => Undefined
          | Some n =>
              match parent n with
              | Some _ => Returns (mk_iterator (parent n) (m_code it) (m_isEnd it))
              | None => Returns (mk_iterator (m_node it) (m_code it) false)
              end
          end
      end
    else Returns it
  else
    match m_node it with
    | None => Undefined
    | Some a =>
        match nodes !! a with
        | None => Undefined
        | Some n =>
            match next Forward n with
            | Some _ =>
                match push_back junk (m_code it) (negb Forward) with
                | None => Undefined
                | Some code =>
                    match descend fuel Forward nodes (next Forward n) code with
                    | Returns (node, code') => Returns (mk_iterator node code' false)
                    | Undefined => Undefined
                    | OutOfFuel => OutOfFuel
                    end
                end
            | None =>
                match parent n with
                | Some _ =>
                    match climb fuel Forward nodes (m_code it) (m_node it)
                                (to_int (size (m_code it)) - 1) with
                    | Returns (Some b, iter) =>
                        match nodes !! b with
                        | None => Undefined
                        | Some nn =>
                            match parent nn with
                            | Some _ =>
                                match erase_range (m_code it) iter (cend (m_code it)) with
                                | Some code => Returns (mk_iterator (parent nn) code false)
                                | None => Undefined
                                end
                            | None => Returns (mk_iterator (m_node it) (m_code it) true)
                            end
                        end
                    | Returns (None, _) => Undefined
                    | Undefined => Undefined
                    | OutOfFuel => OutOfFuel
                    end
                | None => Returns (mk_iterator (m_node it) (m_code it) true)
                end
            end
        end
    end.

(** [operator++] and [operator--] of the iterator. *)
Definition increment (fuel : nat) (nodes : list bnode) (it : iterator)
  : outcome iterator := advance fuel true nodes it.

Definition decrement (fuel : nat) (nodes : list bnode) (it : iterator)
  : outcome iterator := advance fuel false nodes it.

(** [operator*] of the iterator. *)
Definition deref (nodes : list bnode) (it : iterator) : option T :=
  a ← m_node it; n ← nodes !! a; Some (value n).

(** ** Abstract view of a tree

    The definitions below do not come from the header.  A [shape] is the
    tree a node store holds, with the address of every node. *)

Inductive shape : Type :=
| Leaf
| Node (a : nat) (l : shape) (x : T) (r : shape).

(** The values in order: the positive subtree, the node, the negative one. *)
Fixpoint elements (s : shape) : list T :=
  match s with
  | Leaf => []
  | Node _ l x r => elements l ++ x :: elements r
  end.

Fixpoint addresses (s : shape) : list nat :=
  match s with
  | Leaf => []
  | Node a l _ r => addresses l ++ a :: addresses r
  end.

Fixpoint height (s : shape) : nat :=
  match s with
  | Leaf => 0
  | Node _ l _ r => S (Nat.max (height l) (height r))
  end.

(** The pointer [p] of a node or of the tree, whose owner is [par], leads
    to the nodes of [s], linked as [s] says. *)
Fixpoint represents (nodes : list bnode) (par p : pointer) (s : shape) : Prop :=
  match s with
  | Leaf => p = None
  | Node a l x r =>
      p = Some a
      /\ exists n, nodes !! a = Some n
           /\ parent n = par /\ value n = x
           /\ represents nodes (Some a) (positive n) l
           /\ represents nodes (Some a) (negative n) r
  end.

Definition tree_of (t : btree) (s : shape) : Prop :=
  represents (m_nodes t) None (m_root t) s /\ NoDup (addresses s).

(** Smaller values are on the positive side of every node. *)
Fixpoint ordered (s : shape) : Prop :=
  match s with
  | Leaf => True
  | Node _ l x r =>
      Forall (fun y => m_comparator y x = true) (elements l)
      /\ Forall (fun y => m_comparator y x = false) (elements r)
      /\ ordered l /\ ordered r
  end.

(** What a path of child choices leads to, and the address of its node. *)
Fixpoint subtree (s : shape) (path : list bool) {struct path} : shape :=
  match path with
  | [] => s
  | which :: rest =>
      match s with
      | Leaf => Leaf
      | Node _ l _ r => subtree (if which then l else r) rest
      end
  end.

Definition root_of (s : shape) : pointer :=
  match s with
  | Leaf => None
  | Node a _ _ _ => Some a
  end.

Definition node_at (s : shape) (path : list bool) : pointer :=
  root_of (subtree s path).

(** The shape with [s1] in the place a path leads to. *)
Fixpoint graft (s : shape) (path : list bool) (s1 : shape) {struct path} : shape :=
  match path with
  | [] => s1
  | which :: rest =>
      match s with
      | Leaf => Leaf
      | Node a l x r =>
          if which then Node a (graft l rest s1) x r
          else Node a l x (graft r rest s1)
      end
  end.

(** The addresses in the order in which going forward, or going backward,
    meets them. *)
Definition walk (Forward : bool) (s : shape) : list nat :=
  if Forward then addresses s else rev (addresses s).

(** The addresses met after the node a path leads to, nearest first. *)
Fixpoint beyond (Forward : bool) (s : shape) (path : list bool) : list nat :=
  match s with
  | Leaf => []
  | Node a l _ r =>
      let near := if Forward then l else r in
      let far := if Forward then r else l in
      match path with
      | [] => walk Forward far
      | which :: rest =>
          if Bool.eqb which Forward
          then beyond Forward near rest ++ a :: walk Forward far
          else beyond Forward far rest
      end
  end.

(** An iterator that is not at the end is at the node its code leads to. *)
Definition points_to (s : shape) (it : iterator) (a : nat) : Prop :=
  m_isEnd it = false /\ m_node it = Some a
  /\ well_formed (m_code it) = true /\ is_heap (m_code it) = false
  /\ node_at s (contents (m_code it)) = Some a.

(** The comparisons [emplace] makes on the way down. *)
Fixpoint insert_path (s : shape) (v : T) : list bool :=
  match s with
  | Leaf => []
  | Node _ l x r =>
      if m_comparator v x then true :: insert_path l v else false :: insert_path r v
  end.

(** The shape with a node at address [a] for [v] where that way ends. *)
Fixpoint inserted (a : nat) (s : shape) (v : T) : shape :=
  match s with
  | Leaf => Node a Leaf v Leaf
  | Node b l x r =>
      if m_comparator v x then Node b (inserted a l v) x r
      else Node b l x (inserted a r v)
  end.

(** The slot and the parent the loop of [emplace] ends with, started at
    the slot [node] above [s] with the parent [par]. *)
Fixpoint last_slot (node : slot) (s : shape) (v : T) : slot :=
  match s with
  | Leaf => node
  | Node a l x r =>
      if m_comparator v x then last_slot (positive_slot a) l v
      else last_slot (negative_slot a) r v
  end.

Fixpoint last_parent (par : pointer) (s : shape) (v : T) : pointer :=
  match s with
  | Leaf => par
  | Node a l x r =>
      if m_comparator v x then last_parent (Some a) l v
      else last_parent (Some a) r v
  end.

End Definitions.
End btree.

(** * Example vectors *)

(** The inline vector [{0,1,1,0,1}] and the same vector after
    [reserve(121)] moved it to the heap. *)
Definition five_bits_inline : bvec := Stack (mk_stack 5 22).
Definition five_bits_heap : bvec := Heap (mk_heap 5 2 [22; 0]).

(** [bvec(121, false)] *)
Definition zeros_121 : bvec := Heap (mk_heap 121 2 [0; 0]).

(** [bvec(121, false)] after [at(1) = true] *)
Definition one_bit_121 : bvec := Heap (mk_heap 121 2 [2; 0]).

(** The inline vector [{1,0}], built by [push_back(true); push_back(false)]. *)
Definition one_zero : bvec := Stack (mk_stack 2 1).

(** [bvec(128, false)] after [at(64) = true] *)
Definition bit64_of_128 : bvec := Heap (mk_heap 128 2 [0; 1]).

(** [bvec(40, true)] *)
Definition ones_40 : bvec := Stack (mk_stack 40 (2 ^ 120 - 1)).

(** * Example tree *)

(** The [btree<int>] after [insert(5); insert(3); insert(8)], and the tree
    its nodes form. *)
Definition three_nodes : @btree.btree Z :=
  btree.mk_btree
    [btree.mk_bnode None (Some 1%nat) (Some 2%nat) 5;
     btree.mk_bnode (Some 0%nat) None None 3;
     btree.mk_bnode (Some 0%nat) None None 8]
    (Some 0%nat).

Definition three_nodes_shape : @btree.shape Z :=
  btree.Node 0 (btree.Node 1 btree.Leaf 3 btree.Leaf) 5
             (btree.Node 2 btree.Leaf 8 btree.Leaf).

(** The iterator [begin()] returns on that tree. *)
Definition three_nodes_begin : btree.iterator :=
  btree.mk_iterator (Some 1%nat) (Stack (mk_stack 1 1)) false.

(** An iterator at the root of that tree. *)
Definition three_nodes_root : btree.iterator :=
  btree.mk_iterator (Some 0%nat) empty_bvec false.

(** * Properties *)

(** Turns boolean range tests in the hypotheses into arithmetic facts. *)
Ltac bool_arith :=
  repeat match goal with
  | H : (_ && _) = true |- _ => apply andb_true_iff in H; destruct H
  | H : (_ && _) = false |- _ => apply andb_false_iff in H; destruct H
  | H : (_ <=? _)%nat = true |- _ => apply Nat.leb_le in H
  | H : (_ <=? _)%nat = false |- _ => apply Nat.leb_gt in H
  | H : (_ <? _)%nat = true |- _ => apply Nat.ltb_lt in H
  | H : (_ <? _)%nat = false |- _ => apply Nat.ltb_ge in H
  | H : (_ <=? _) = true |- _ => apply Z.leb_le in H
  | H : (_ <=? _) = false |- _ => apply Z.leb_gt in H
  | H : (_ <? _) = true |- _ => apply Z.ltb_lt in H
  | H : (_ <? _) = false |- _ => apply Z.ltb_ge in H
  | H : (_ =? _) = true |- _ => apply Z.eqb_eq in H
  | H : (_ =? _) = false |- _ => apply Z.eqb_neq in H
  end.

(** ** Bits of machine words *)

Lemma pow2_64 : 2 ^ 64 = 18446744073709551616.
Proof. reflexivity. Qed.

Lemma land_pow2_testbit (x k : Z) :
  0 <= k -> to_bool (Z.land x (2 ^ k)) = Z.testbit x k.
Proof.
  intros Hk. unfold to_bool.
  destruct (Z.testbit x k) eqn:E.
  - assert (H : Z.land x (2 ^ k) = 2 ^ k).
    { apply Z.bits_inj'. intros i Hi.
      rewrite Z.land_spec, Z.pow2_bits_eqb by lia.
      destruct (Z.eqb_spec k i); subst; rewrite ?E; auto using andb_false_r. }
    rewrite H. destruct (Z.eqb_spec (2 ^ k) 0); auto.
    pose proof (Z.pow_pos_nonneg 2 k). lia.
  - assert (H : Z.land x (2 ^ k) = 0).
    { apply Z.bits_inj'. intros i Hi.
      rewrite Z.land_spec, Z.pow2_bits_eqb, Z.bits_0 by lia.
      destruct (Z.eqb_spec k i); subst; rewrite ?E; auto using andb_false_r. }
    rewrite H. reflexivity.
Qed.

Lemma shl_one (w k : Z) : 0 <= k < w -> shl w 1 k = Some (2 ^ k).
Proof.
  intros Hk. unfold shl, wrap.
  destruct (Z.leb_spec 0 k); try lia. destruct (Z.ltb_spec k w); try lia.
  simpl. rewrite Z.shiftl_1_l, Z.mod_small; auto.
  split; [apply Z.pow_nonneg; lia | apply Z.pow_lt_mono_r; lia].
Qed.

Lemma bnot_testbit (w x k : Z) :
  0 <= k < w -> Z.testbit (bnot w x) k = negb (Z.testbit x k).
Proof.
  intros Hk. unfold bnot, wrap.
  rewrite Z.mod_pow2_bits_low, Z.lnot_spec by lia. reflexivity.
Qed.

Lemma wrap_testbit_low (w x k : Z) :
  0 <= k < w -> Z.testbit (wrap w x) k = Z.testbit x k.
Proof. intros Hk. unfold wrap. apply Z.mod_pow2_bits_low; lia. Qed.

Lemma wrap_testbit_high (w x k : Z) :
  0 <= w <= k -> Z.testbit (wrap w x) k = false.
Proof. intros Hk. unfold wrap. apply Z.mod_pow2_bits_high; lia. Qed.

Lemma wrap_range (w x : Z) : 0 <= w -> 0 <= wrap w x < 2 ^ w.
Proof. intros Hw. unfold wrap. apply Z.mod_pos_bound, Z.pow_pos_nonneg; lia. Qed.

Lemma wrap_small (w x : Z) : 0 <= x < 2 ^ w -> wrap w x = x.
Proof. intros H. unfold wrap. apply Z.mod_small; assumption. Qed.

Lemma word_ok_range (w : Z) : word_ok w = true <-> 0 <= w < 2 ^ 64.
Proof. unfold word_ok. rewrite andb_true_iff, Z.leb_le, Z.ltb_lt. tauto. Qed.

Lemma testbit_high_range (w x k : Z) :
  0 <= x < 2 ^ w -> 0 <= w <= k -> Z.testbit x k = false.
Proof.
  intros Hx Hk. rewrite <- (wrap_small w x Hx). apply wrap_testbit_high; lia.
Qed.

Lemma bnot_involutive (w x : Z) : 0 <= w -> 0 <= x < 2 ^ w -> bnot w (bnot w x) = x.
Proof.
  intros Hw Hx. apply Z.bits_inj'. intros i Hi.
  destruct (Z.lt_ge_cases i w).
  - rewrite !bnot_testbit by lia. apply negb_involutive.
  - unfold bnot at 1. rewrite wrap_testbit_high by lia.
    symmetry. apply (testbit_high_range w); auto; lia.
Qed.

Lemma block_round_small (x : Z) :
  0 <= x < 2 ^ 35 -> block_round x = (x + 63) / 64.
Proof.
  intros Hx. unfold block_round, block_digits.
  rewrite wrap_small; [reflexivity|]. rewrite pow2_64.
  assert (2 ^ 35 = 34359738368) by reflexivity. lia.
Qed.

(** ** Reading the storage *)

Lemma load_nth (p : list Z) (i : Z) :
  0 <= i < Z.of_nat (length p) -> load p i = Some (nth (Z.to_nat i) p 0).
Proof.
  intros Hi. unfold load. destruct (Z.ltb_spec i 0); try lia.
  destruct (lookup_lt_is_Some_2 p (Z.to_nat i)) as [x Hx]; [lia|].
  rewrite Hx. f_equal. symmetry. apply nth_lookup_Some. exact Hx.
Qed.

Lemma well_formed_stack (s : stack_type) :
  well_formed (Stack s) = true ->
  0 <= stack_size s <= 120 /\ 0 <= stack_data s < 2 ^ 120.
Proof.
  unfold well_formed, stack_capacity.
  rewrite !andb_true_iff, !Z.leb_le, Z.ltb_lt. lia.
Qed.

Lemma well_formed_heap (h : heap_type) :
  well_formed (Heap h) = true ->
  0 <= heap_size h < 2 ^ 35
  /\ heap_capacity h = Z.of_nat (length (heap_pointer h))
  /\ heap_size h <= 64 * Z.of_nat (length (heap_pointer h))
  /\ block_round (heap_size h) <= Z.of_nat (length (heap_pointer h))
  /\ block_round (heap_size h) < 2 ^ 32
  /\ Forall (fun w => 0 <= w < 2 ^ 64) (heap_pointer h).
Proof.
  unfold well_formed, block_digits.
  rewrite !andb_true_iff, !Z.leb_le, !Z.ltb_lt, Z.eqb_eq, forallb_forall.
  intros [[[[[H0 H1] H2] H3] H4] H5].
  assert (E35 : 2 ^ 35 = 34359738368) by reflexivity.
  assert (E32 : 2 ^ 32 = 4294967296) by reflexivity.
  rewrite block_round_small by lia.
  repeat split; try lia.
  - apply Z.lt_succ_r, Z.div_lt_upper_bound; lia.
  - apply Z.div_lt_upper_bound; lia.
  - apply List.Forall_forall. intros w Hw. apply word_ok_range, H5, Hw.
Qed.

Lemma get_at_bit (c : bvec) (pos : Z) :
  well_formed c = true -> 0 <= pos < size c -> get_at c pos = Some (bit c pos).
Proof.
  intros Hwf Hpos. destruct c as [s|h]; simpl in *.
  - apply well_formed_stack in Hwf. rewrite shl_one by lia. simpl.
    rewrite land_pow2_testbit by lia. reflexivity.
  - apply well_formed_heap in Hwf. destruct Hwf as (_ & _ & Hlen & _).
    unfold block_digits.
    assert (0 <= pos / 64 < Z.of_nat (length (heap_pointer h))).
    { split; [apply Z.div_pos; lia | apply Z.div_lt_upper_bound; lia]. }
    pose proof (Z.mod_pos_bound pos 64 ltac:(lia)).
    rewrite load_nth by assumption. simpl.
    rewrite shl_one by lia. simpl.
    rewrite land_pow2_testbit by lia. reflexivity.
Qed.

(** ** flip *)

Lemma flip_body_insert (p : list Z) (i : nat) (w : Z) :
  p !! i = Some w ->
  flip_body (Z.of_nat i) p = Some (<[i := bnot 64 w]> p).
Proof.
  intros Hw. unfold flip_body, load, store.
  destruct (Z.ltb_spec (Z.of_nat i) 0); try lia.
  rewrite Nat2Z.id, Hw. simpl.
  apply lookup_lt_Some in Hw.
  destruct (Z.leb_spec 0 (Z.of_nat i)); try lia.
  destruct (Z.ltb_spec (Z.of_nat i) (Z.of_nat (length p))); try lia.
  reflexivity.
Qed.

(** The loop of [flip] complements the words [i .. i+n) and no other. *)
Lemma flip_loop (n : nat) : forall (i : nat) (p : list Z),
  (i + n <= length p)%nat ->
  exists q, for_loop n (Z.of_nat i) flip_body p = Some q
    /\ length q = length p
    /\ forall j, q !! j =
         if (i <=? j)%nat && (j <? i + n)%nat then bnot 64 <$> p !! j else p !! j.
Proof.
  induction n as [|n IH]; intros i p Hlen.
  - exists p. repeat split; auto. intros j.
    destruct (Nat.leb_spec i j), (Nat.ltb_spec j (i + 0)); simpl; auto; lia.
  - destruct (lookup_lt_is_Some_2 p i) as [w Hw]; [lia|].
    simpl. rewrite (flip_body_insert p i w Hw). simpl.
    replace (Z.of_nat i + 1) with (Z.of_nat (S i)) by lia.
    destruct (IH (S i) (<[i := bnot 64 w]> p)) as (q & Hq & Hlq & Hbits).
    { rewrite length_insert. lia. }
    exists q. rewrite Hq, Hlq, length_insert. repeat split; auto.
    intros j. rewrite Hbits.
    destruct (Nat.eq_dec i j) as [->|Hne].
    + rewrite list_lookup_insert_eq by lia. rewrite Hw.
      destruct ((S j <=? j)%nat && (j <? S j + n)%nat) eqn:E1;
        destruct ((j <=? j)%nat && (j <? j + S n)%nat) eqn:E2;
        bool_arith; try reflexivity; lia.
    + rewrite list_lookup_insert_ne by auto.
      destruct ((S i <=? j)%nat && (j <? S i + n)%nat) eqn:E1;
        destruct ((i <=? j)%nat && (j <? i + S n)%nat) eqn:E2;
        bool_arith; try reflexivity; lia.
Qed.

Lemma bit_heap_lookup (h : heap_type) (pos w : Z) :
  0 <= pos -> heap_pointer h !! Z.to_nat (pos / 64) = Some w ->
  bit (Heap h) pos = Z.testbit w (pos mod 64).
Proof.
  intros Hpos Hw. simpl. rewrite (nth_lookup_Some _ _ 0 w Hw). reflexivity.
Qed.

Lemma flip_defined (c : bvec) :
  well_formed c = true ->
  exists c', flip c = Some c' /\ size c' = size c /\ is_heap c' = is_heap c
    /\ well_formed c' = true
    /\ (forall pos, 0 <= pos < size c -> bit c' pos = negb (bit c pos))
    /\ flip c' = Some c.
Proof.
  intros Hwf. destruct c as [s|h].
  - pose proof (well_formed_stack s Hwf) as [Hs Hd].
    eexists. split; [reflexivity|]. simpl.
    assert (Hr : 0 <= wrap 120 (bnot 128 (stack_data s)) < 2 ^ 120)
      by (apply wrap_range; lia).
    repeat split.
    + unfold stack_capacity. rewrite !andb_true_iff, !Z.leb_le, Z.ltb_lt. lia.
    + intros pos Hpos. rewrite wrap_testbit_low, bnot_testbit by lia. reflexivity.
    + destruct s as [sz d]. simpl in *. do 3 f_equal.
      apply Z.bits_inj'. intros i Hi.
      destruct (Z.lt_ge_cases i 120).
      * rewrite wrap_testbit_low, bnot_testbit, wrap_testbit_low, bnot_testbit by lia.
        apply negb_involutive.
      * rewrite wrap_testbit_high by lia. symmetry.
        apply (testbit_high_range 120); auto; lia.
  - pose proof (well_formed_heap h Hwf) as (Hs & Hcap & Hlen & Hround & H32 & Hall).
    assert (Hnn : 0 <= block_round (heap_size h)).
    { rewrite block_round_small by lia. apply Z.div_pos; lia. }
    destruct (flip_loop (Z.to_nat (block_round (heap_size h))) 0 (heap_pointer h))
      as (q & Hq & Hlq & Hbits); [lia|].
    assert (Hflip : flip (Heap h) =
                    Some (Heap (mk_heap (heap_size h) (heap_capacity h) q))).
    { unfold flip, for_unsigned.
      destruct (Z.ltb_spec (block_round (heap_size h)) (2 ^ 32)); try lia.
      change (Z.of_nat 0) with 0 in Hq. rewrite Hq. reflexivity. }
    exists (Heap (mk_heap (heap_size h) (heap_capacity h) q)).
    split; [exact Hflip|]. simpl size. simpl is_heap.
    assert (Hallq : Forall (fun w => 0 <= w < 2 ^ 64) q).
    { apply Forall_lookup_2. intros j w Hj. rewrite Hbits in Hj.
      destruct ((0 <=? j)%nat && (j <? 0 + Z.to_nat (block_round (heap_size h)))%nat).
      - destruct (heap_pointer h !! j) as [w0|]; simpl in Hj; inversion Hj.
        apply wrap_range; lia.
      - eapply (Forall_lookup_1 _ _ _ _ Hall Hj). }
    repeat split; auto.
    + unfold well_formed in *. simpl in *. rewrite Hlq.
      rewrite !andb_true_iff in *. repeat split; try tauto.
      apply forallb_forall. intros w Hw. apply word_ok_range.
      rewrite List.Forall_forall in Hallq. apply Hallq, Hw.
    + intros pos Hpos.
      assert (Hj : (Z.to_nat (pos / 64) < Z.to_nat (block_round (heap_size h)))%nat).
      { rewrite block_round_small by lia. apply Z2Nat.inj_lt.
        - apply Z.div_pos; lia.
        - apply Z.div_pos; lia.
        - apply Z.div_lt_upper_bound; try lia.
          pose proof (Z.div_mod (heap_size h + 63) 64 ltac:(lia)).
          pose proof (Z.mod_pos_bound (heap_size h + 63) 64 ltac:(lia)). lia. }
      destruct (lookup_lt_is_Some_2 (heap_pointer h) (Z.to_nat (pos / 64)))
        as [w Hw]; [lia|].
      pose proof (Z.mod_pos_bound pos 64 ltac:(lia)).
      rewrite (bit_heap_lookup h pos w) by (auto; lia).
      rewrite (bit_heap_lookup _ pos (bnot 64 w)); [apply bnot_testbit; lia|lia|].
      simpl. rewrite Hbits, Hw.
      destruct (Nat.leb_spec 0 (Z.to_nat (pos / 64))),
        (Nat.ltb_spec (Z.to_nat (pos / 64)) (0 + Z.to_nat (block_round (heap_size h))));
        simpl; auto; lia.
    + destruct (flip_loop (Z.to_nat (block_round (heap_size h))) 0 q)
        as (q' & Hq' & Hlq' & Hbits'); [lia|].
      unfold flip, for_unsigned. cbn [heap_size heap_pointer heap_capacity].
      destruct (Z.ltb_spec (block_round (heap_size h)) (2 ^ 32)); try lia.
      change (Z.of_nat 0) with 0 in Hq'. rewrite Hq'.
      destruct h as [sz cap p]. cbn [heap_size heap_pointer heap_capacity] in *.
      cbn [mbind option_bind]. do 3 f_equal.
      apply list_eq. intros j. rewrite Hbits', Hbits.
      destruct ((0 <=? j)%nat && (j <? 0 + Z.to_nat (block_round sz))%nat); auto.
      destruct (p !! j) as [w|] eqn:E; simpl; auto.
      f_equal. apply bnot_involutive; [lia|].
      apply (Forall_lookup_1 _ _ _ _ Hall E).
Qed.

(** C10: one [flip()] keeps the size and complements every bit of
    [[0, size)], on the inline and on the heap representation; a second
    [flip()] restores the size and every bit of [[0, size)]. *)
Theorem flip_complements_and_is_involutive (c : bvec) :
  well_formed c = true ->
  exists c', flip c = Some c' /\ size c' = size c
    /\ (forall pos, 0 <= pos < size c ->
          exists b, get_at c pos = Some b /\ get_at c' pos = Some (negb b))
    /\ exists c'', flip c' = Some c'' /\ size c'' = size c
         /\ forall pos, 0 <= pos < size c -> get_at c'' pos = get_at c pos.
Proof.
  intros Hwf.
  destruct (flip_defined c Hwf) as (c' & Hf & Hsz & _ & Hwf' & Hbits & Hback).
  exists c'. repeat split; auto.
  - intros pos Hpos. exists (bit c pos). split.
    + apply get_at_bit; auto.
    + rewrite <- Hbits by assumption. apply get_at_bit; auto. lia.
  - exists c. repeat split; auto.
Qed.

Lemma flip_complements_and_is_involutive_witness :
  exists c', flip (Heap (mk_heap 70 2 [5; 9])) = Some c'
    /\ size c' = size (Heap (mk_heap 70 2 [5; 9]))
    /\ (forall pos, 0 <= pos < size (Heap (mk_heap 70 2 [5; 9])) ->
          exists b, get_at (Heap (mk_heap 70 2 [5; 9])) pos = Some b
                    /\ get_at c' pos = Some (negb b))
    /\ exists c'', flip c' = Some c'' /\ size c'' = size (Heap (mk_heap 70 2 [5; 9]))
         /\ forall pos, 0 <= pos < size (Heap (mk_heap 70 2 [5; 9])) ->
              get_at c'' pos = get_at (Heap (mk_heap 70 2 [5; 9])) pos.
Proof.
  apply (flip_complements_and_is_involutive (Heap (mk_heap 70 2 [5; 9]))).
  reflexivity.
Defined.

(** ** Ordering *)

Lemma seq_snoc (lo n : nat) : seq lo (S n) = seq lo n ++ [(lo + n)%nat].
Proof. apply seq_S. Qed.

Lemma extra_bits_zero_S (c : bvec) (lo n : nat) :
  extra_bits_zero c lo (S n)
  = extra_bits_zero c lo n && negb (bit c (Z.of_nat (lo + n))).
Proof.
  unfold extra_bits_zero. rewrite seq_snoc, forallb_app. simpl.
  rewrite andb_true_r. reflexivity.
Qed.

Lemma scan_extra_spec (c : bvec) (n : nat) : forall sz : nat,
  well_formed c = true -> (n <= sz)%nat -> Z.of_nat sz <= size c ->
  scan_extra c n (Z.of_nat sz) = Some (negb (extra_bits_zero c (sz - n) n)).
Proof.
  induction n as [|n IH]; intros sz Hwf Hn Hsz.
  - reflexivity.
  - cbn [scan_extra].
    replace (Z.of_nat sz - 1) with (Z.of_nat (sz - 1)) by lia.
    rewrite get_at_bit by (auto; lia). cbn [mbind option_bind].
    rewrite extra_bits_zero_S.
    replace (sz - S n + n)%nat with (sz - 1)%nat by lia.
    destruct (bit c (Z.of_nat (sz - 1))).
    + rewrite andb_false_r. reflexivity.
    + rewrite IH by (auto; lia). rewrite andb_true_r.
      replace (sz - 1 - n)%nat with (sz - S n)%nat by lia. reflexivity.
Qed.

Lemma scan_shared_spec (a b : bvec) (n : nat) :
  well_formed a = true -> well_formed b = true ->
  Z.of_nat n <= size a -> Z.of_nat n <= size b ->
  scan_shared a b n (Z.of_nat n) = Some (first_difference a b n).
Proof.
  intros Ha Hb. induction n as [|n IH]; intros Hna Hnb.
  - reflexivity.
  - cbn [scan_shared first_difference].
    replace (Z.of_nat (S n) - 1) with (Z.of_nat n) by lia.
    rewrite !get_at_bit by (auto; lia). cbn [mbind option_bind].
    destruct (bit a (Z.of_nat n)), (bit b (Z.of_nat n)); simpl; auto;
      apply IH; lia.
Qed.

Lemma spaceship_follows_rule (a b : bvec) :
  well_formed a = true -> well_formed b = true ->
  spaceship a b = Some (order_by_rule a b).
Proof.
  intros Ha Hb.
  assert (Hsa : 0 <= size a).
  { destruct a; [apply well_formed_stack in Ha | apply well_formed_heap in Ha];
      simpl; lia. }
  assert (Hsb : 0 <= size b).
  { destruct b; [apply well_formed_stack in Hb | apply well_formed_heap in Hb];
      simpl; lia. }
  unfold spaceship, order_by_rule.
  set (na := Z.to_nat (size a)). set (nb := Z.to_nat (size b)).
  assert (Ea : size a = Z.of_nat na) by (unfold na; lia).
  assert (Eb : size b = Z.of_nat nb) by (unfold nb; lia).
  rewrite Ea, Eb.
  replace (Z.to_nat (Z.of_nat na - Z.of_nat nb)) with (na - nb)%nat by lia.
  rewrite (scan_extra_spec a (na - nb) na) by (auto; lia).
  cbn [mbind option_bind].
  destruct (Nat.ltb_spec nb na) as [Hlt|Hge].
  - replace (na - (na - nb))%nat with nb by lia.
    destruct (extra_bits_zero a nb (na - nb)); cbn [negb]; [|reflexivity].
    rewrite Z.min_r by lia.
    replace (Z.to_nat (Z.of_nat nb - Z.of_nat nb)) with 0%nat by lia.
    cbn [scan_extra mbind option_bind]. rewrite Nat2Z.id.
    apply scan_shared_spec; auto; lia.
  - replace (na - nb)%nat with 0%nat by lia.
    cbn [extra_bits_zero seq forallb negb].
    rewrite Z.min_l by lia.
    replace (Z.to_nat (Z.of_nat nb - Z.of_nat na)) with (nb - na)%nat by lia.
    rewrite (scan_extra_spec b (nb - na) nb) by (auto; lia).
    cbn [mbind option_bind]. rewrite Nat2Z.id.
    destruct (Nat.ltb_spec na nb) as [Hlt|Hge'].
    + replace (nb - (nb - na))%nat with na by lia.
      destruct (extra_bits_zero b na (nb - na)); cbn [negb]; [|reflexivity].
      apply scan_shared_spec; auto; lia.
    + replace (nb - na)%nat with 0%nat by lia.
      cbn [extra_bits_zero seq forallb negb].
      apply scan_shared_spec; auto; lia.
Qed.

Lemma number_snoc (l : list bool) (b : bool) :
  number (l ++ [b]) = number l + Z.b2z b * 2 ^ Z.of_nat (length l).
Proof.
  induction l as [|x l IH].
  - simpl. lia.
  - cbn [app number length]. rewrite IH, Nat2Z.inj_succ, Z.pow_succ_r by lia. lia.
Qed.

Lemma prefix_number_S (c : bvec) (n : nat) :
  prefix_number c (S n)
  = prefix_number c n + Z.b2z (bit c (Z.of_nat n)) * 2 ^ Z.of_nat n.
Proof.
  unfold prefix_number. rewrite seq_snoc, map_app. cbn [map].
  rewrite number_snoc, length_map, length_seq. reflexivity.
Qed.

Lemma prefix_number_range (c : bvec) (n : nat) :
  0 <= prefix_number c n < 2 ^ Z.of_nat n.
Proof.
  induction n as [|n IH].
  - unfold prefix_number. simpl. lia.
  - rewrite prefix_number_S, Nat2Z.inj_succ, Z.pow_succ_r by lia.
    destruct (bit c (Z.of_nat n)); simpl Z.b2z; lia.
Qed.

Lemma compare_add_r (x y d : Z) : (x + d ?= y + d) = (x ?= y).
Proof. rewrite (Z.add_comm x d), (Z.add_comm y d). apply Z.add_compare_mono_l. Qed.

Lemma first_difference_number (a b : bvec) (n : nat) :
  first_difference a b n = ordering_of (prefix_number a n ?= prefix_number b n).
Proof.
  induction n as [|n IH].
  - reflexivity.
  - cbn [first_difference]. rewrite !prefix_number_S.
    pose proof (prefix_number_range a n). pose proof (prefix_number_range b n).
    destruct (bit a (Z.of_nat n)), (bit b (Z.of_nat n)); simpl Z.b2z.
    + rewrite IH, compare_add_r. reflexivity.
    + replace (_ ?= _) with Gt; [reflexivity|]. symmetry. apply Z.compare_gt_iff. lia.
    + replace (_ ?= _) with Lt; [reflexivity|]. symmetry. apply Z.compare_lt_iff. lia.
    + rewrite IH, compare_add_r. reflexivity.
Qed.

Lemma extra_zero_number (c : bvec) (lo n : nat) :
  extra_bits_zero c lo n = true -> prefix_number c (lo + n) = prefix_number c lo.
Proof.
  induction n as [|n IH]; intros H.
  - f_equal. lia.
  - rewrite extra_bits_zero_S in H. apply andb_true_iff in H. destruct H as [H1 H2].
    replace (lo + S n)%nat with (S (lo + n)) by lia.
    rewrite prefix_number_S, IH by assumption.
    destruct (bit c (Z.of_nat (lo + n))); [discriminate|]. simpl Z.b2z. lia.
Qed.

Lemma extra_set_number (c : bvec) (lo n : nat) :
  extra_bits_zero c lo n = false -> 2 ^ Z.of_nat lo <= prefix_number c (lo + n).
Proof.
  induction n as [|n IH]; intros H.
  - discriminate.
  - rewrite extra_bits_zero_S in H.
    replace (lo + S n)%nat with (S (lo + n)) by lia.
    rewrite prefix_number_S.
    pose proof (prefix_number_range c (lo + n)).
    destruct (bit c (Z.of_nat (lo + n))); simpl Z.b2z.
    + assert (2 ^ Z.of_nat lo <= 2 ^ Z.of_nat (lo + n))
        by (apply Z.pow_le_mono_r; lia).
      lia.
    + rewrite andb_true_r in H. specialize (IH H). lia.
Qed.

Lemma order_by_rule_number (a b : bvec) :
  order_by_rule a b = ordering_of (number (contents a) ?= number (contents b)).
Proof.
  unfold order_by_rule, contents.
  set (na := Z.to_nat (size a)). set (nb := Z.to_nat (size b)).
  fold (prefix_number a na). fold (prefix_number b nb).
  destruct (Nat.ltb_spec nb na) as [Hlt|Hge].
  - replace na with (nb + (na - nb))%nat at 2 by lia.
    destruct (extra_bits_zero a nb (na - nb)) eqn:E.
    + rewrite (extra_zero_number _ _ _ E). apply first_difference_number.
    + pose proof (extra_set_number _ _ _ E). pose proof (prefix_number_range b nb).
      replace (_ ?= _) with Gt; [reflexivity|]. symmetry. apply Z.compare_gt_iff. lia.
  - destruct (Nat.ltb_spec na nb) as [Hlt|Hge'].
    + replace nb with (na + (nb - na))%nat at 2 by lia.
      destruct (extra_bits_zero b na (nb - na)) eqn:E.
      * rewrite (extra_zero_number _ _ _ E). apply first_difference_number.
      * pose proof (extra_set_number _ _ _ E). pose proof (prefix_number_range a na).
        replace (_ ?= _) with Lt; [reflexivity|]. symmetry. apply Z.compare_lt_iff. lia.
    + replace nb with na by lia. apply first_difference_number.
Qed.

(** C7: [operator<=>] orders two vectors as unsigned numbers with position
    0 least significant, and does so by the stated rule: with different
    sizes the longer operand is greater unless all its extra high-order bits
    are zero; otherwise the first differing bit, scanning from the highest
    shared position down to 0, decides, and the operands are equivalent when
    no bit differs. *)
Theorem spaceship_orders_as_unsigned_numbers (a b : bvec) :
  well_formed a = true -> well_formed b = true ->
  spaceship a b = Some (order_by_rule a b)
  /\ spaceship a b = Some (ordering_of (number (contents a) ?= number (contents b))).
Proof.
  intros Ha Hb. split.
  - apply spaceship_follows_rule; assumption.
  - rewrite <- order_by_rule_number. apply spaceship_follows_rule; assumption.
Qed.

Lemma spaceship_orders_as_unsigned_numbers_witness :
  spaceship (Stack (mk_stack 3 5)) (Heap (mk_heap 4 2 [13; 0]))
    = Some (order_by_rule (Stack (mk_stack 3 5)) (Heap (mk_heap 4 2 [13; 0])))
  /\ spaceship (Stack (mk_stack 3 5)) (Heap (mk_heap 4 2 [13; 0]))
    = Some (ordering_of (number (contents (Stack (mk_stack 3 5)))
                         ?= number (contents (Heap (mk_heap 4 2 [13; 0]))))).
Proof.
  apply (spaceship_orders_as_unsigned_numbers
           (Stack (mk_stack 3 5)) (Heap (mk_heap 4 2 [13; 0]))); reflexivity.
Defined.

(** ** Hashing *)

Lemma number_testbit (l : list bool) : forall j : nat,
  Z.testbit (number l) (Z.of_nat j) = nth j l false.
Proof.
  induction l as [|b l IH]; intros j.
  - cbn [number]. rewrite Z.bits_0. destruct j; reflexivity.
  - cbn [number]. rewrite (Z.add_comm (Z.b2z b)).
    destruct j as [|j].
    + apply Z.testbit_0_r.
    + rewrite Nat2Z.inj_succ, Z.testbit_succ_r by lia. apply IH.
Qed.

Lemma number_range (l : list bool) : 0 <= number l < 2 ^ Z.of_nat (length l).
Proof.
  induction l as [|b l IH].
  - simpl. lia.
  - cbn [number length]. rewrite Nat2Z.inj_succ, Z.pow_succ_r by lia.
    destruct b; simpl Z.b2z; lia.
Qed.

Lemma word_value_range (c : bvec) (i : nat) : 0 <= word_value c i < 2 ^ 64.
Proof.
  unfold word_value.
  match goal with |- _ <= number ?l < _ => pose proof (number_range l) as H end.
  rewrite length_map, length_seq in H. exact H.
Qed.

Lemma word_value_testbit (c : bvec) (i j : nat) :
  (j < 64)%nat ->
  Z.testbit (word_value c i) (Z.of_nat j)
  = (64 * Z.of_nat i + Z.of_nat j <? size c) && bit c (64 * Z.of_nat i + Z.of_nat j).
Proof.
  intros Hj. unfold word_value. rewrite number_testbit.
  set (f := fun j0 : nat => _).
  rewrite (nth_indep _ false (f 0%nat)) by (rewrite length_map, length_seq; lia).
  rewrite map_nth, seq_nth by assumption. reflexivity.
Qed.

Lemma block_mask_testbit (j : Z) : 0 <= j -> Z.testbit block_mask j = (j <? 64).
Proof.
  intros Hj. change block_mask with (Z.ones 64). apply Z.testbit_ones_nonneg; lia.
Qed.

Lemma size_nonneg (c : bvec) : well_formed c = true -> 0 <= size c.
Proof.
  intros H. destruct c; [apply well_formed_stack in H | apply well_formed_heap in H];
    simpl; lia.
Qed.

Lemma occupied_words_lt (c : bvec) (i : nat) :
  0 <= size c -> (i < occupied_words c)%nat -> 64 * Z.of_nat i < size c.
Proof.
  unfold occupied_words. intros Hs Hi.
  assert (Z.of_nat i < (size c + 63) / 64) by lia.
  pose proof (Z.div_mod (size c + 63) 64 ltac:(lia)).
  pose proof (Z.mod_pos_bound (size c + 63) 64 ltac:(lia)). lia.
Qed.

(** The mask [cast] applies to word [i] keeps exactly the positions below
    [size]. *)
Lemma cast_mask (sz : Z) (i : nat) :
  64 * Z.of_nat i < sz ->
  exists mask,
    (if Z.of_nat i =? sz / 64
     then shr 64 block_mask (wrap 64 (64 - sz mod 64))
     else Some block_mask) = Some mask
    /\ forall j, 0 <= j < 64 ->
         Z.testbit mask j = (64 * Z.of_nat i + j <? sz).
Proof.
  intros Hi.
  pose proof (Z.div_mod sz 64 ltac:(lia)) as Hdm.
  pose proof (Z.mod_pos_bound sz 64 ltac:(lia)) as Hmod.
  destruct (Z.eqb_spec (Z.of_nat i) (sz / 64)) as [E|E].
  - assert (Hb : 0 < sz mod 64) by lia.
    eexists. split.
    + unfold shr. rewrite wrap_small by (rewrite pow2_64; lia).
      destruct (Z.leb_spec 0 (64 - sz mod 64)); try lia.
      destruct (Z.ltb_spec (64 - sz mod 64) 64); try lia. reflexivity.
    + intros j Hj. rewrite Z.shiftr_spec, block_mask_testbit by lia.
      destruct (Z.ltb_spec (j + (64 - sz mod 64)) 64),
        (Z.ltb_spec (64 * Z.of_nat i + j) sz); auto; lia.
  - exists block_mask. split; [reflexivity|].
    intros j Hj. rewrite block_mask_testbit by lia.
    destruct (Z.ltb_spec j 64), (Z.ltb_spec (64 * Z.of_nat i + j) sz); auto; lia.
Qed.

Lemma bit_heap_word (h : heap_type) (i : nat) (j : Z) :
  0 <= j < 64 ->
  bit (Heap h) (64 * Z.of_nat i + j) = Z.testbit (nth i (heap_pointer h) 0) j.
Proof.
  intros Hj. cbn [bit].
  replace ((64 * Z.of_nat i + j) / 64) with (Z.of_nat i)
    by (apply (Z.div_unique_pos _ 64 _ j); lia).
  replace ((64 * Z.of_nat i + j) mod 64) with j
    by (apply (Z.mod_unique_pos _ 64 (Z.of_nat i) j); lia).
  rewrite Nat2Z.id. reflexivity.
Qed.

Lemma cast_word (c : bvec) (i : nat) :
  well_formed c = true -> (i < occupied_words c)%nat ->
  cast 64 c (Z.of_nat i) = Some (word_value c i).
Proof.
  intros Hwf Hi.
  pose proof (size_nonneg c Hwf) as Hs.
  pose proof (occupied_words_lt c i Hs Hi) as Hlt.
  destruct (cast_mask (size c) i Hlt) as (mask & Hmask & Hbits).
  unfold cast. rewrite Hmask. cbn [mbind option_bind].
  assert (Hgoal : forall v,
            (forall j, 0 <= j < 64 ->
               Z.testbit v j = bit c (64 * Z.of_nat i + j)) ->
            wrap 64 (Z.land v mask) = word_value c i).
  { intros v Hv. apply Z.bits_inj'. intros j Hj.
    destruct (Z.lt_ge_cases j 64).
    - rewrite wrap_testbit_low, Z.land_spec, Hv, Hbits by lia.
      replace j with (Z.of_nat (Z.to_nat j)) at 3 by lia.
      rewrite word_value_testbit by lia. rewrite Z2Nat.id by lia.
      apply andb_comm.
    - rewrite wrap_testbit_high by lia. symmetry.
      apply (testbit_high_range 64); [apply word_value_range | lia]. }
  destruct c as [s|h].
  - pose proof (well_formed_stack s Hwf) as [Hsz Hd]. cbn [size] in *.
    assert (Hi2 : Z.of_nat i * 64 < 128) by lia.
    unfold shr. rewrite wrap_small by (rewrite pow2_64; lia).
    destruct (Z.leb_spec 0 (Z.of_nat i * 64)); try lia.
    destruct (Z.ltb_spec (Z.of_nat i * 64) 128); try lia.
    cbn [andb mbind option_bind]. f_equal. apply Hgoal.
    intros j Hj. rewrite Z.shiftr_spec by lia. cbn [bit]. f_equal. lia.
  - pose proof (well_formed_heap h Hwf) as (Hsz & Hcap & Hlen & _ & _ & Hall).
    cbn [size] in *.
    unfold load_as. change (block_digits / 64) with 1.
    rewrite Z.div_1_r, Z.mod_1_r.
    rewrite load_nth by lia. cbn [mbind option_bind].
    rewrite Z.mul_0_r, Z.shiftr_0_r, Nat2Z.id.
    f_equal. apply Hgoal. intros j Hj.
    rewrite wrap_testbit_low by lia. symmetry. apply bit_heap_word. lia.
Qed.

Lemma hash_loop (c : bvec) (n : nat) : forall (i : nat) (r : Z),
  well_formed c = true -> (i + n <= occupied_words c)%nat ->
  for_loop n (Z.of_nat i) (hash_body c) r
  = Some (fold_left hash_step (map (word_value c) (seq i n)) r).
Proof.
  induction n as [|n IH]; intros i r Hwf Hn.
  - reflexivity.
  - cbn [for_loop seq map fold_left].
    assert (Hbody : hash_body c (Z.of_nat i) r
                    = Some (hash_step r (word_value c i))).
    { unfold hash_body. rewrite cast_word by (auto; lia). reflexivity. }
    rewrite Hbody. cbn [mbind option_bind].
    replace (Z.of_nat i + 1) with (Z.of_nat (S i)) by lia.
    rewrite IH by (auto; lia). reflexivity.
Qed.

Lemma hash_follows_rule (c : bvec) :
  well_formed c = true -> hash c = Some (hash_by_rule c).
Proof.
  intros Hwf. pose proof (size_nonneg c Hwf) as Hs.
  assert (Hsz : size c < 2 ^ 35).
  { destruct c; [apply well_formed_stack in Hwf | apply well_formed_heap in Hwf];
      cbn [size]; [|lia].
    assert (2 ^ 35 = 34359738368) by reflexivity. lia. }
  assert (E35 : 2 ^ 35 = 34359738368) by reflexivity.
  assert (E32 : 2 ^ 32 = 4294967296) by reflexivity.
  unfold hash, hash_by_rule, for_unsigned.
  replace (size c + 64 - 1) with (size c + 63) by lia.
  rewrite wrap_small by (rewrite pow2_64; lia).
  assert ((size c + 63) / 64 < 2 ^ 32) by (apply Z.div_lt_upper_bound; lia).
  destruct (Z.ltb_spec ((size c + 63) / 64) (2 ^ 32)); try lia.
  apply (hash_loop c (occupied_words c) 0 (size c) Hwf). lia.
Qed.

(** ** Equality *)

Lemma eq_loop_true (a b : bvec) (n : nat) : forall i : nat,
  well_formed a = true -> well_formed b = true ->
  Z.of_nat (i + n) <= size a -> Z.of_nat (i + n) <= size b ->
  eq_loop a b n (Z.of_nat i) = Some true ->
  forall j, (i <= j < i + n)%nat -> bit a (Z.of_nat j) = bit b (Z.of_nat j).
Proof.
  induction n as [|n IH]; intros i Ha Hb Hna Hnb Heq j Hj.
  - lia.
  - cbn [eq_loop] in Heq.
    rewrite !get_at_bit in Heq by (auto; lia). cbn [mbind option_bind] in Heq.
    destruct (xorb (bit a (Z.of_nat i)) (bit b (Z.of_nat i))) eqn:E; [discriminate|].
    apply xorb_eq in E.
    destruct (Nat.eq_dec i j) as [->|Hne]; [exact E|].
    replace (Z.of_nat i + 1) with (Z.of_nat (S i)) in Heq by lia.
    apply (IH (S i)); auto; lia.
Qed.

Lemma eq_loop_same (a b : bvec) (n : nat) : forall i : nat,
  well_formed a = true -> well_formed b = true ->
  Z.of_nat (i + n) <= size a -> Z.of_nat (i + n) <= size b ->
  (forall j, (i <= j < i + n)%nat -> bit a (Z.of_nat j) = bit b (Z.of_nat j)) ->
  eq_loop a b n (Z.of_nat i) = Some true.
Proof.
  induction n as [|n IH]; intros i Ha Hb Hna Hnb Hbits.
  - reflexivity.
  - cbn [eq_loop]. rewrite !get_at_bit by (auto; lia). cbn [mbind option_bind].
    rewrite (Hbits i) by lia. rewrite xorb_nilpotent.
    replace (Z.of_nat i + 1) with (Z.of_nat (S i)) by lia.
    apply IH; auto; try lia. intros j Hj. apply Hbits. lia.
Qed.

(** What [operator==] returning [true] means: same size, same bit at every
    position. *)
Lemma bvec_eq_true (a b : bvec) :
  well_formed a = true -> well_formed b = true ->
  bvec_eq a b = Some true ->
  size a = size b /\ forall pos, 0 <= pos < size a -> bit a pos = bit b pos.
Proof.
  intros Ha Hb Heq. unfold bvec_eq in Heq.
  pose proof (size_nonneg a Ha) as Hsa.
  destruct (Z.eqb_spec (size a) (size b)) as [Es|]; [|discriminate].
  cbn [negb] in Heq. split; [exact Es|].
  destruct (Z.ltb_spec (size a) (2 ^ 32)).
  - intros pos Hpos.
    replace pos with (Z.of_nat (Z.to_nat pos)) by lia.
    apply (eq_loop_true a b (Z.to_nat (size a)) 0 Ha Hb); try lia.
    exact Heq.
  - destruct (eq_loop a b (Z.to_nat (2 ^ 32)) 0) as [[|]|]; discriminate.
Qed.

Lemma word_value_ext (a b : bvec) (i : nat) :
  size a = size b ->
  (forall pos, 0 <= pos < size a -> bit a pos = bit b pos) ->
  word_value a i = word_value b i.
Proof.
  intros Es Hbits. unfold word_value. f_equal. apply map_ext. intros j.
  cbv zeta. rewrite <- Es.
  destruct (Z.ltb_spec (64 * Z.of_nat i + Z.of_nat j) (size a)); [|reflexivity].
  cbn [andb]. apply Hbits. lia.
Qed.

Lemma hash_by_rule_ext (a b : bvec) :
  size a = size b ->
  (forall pos, 0 <= pos < size a -> bit a pos = bit b pos) ->
  hash_by_rule a = hash_by_rule b.
Proof.
  intros Es Hbits. unfold hash_by_rule, occupied_words. rewrite <- Es.
  f_equal. apply map_ext. intros i. apply word_value_ext; assumption.
Qed.

(** The same with the equality rule spelled out: same size and the same bit
    at every position, whatever the two representations. *)
Lemma same_content_hash_equal (a b : bvec) :
  well_formed a = true -> well_formed b = true ->
  size a = size b ->
  (forall pos, 0 <= pos < size a -> get_at a pos = get_at b pos) ->
  hash a = hash b.
Proof.
  intros Ha Hb Es Hbits.
  rewrite (hash_follows_rule a Ha), (hash_follows_rule b Hb). f_equal.
  apply hash_by_rule_ext; [exact Es|].
  intros pos Hpos. specialize (Hbits pos Hpos).
  rewrite !get_at_bit in Hbits by (auto; lia). congruence.
Qed.

(** C8: two vectors that compare equal under [operator==], whatever their
    representations, have the same hash; and the hash is the fold
    [result = result * bits_per_word + word_value] over the occupied words
    from low to high, seeded with the size, where the final partial word is
    masked beyond the size. *)
Theorem equal_vectors_hash_equal (a b : bvec) :
  well_formed a = true -> well_formed b = true ->
  bvec_eq a b = Some true ->
  hash a = Some (hash_by_rule a) /\ hash b = Some (hash_by_rule b)
  /\ hash a = hash b.
Proof.
  intros Ha Hb Heq.
  destruct (bvec_eq_true a b Ha Hb Heq) as [Es Hbits].
  rewrite (hash_follows_rule a Ha), (hash_follows_rule b Hb).
  repeat split. f_equal. apply hash_by_rule_ext; assumption.
Qed.

Lemma equal_vectors_hash_equal_witness :
  hash (Stack (mk_stack 5 22)) = Some (hash_by_rule (Stack (mk_stack 5 22)))
  /\ hash (Heap (mk_heap 5 2 [2 ^ 63 + 22; 7]))
     = Some (hash_by_rule (Heap (mk_heap 5 2 [2 ^ 63 + 22; 7])))
  /\ hash (Stack (mk_stack 5 22)) = hash (Heap (mk_heap 5 2 [2 ^ 63 + 22; 7])).
Proof.
  apply (equal_vectors_hash_equal
           (Stack (mk_stack 5 22)) (Heap (mk_heap 5 2 [2 ^ 63 + 22; 7])));
    reflexivity.
Defined.

(** * Where the header departs from the specification

    Each statement below runs the embedded code on one concrete vector that
    the public interface can build; the result does not depend on what
    fresh storage holds. *)

Section Departures.

Variable junk : nat -> Z.

Lemma five_bits_heap_reached :
  reserve junk five_bits_inline 121 = Some five_bits_heap.
Proof. reflexivity. Qed.

Lemma zeros_121_reached : assign_count junk 121 false = Some zeros_121.
Proof. reflexivity. Qed.

Lemma one_bit_121_reached : set_at zeros_121 1 true = Some one_bit_121.
Proof. reflexivity. Qed.

Lemma one_zero_reached :
  (c ← push_back junk empty_bvec true; push_back junk c false) = Some one_zero.
Proof. reflexivity. Qed.

Lemma bit64_of_128_reached :
  (c ← assign_count junk 128 false; set_at c 64 true) = Some bit64_of_128.
Proof. reflexivity. Qed.

Lemma ones_40_reached : assign_count junk 40 true = Some ones_40.
Proof. reflexivity. Qed.

(** C1 (failing input): copying the heap-backed 5-bit vector
    [five_bits_heap] through [assign(other.begin(), other.end())] gives a
    vector of size 59 -- the size is computed as
    [words * block_digits - endBit] -- which [operator==] finds different
    from the source. *)
Theorem copy_of_heap_vector_has_wrong_size :
  well_formed five_bits_heap = true
  /\ copy junk five_bits_heap = Some (Heap (mk_heap 59 1 [22]))
  /\ bvec_eq (Heap (mk_heap 59 1 [22])) five_bits_heap = Some false.
Proof. repeat split; reflexivity. Qed.

(** A heap source of two or more occupied words: the trailing
    [erase(begin(), begin() + 0)] shifts the second word by [block_digits]
    bits, which has no defined result. *)
Lemma copy_of_two_word_heap_vector_undefined :
  copy junk (Heap (mk_heap 128 2 [5; 9])) = None.
Proof. reflexivity. Qed.

(** C2 (failing input): on the heap-backed 121-bit vector [one_bit_121],
    [erase(begin())] shifts the bits down but leaves the size at 121. *)
Theorem erase_on_heap_keeps_size :
  well_formed one_bit_121 = true
  /\ erase one_bit_121 0 = Some (Heap (mk_heap 121 2 [1; 0]))
  /\ size (Heap (mk_heap 121 2 [1; 0])) = size one_bit_121.
Proof. repeat split; reflexivity. Qed.

(** C3 (failing input): the inline vector [{1,0}] loses its bit 0 when
    [resize(121, false)] promotes it to the heap: the first word is built
    from the upper half of the inline data. *)
Theorem promotion_loses_stored_bit :
  well_formed one_zero = true
  /\ get_at one_zero 0 = Some true
  /\ resize junk one_zero 121 false = Some (Heap (mk_heap 121 2 [0; 0]))
  /\ get_at (Heap (mk_heap 121 2 [0; 0])) 0 = Some false.
Proof. repeat split; reflexivity. Qed.

(** C4 (failing input): on the heap-backed 128-bit vector whose only set bit
    is bit 64, [erase(begin() + 1, begin() + 2)] must leave 127 bits with
    only bit 63 set; the code leaves bits 61 and 64 set and bit 63 clear. *)
Theorem range_erase_on_heap_corrupts :
  well_formed bit64_of_128 = true
  /\ erase_range bit64_of_128 1 2 = Some (Heap (mk_heap 127 2 [2 ^ 61; 1]))
  /\ nth 63 (take 1 (contents bit64_of_128) ++ drop 2 (contents bit64_of_128)) false
     = true
  /\ get_at (Heap (mk_heap 127 2 [2 ^ 61; 1])) 63 = Some false
  /\ contents (Heap (mk_heap 127 2 [2 ^ 61; 1]))
     <> take 1 (contents bit64_of_128) ++ drop 2 (contents bit64_of_128).
Proof.
  repeat split; try reflexivity.
  intros H. apply (f_equal (fun l => nth 63 l false)) in H.
  vm_compute in H. discriminate.
Qed.

(** The empty range is not a no-op on the heap either: [erase(begin() + 1,
    begin() + 1)] sets bit 62. *)
Lemma empty_range_erase_on_heap_corrupts :
  erase_range bit64_of_128 1 1 = Some (Heap (mk_heap 128 2 [2 ^ 62; 1])).
Proof. reflexivity. Qed.

(** C5 (failing input): [bvec(192, true)], then [resize(10, false)], then
    [resize(192, false)]: the last call stays within the allocated words and
    fills the tail word only, so the newly exposed bit 64 still reads
    [true]. *)
Theorem resize_within_capacity_leaves_stale_bits :
  (c ← assign_count junk 192 true; c ← resize junk c 10 false;
   resize junk c 192 false)
  = Some (Heap (mk_heap 192 3 [2 ^ 10 - 1; block_mask; block_mask]))
  /\ get_at (Heap (mk_heap 192 3 [2 ^ 10 - 1; block_mask; block_mask])) 64
     = Some true.
Proof. split; reflexivity. Qed.

Lemma erase_if_turn (k : nat) :
  erase_if_loop (S k) (fun _ => true) zeros_121 0
  = erase_if_loop k (fun _ => true) zeros_121 0.
Proof.
  cbn [erase_if_loop].
  replace (0 =? to_int (size zeros_121)) with false by reflexivity.
  replace (get_at zeros_121 (wrap 64 0)) with (Some false) by reflexivity.
  replace (erase zeros_121 0) with (Some zeros_121) by reflexivity.
  reflexivity.
Qed.

(** C6 (failing input): on [bvec(121, false)] with a predicate that accepts
    every bit, the loop of [std::erase_if] never ends: [erase(iter)] leaves
    the heap size unchanged, so [iter] never meets [c.end()]. *)
Theorem erase_if_on_heap_never_returns :
  well_formed zeros_121 = true
  /\ forall fuel, std_erase_if fuel (fun _ => true) zeros_121 = OutOfFuel.
Proof.
  split; [reflexivity|].
  assert (H : forall fuel, erase_if_loop fuel (fun _ => true) zeros_121 0 = OutOfFuel).
  { induction fuel as [|k IH]; [reflexivity|]. rewrite erase_if_turn. exact IH. }
  intros fuel. unfold std_erase_if. rewrite H. reflexivity.
Qed.

(** C9 (failing input): [bvec(40, true)] holds 40 bits equal to [true];
    [std::erase(c, true)] counts only the 32 bits of the first [unsigned int]
    and leaves 8 bits, returning 32. *)
Theorem std_erase_counts_half_of_each_word :
  well_formed ones_40 = true
  /\ length (filter (fun b => Bool.eqb b true) (contents ones_40)) = 40%nat
  /\ std_erase junk ones_40 true = Some (Stack (mk_stack 8 0), 32).
Proof. repeat split; reflexivity. Qed.

End Departures.

(** * The inline representation

    On the inline representation the operations examined above do what
    the specification says; the lemmas of this part record it. *)

Lemma land_low_mask (n x : Z) : 0 <= n -> 0 <= x < 2 ^ n -> Z.land x (2 ^ n - 1) = x.
Proof.
  intros Hn Hx. replace (2 ^ n - 1) with (Z.ones n) by (rewrite Z.ones_equiv; lia).
  rewrite Z.land_ones by assumption. apply Z.mod_small; assumption.
Qed.

Lemma low_mask_testbit (n i : Z) :
  0 <= n -> 0 <= i -> Z.testbit (2 ^ n - 1) i = (i <? n).
Proof.
  intros Hn Hi. replace (2 ^ n - 1) with (Z.ones n) by (rewrite Z.ones_equiv; lia).
  apply Z.testbit_ones_nonneg; lia.
Qed.

Lemma to_int_small (x : Z) : 0 <= x < 2 ^ 31 -> to_int x = x.
Proof.
  intros Hx. unfold to_int.
  assert (2 ^ 31 = 2147483648) by reflexivity.
  assert (2 ^ 32 = 4294967296) by reflexivity.
  rewrite wrap_small by lia. destruct (Z.ltb_spec x (2 ^ 31)); lia.
Qed.

Lemma stack_data_mask_testbit (i : Z) :
  0 <= i -> Z.testbit stack_data_mask i = (i <? 120).
Proof.
  intros Hi. unfold stack_data_mask, stack_capacity. change (128 - 8) with 120.
  apply low_mask_testbit; lia.
Qed.

(** The inline data after the bits [[start, stop)] are cut out: this is the
    expression both inline erase functions compute. *)
Lemma splice_testbit (data start stop i : Z) :
  0 <= start <= stop -> start < 128 -> 0 <= i < 120 ->
  Z.testbit
    (Z.land (Z.lor (wrap 128 (Z.shiftl (Z.shiftr data stop) start))
                   (Z.land data (wrap 128 (2 ^ start - 1))))
            stack_data_mask) i
  = if i <? start then Z.testbit data i else Z.testbit data (i + (stop - start)).
Proof.
  intros Hs Hs2 Hi. unfold stack_data_mask, stack_capacity.
  change (128 - 8) with 120.
  assert (Hm : wrap 128 (2 ^ start - 1) = 2 ^ start - 1).
  { apply wrap_small.
    assert (0 < 2 ^ start) by (apply Z.pow_pos_nonneg; lia).
    assert (2 ^ start < 2 ^ 128) by (apply Z.pow_lt_mono_r; lia). lia. }
  rewrite Hm, Z.land_spec, Z.lor_spec, Z.land_spec.
  rewrite wrap_testbit_low by lia.
  rewrite !low_mask_testbit by lia.
  rewrite Z.shiftl_spec by lia.
  destruct (Z.ltb_spec i start), (Z.ltb_spec i 120); try lia.
  - rewrite Z.testbit_neg_r by lia. cbn [orb]. rewrite !andb_true_r. reflexivity.
  - rewrite Z.shiftr_spec by lia. rewrite andb_false_r, orb_false_r, andb_true_r.
    f_equal. lia.
Qed.

Lemma splice_range (data start stop : Z) :
  0 <= Z.land (Z.lor (wrap 128 (Z.shiftl (Z.shiftr data stop) start))
                     (Z.land data (wrap 128 (2 ^ start - 1))))
              stack_data_mask < 2 ^ 120.
Proof.
  unfold stack_data_mask, stack_capacity. change (128 - 8) with 120.
  replace (2 ^ 120 - 1) with (Z.ones 120) by (rewrite Z.ones_equiv; lia).
  rewrite Z.land_ones by lia. apply Z.mod_pos_bound. lia.
Qed.

Lemma well_formed_stack_intro (sz data : Z) :
  0 <= sz <= 120 -> 0 <= data < 2 ^ 120 ->
  well_formed (Stack (mk_stack sz data)) = true.
Proof.
  intros Hs Hd. unfold well_formed, stack_capacity. cbn [stack_size stack_data].
  rewrite !andb_true_iff, !Z.leb_le, Z.ltb_lt. lia.
Qed.

(** Inline [erase(pos)]: one bit fewer, the bits below [pos] stay, the bits
    above move down by one. *)
Lemma erase_inline (s : stack_type) (pos : Z) :
  well_formed (Stack s) = true -> 0 <= pos < stack_size s ->
  exists s', erase (Stack s) pos = Some (Stack s')
    /\ well_formed (Stack s') = true
    /\ stack_size s' = stack_size s - 1
    /\ forall i, 0 <= i < stack_size s - 1 ->
         bit (Stack s') i = if i <? pos then bit (Stack s) i else bit (Stack s) (i + 1).
Proof.
  intros Hwf Hpos. pose proof (well_formed_stack s Hwf) as [Hs Hd].
  unfold erase, shr. rewrite shl_one by lia.
  destruct (Z.leb_spec 0 (pos + 1)); try lia.
  destruct (Z.ltb_spec (pos + 1) 128); try lia.
  cbn [andb mbind option_bind]. unfold shl.
  destruct (Z.leb_spec 0 pos); try lia. destruct (Z.ltb_spec pos 128); try lia.
  cbn [andb mbind option_bind].
  eexists. split; [reflexivity|].
  assert (Hsz : wrap 7 (stack_size s - 1) = stack_size s - 1).
  { apply wrap_small. assert (2 ^ 7 = 128) by reflexivity. lia. }
  rewrite Hsz. repeat split.
  - apply well_formed_stack_intro; [lia | apply splice_range].
  - intros i Hi. cbn [bit stack_data].
    rewrite splice_testbit by lia.
    replace (i + (pos + 1 - pos)) with (i + 1) by lia. reflexivity.
Qed.

(** Inline [erase(first, last)]: the content becomes [b[0..first)] followed
    by [b[last..n)]. *)
Lemma erase_range_inline (s : stack_type) (first last : Z) :
  well_formed (Stack s) = true -> 0 <= first <= last -> last <= stack_size s ->
  exists s', erase_range (Stack s) first last = Some (Stack s')
    /\ well_formed (Stack s') = true
    /\ stack_size s' = stack_size s - (last - first)
    /\ forall i, 0 <= i < stack_size s - (last - first) ->
         bit (Stack s') i
         = if i <? first then bit (Stack s) i else bit (Stack s) (i + (last - first)).
Proof.
  intros Hwf Hfl Hlast. pose proof (well_formed_stack s Hwf) as [Hs Hd].
  unfold erase_range.
  destruct (Z.gtb_spec last (stack_size s)); try lia.
  assert (E64 : forall x, 0 <= x <= 120 -> wrap 64 x = x).
  { intros x Hx. apply wrap_small. rewrite pow2_64. lia. }
  cbv zeta. rewrite (E64 first), (E64 last) by lia.
  rewrite shl_one by lia. cbn [mbind option_bind].
  unfold shr, shl.
  destruct (Z.leb_spec 0 last); try lia. destruct (Z.ltb_spec last 128); try lia.
  destruct (Z.leb_spec 0 first); try lia. destruct (Z.ltb_spec first 128); try lia.
  cbn [andb mbind option_bind]. rewrite E64 by lia.
  eexists. split; [reflexivity|].
  assert (Hsz : Z.land (stack_size s - (last - first)) stack_size_mask
                = stack_size s - (last - first)).
  { unfold stack_size_mask. apply land_low_mask; lia. }
  rewrite Hsz. repeat split.
  - apply well_formed_stack_intro; [lia | apply splice_range].
  - intros i Hi. cbn [bit stack_data]. apply splice_testbit; lia.
Qed.

(** Inline [std::erase_if]: the loop ends, because every turn either erases
    a bit (the inline size drops by one) or advances the iterator. *)
Lemma erase_if_loop_inline (pred : bool -> bool) (fuel : nat) :
  forall (s : stack_type) (iter : Z),
  well_formed (Stack s) = true -> 0 <= iter <= stack_size s ->
  stack_size s - iter < Z.of_nat fuel ->
  exists s', erase_if_loop fuel pred (Stack s) iter = Returns (Stack s')
    /\ well_formed (Stack s') = true /\ stack_size s' <= stack_size s.
Proof.
  induction fuel as [|k IH]; intros s iter Hwf Hiter Hfuel.
  - lia.
  - pose proof (well_formed_stack s Hwf) as [Hs Hd].
    assert (E31 : 2 ^ 31 = 2147483648) by reflexivity.
    cbn [erase_if_loop size]. rewrite to_int_small by lia.
    destruct (Z.eqb_spec iter (stack_size s)) as [E|E].
    + exists s. repeat split; auto. lia.
    + rewrite wrap_small by (rewrite pow2_64; lia).
      rewrite get_at_bit by (auto; cbn [size]; lia).
      destruct (pred (bit (Stack s) iter)).
      * destruct (erase_inline s iter Hwf) as (s' & He & Hwf' & Hsz & _); [lia|].
        rewrite He.
        destruct (IH s' iter Hwf') as (s'' & Hl & Hwf'' & Hsz''); try lia.
        exists s''. repeat split; auto. lia.
      * destruct (IH s (iter + 1) Hwf) as (s'' & Hl & Hwf'' & Hsz''); try lia.
        exists s''. repeat split; auto.
Qed.

Lemma erase_if_inline_returns (pred : bool -> bool) (s : stack_type) :
  well_formed (Stack s) = true ->
  exists s', std_erase_if (S (Z.to_nat (stack_size s))) pred (Stack s)
             = Returns (Stack s', stack_size s - stack_size s').
Proof.
  intros Hwf. pose proof (well_formed_stack s Hwf) as [Hs Hd].
  destruct (erase_if_loop_inline pred (S (Z.to_nat (stack_size s))) s 0 Hwf)
    as (s' & Hl & Hwf' & Hsz); try lia.
  pose proof (well_formed_stack s' Hwf') as [Hs' Hd'].
  exists s'. unfold std_erase_if. rewrite Hl. cbn [size].
  rewrite wrap_small by (rewrite pow2_64; lia). reflexivity.
Qed.

Section InlineGrowth.

Variable junk : nat -> Z.

(** Copying an inline vector gives the same vector, which [operator==]
    finds equal to the source. *)
Lemma copy_inline (s : stack_type) :
  well_formed (Stack s) = true ->
  copy junk (Stack s) = Some (Stack s)
  /\ bvec_eq (Stack s) (Stack s) = Some true.
Proof.
  intros Hwf. pose proof (well_formed_stack s Hwf) as [Hs Hd].
  assert (E31 : 2 ^ 31 = 2147483648) by reflexivity.
  assert (E32 : 2 ^ 32 = 4294967296) by reflexivity.
  split.
  - unfold copy, cbegin, cend, assign_range. cbn [size].
    rewrite to_int_small by lia. unfold shr. cbn [Z.leb Z.ltb Z.compare andb].
    cbn [mbind option_bind]. rewrite Z.shiftr_0_r, Z.sub_0_r.
    rewrite (wrap_small 64) by (rewrite pow2_64; lia).
    rewrite (wrap_small 120) by assumption.
    unfold stack_size_mask. rewrite land_low_mask by lia.
    destruct s; reflexivity.
  - unfold bvec_eq. rewrite Z.eqb_refl. cbn [negb size].
    destruct (Z.ltb_spec (stack_size s) (2 ^ 32)); try lia.
    apply (eq_loop_same (Stack s) (Stack s) (Z.to_nat (stack_size s)) 0);
      auto; cbn [size]; lia.
Qed.

(** Inline [resize]: within the inline capacity the bits below the old size
    are kept and the newly exposed ones take the fill value. *)
Lemma resize_inline (s : stack_type) (count : Z) (value : bool) :
  well_formed (Stack s) = true -> 0 <= count <= 120 ->
  exists s', resize junk (Stack s) count value = Some (Stack s')
    /\ well_formed (Stack s') = true
    /\ stack_size s' = count
    /\ forall i, 0 <= i < count ->
         bit (Stack s') i = if i <? stack_size s then bit (Stack s) i else value.
Proof.
  intros Hwf Hcount. pose proof (well_formed_stack s Hwf) as [Hs Hd].
  unfold resize, stack_capacity. change (128 - 8) with 120.
  destruct (Z.gtb_spec count 120); try lia.
  unfold resize_stack.
  assert (Hsz : Z.land count stack_size_mask = count).
  { unfold stack_size_mask. apply land_low_mask; lia. }
  rewrite Hsz.
  destruct (Z.gtb_spec count (stack_size s)) as [Hgt|Hle].
  - unfold shl.
    destruct (Z.leb_spec 0 (stack_size s)); try lia.
    destruct (Z.ltb_spec (stack_size s) 128); try lia.
    cbn [andb mbind option_bind].
    eexists. split; [reflexivity|].
    assert (Hm : forall i, 0 <= i < 120 ->
              Z.testbit (wrap 128 (Z.shiftl stack_data_mask (stack_size s))) i
              = negb (i <? stack_size s)).
    { intros i Hi. rewrite wrap_testbit_low, Z.shiftl_spec by lia.
      destruct (Z.ltb_spec i (stack_size s)).
      - apply Z.testbit_neg_r. lia.
      - rewrite stack_data_mask_testbit by lia. apply Z.ltb_lt. lia. }
    assert (Hr : forall x, 0 <= Z.land x stack_data_mask < 2 ^ 120).
    { intros x. unfold stack_data_mask, stack_capacity. change (128 - 8) with 120.
      replace (2 ^ 120 - 1) with (Z.ones 120) by (rewrite Z.ones_equiv; lia).
      rewrite Z.land_ones by lia. apply Z.mod_pos_bound. lia. }
    repeat split.
    + apply well_formed_stack_intro; [lia | apply Hr].
    + intros i Hi. cbn [bit stack_data].
      rewrite Z.land_spec, stack_data_mask_testbit by lia.
      destruct (Z.ltb_spec i 120); try lia. rewrite andb_true_r.
      destruct value.
      * rewrite Z.lor_spec, Hm by lia.
        destruct (Z.ltb_spec i (stack_size s)); cbn [negb].
        -- apply orb_false_r.
        -- apply orb_true_r.
      * rewrite Z.land_spec, bnot_testbit, Hm by lia.
        destruct (Z.ltb_spec i (stack_size s)); cbn [negb].
        -- apply andb_true_r.
        -- apply andb_false_r.
  - cbn [mbind option_bind]. eexists. split; [reflexivity|].
    repeat split.
    + apply well_formed_stack_intro; [lia | assumption].
    + intros i Hi. cbn [bit stack_data].
      destruct (Z.ltb_spec i (stack_size s)); [reflexivity | lia].
Qed.

End InlineGrowth.

(** * Further properties of the bit vector *)

(** ** Contents as a list *)

Lemma contents_length (c : bvec) : length (contents c) = Z.to_nat (size c).
Proof. unfold contents. rewrite length_map, length_seq. reflexivity. Qed.

Lemma contents_nth (c : bvec) (i : nat) :
  (i < Z.to_nat (size c))%nat -> nth i (contents c) false = bit c (Z.of_nat i).
Proof.
  intros Hi. unfold contents. set (f := fun j : nat => bit c (Z.of_nat j)).
  rewrite (nth_indep _ false (f 0%nat)) by (rewrite length_map, length_seq; lia).
  rewrite map_nth, seq_nth by assumption. reflexivity.
Qed.

(** A list is the content of [c] when it has its size and its bits. *)
Lemma contents_intro (c : bvec) (l : list bool) :
  length l = Z.to_nat (size c) ->
  (forall i, (i < length l)%nat -> nth i l false = bit c (Z.of_nat i)) ->
  contents c = l.
Proof.
  intros Hlen Hbits. apply (nth_ext _ _ false false).
  - rewrite contents_length. lia.
  - intros i Hi. rewrite contents_length in Hi.
    rewrite contents_nth by assumption. symmetry. apply Hbits. lia.
Qed.

Lemma contents_same (a b : bvec) :
  size a = size b ->
  (forall pos, 0 <= pos < size a -> bit a pos = bit b pos) ->
  contents a = contents b.
Proof.
  intros Es Hbits. apply contents_intro.
  - rewrite contents_length. lia.
  - intros i Hi. rewrite contents_length in Hi.
    rewrite contents_nth by lia. symmetry. apply Hbits. lia.
Qed.

Lemma contents_eq_bits (a b : bvec) :
  contents a = contents b ->
  Z.to_nat (size a) = Z.to_nat (size b)
  /\ forall i, (i < Z.to_nat (size a))%nat -> bit a (Z.of_nat i) = bit b (Z.of_nat i).
Proof.
  intros E. assert (Hl : Z.to_nat (size a) = Z.to_nat (size b)).
  { rewrite <- !contents_length, E. reflexivity. }
  split; [exact Hl|]. intros i Hi.
  rewrite <- (contents_nth a) by assumption.
  rewrite <- (contents_nth b) by lia. rewrite E. reflexivity.
Qed.

(** ** Words in range *)

Lemma bits_range (n x : Z) :
  0 <= n -> (forall i, n <= i -> Z.testbit x i = false) -> 0 <= x < 2 ^ n.
Proof.
  intros Hn Hhigh. assert (E : x = wrap n x).
  { apply Z.bits_inj'. intros i Hi. destruct (Z.lt_ge_cases i n).
    - rewrite wrap_testbit_low by lia. reflexivity.
    - rewrite wrap_testbit_high by lia. apply Hhigh. lia. }
  rewrite E. apply wrap_range. assumption.
Qed.

Lemma lor_range (n a b : Z) :
  0 <= n -> 0 <= a < 2 ^ n -> 0 <= b < 2 ^ n -> 0 <= Z.lor a b < 2 ^ n.
Proof.
  intros Hn Ha Hb. apply bits_range; [assumption|]. intros i Hi.
  rewrite Z.lor_spec, (testbit_high_range n a), (testbit_high_range n b) by (auto; lia).
  reflexivity.
Qed.

Lemma land_range (n a b : Z) :
  0 <= n -> 0 <= a < 2 ^ n -> 0 <= Z.land a b < 2 ^ n.
Proof.
  intros Hn Ha. apply bits_range; [assumption|]. intros i Hi.
  rewrite Z.land_spec, (testbit_high_range n a) by (auto; lia). reflexivity.
Qed.

Lemma lxor_range (n a b : Z) :
  0 <= n -> 0 <= a < 2 ^ n -> 0 <= b < 2 ^ n -> 0 <= Z.lxor a b < 2 ^ n.
Proof.
  intros Hn Ha Hb. apply bits_range; [assumption|]. intros i Hi.
  rewrite Z.lxor_spec, (testbit_high_range n a), (testbit_high_range n b) by (auto; lia).
  reflexivity.
Qed.

Lemma pow2_range (n k : Z) : 0 <= k < n -> 0 <= 2 ^ k < 2 ^ n.
Proof.
  intros Hk. split; [apply Z.pow_nonneg; lia | apply Z.pow_lt_mono_r; lia].
Qed.

Lemma well_formed_heap_intro (sz cap : Z) (p : list Z) :
  0 <= sz < 2 ^ 35 -> cap = Z.of_nat (length p) -> cap < 2 ^ 28 ->
  sz <= 64 * cap -> Forall (fun w => 0 <= w < 2 ^ 64) p ->
  well_formed (Heap (mk_heap sz cap p)) = true.
Proof.
  intros Hs Hc Hc28 Hle Hall. unfold well_formed, block_digits.
  cbn [heap_size heap_capacity heap_pointer].
  rewrite !andb_true_iff, !Z.leb_le, !Z.ltb_lt, Z.eqb_eq, forallb_forall.
  repeat split; try lia.
  intros w Hw. apply word_ok_range. rewrite List.Forall_forall in Hall. auto.
Qed.

Lemma nth_insert (p : list Z) (k j : nat) (w : Z) :
  (k < length p)%nat ->
  nth j (<[k := w]> p) 0 = if (j =? k)%nat then w else nth j p 0.
Proof.
  intros Hk. rewrite !nth_lookup.
  destruct (Nat.eqb_spec j k) as [->|Hne].
  - rewrite list_lookup_insert_eq by assumption. reflexivity.
  - rewrite list_lookup_insert_ne by auto. reflexivity.
Qed.

Lemma Forall_insert_word (p : list Z) (k : nat) (w : Z) :
  Forall (fun w => 0 <= w < 2 ^ 64) p -> 0 <= w < 2 ^ 64 ->
  Forall (fun w => 0 <= w < 2 ^ 64) (<[k := w]> p).
Proof. intros Hall Hw. apply Forall_insert; assumption. Qed.

Lemma nth_word_range (p : list Z) (k : nat) :
  Forall (fun w => 0 <= w < 2 ^ 64) p -> 0 <= nth k p 0 < 2 ^ 64.
Proof.
  intros Hall. destruct (Nat.lt_ge_cases k (length p)).
  - rewrite List.Forall_forall in Hall. apply Hall, nth_In. assumption.
  - rewrite nth_overflow by assumption. rewrite pow2_64. lia.
Qed.

Lemma store_insert (p : list Z) (k : nat) (w : Z) :
  (k < length p)%nat -> store p (Z.of_nat k) w = Some (<[k := w]> p).
Proof.
  intros Hk. unfold store.
  destruct (Z.leb_spec 0 (Z.of_nat k)); try lia.
  destruct (Z.ltb_spec (Z.of_nat k) (Z.of_nat (length p))); try lia.
  rewrite Nat2Z.id. reflexivity.
Qed.

Lemma well_formed_heap_capacity (h : heap_type) :
  well_formed (Heap h) = true -> heap_capacity h < 2 ^ 28.
Proof.
  unfold well_formed. rewrite !andb_true_iff, !Z.ltb_lt. tauto.
Qed.

(** Replacing the word that holds position [pos] of a heap vector. *)
Lemma store_word (h : heap_type) (pos w' : Z) :
  well_formed (Heap h) = true -> 0 <= pos < heap_size h -> 0 <= w' < 2 ^ 64 ->
  exists p',
    load (heap_pointer h) (pos / 64)
      = Some (nth (Z.to_nat (pos / 64)) (heap_pointer h) 0)
    /\ store (heap_pointer h) (pos / 64) w' = Some p'
    /\ well_formed (Heap (mk_heap (heap_size h) (heap_capacity h) p')) = true
    /\ forall i, 0 <= i ->
         bit (Heap (mk_heap (heap_size h) (heap_capacity h) p')) i
         = if i / 64 =? pos / 64 then Z.testbit w' (i mod 64) else bit (Heap h) i.
Proof.
  intros Hwf Hpos Hw.
  pose proof (well_formed_heap h Hwf) as (Hs & Hcap & Hlen & _ & _ & Hall).
  assert (Hk : 0 <= pos / 64 < Z.of_nat (length (heap_pointer h))).
  { split; [apply Z.div_pos; lia | apply Z.div_lt_upper_bound; lia]. }
  exists (<[Z.to_nat (pos / 64) := w']> (heap_pointer h)).
  split; [apply load_nth; assumption|]. split.
  { rewrite <- (Z2Nat.id (pos / 64)) at 1 by lia. apply store_insert. lia. }
  split.
  - pose proof (well_formed_heap_capacity h Hwf) as Hc28.
    apply well_formed_heap_intro; try lia.
    + rewrite length_insert. lia.
    + apply Forall_insert_word; assumption.
  - intros i Hi. cbn [bit heap_pointer]. rewrite nth_insert by lia.
    assert (0 <= i / 64) by (apply Z.div_pos; lia).
    destruct (Z.eqb_spec (i / 64) (pos / 64)) as [E|E].
    + rewrite E, Nat.eqb_refl. reflexivity.
    + destruct (Nat.eqb_spec (Z.to_nat (i / 64)) (Z.to_nat (pos / 64))); [lia|].
      reflexivity.
Qed.

Lemma same_position (i pos : Z) :
  (i / 64 = pos / 64 /\ i mod 64 = pos mod 64) <-> i = pos.
Proof.
  split; [|intros ->; auto]. intros [Hd Hm].
  rewrite (Z.div_mod i 64), (Z.div_mod pos 64) by lia. rewrite Hd, Hm. reflexivity.
Qed.

(** ** Writing and toggling one bit *)

(** Closes a goal between booleans after a case analysis on positions. *)
Ltac bool_close :=
  try lia; cbn [negb];
  rewrite ?orb_true_r, ?orb_false_r, ?andb_true_r, ?andb_false_r,
    ?xorb_true_r, ?xorb_false_r;
  try reflexivity.

Lemma lor_pow2_testbit (w off j : Z) :
  0 <= off -> 0 <= j ->
  Z.testbit (Z.lor w (2 ^ off)) j = Z.testbit w j || (off =? j).
Proof. intros Ho Hj. rewrite Z.lor_spec, Z.pow2_bits_eqb by lia. reflexivity. Qed.

Lemma land_not_pow2_testbit (n w off j : Z) :
  0 <= off -> 0 <= j < n ->
  Z.testbit (Z.land w (bnot n (2 ^ off))) j = Z.testbit w j && negb (off =? j).
Proof.
  intros Ho Hj. rewrite Z.land_spec, bnot_testbit, Z.pow2_bits_eqb by lia.
  reflexivity.
Qed.

Lemma lxor_pow2_testbit (w off j : Z) :
  0 <= off -> 0 <= j ->
  Z.testbit (Z.lxor w (2 ^ off)) j = xorb (Z.testbit w j) (off =? j).
Proof. intros Ho Hj. rewrite Z.lxor_spec, Z.pow2_bits_eqb by lia. reflexivity. Qed.

(** A word-level update [f] that changes bit [off] to [g] of its old value
    and no other bit, applied at position [pos]. *)
Lemma point_update_heap (h : heap_type) (pos : Z) (f : Z -> Z) (g : bool -> bool) :
  well_formed (Heap h) = true -> 0 <= pos < heap_size h ->
  (forall w, 0 <= w < 2 ^ 64 -> 0 <= f w < 2 ^ 64) ->
  (forall w j, 0 <= j < 64 ->
     Z.testbit (f w) j = if j =? pos mod 64 then g (Z.testbit w j) else Z.testbit w j) ->
  exists p',
    (w ← load (heap_pointer h) (pos / 64); store (heap_pointer h) (pos / 64) (f w))
      = Some p'
    /\ well_formed (Heap (mk_heap (heap_size h) (heap_capacity h) p')) = true
    /\ forall i, 0 <= i ->
         bit (Heap (mk_heap (heap_size h) (heap_capacity h) p')) i
         = if i =? pos then g (bit (Heap h) i) else bit (Heap h) i.
Proof.
  intros Hwf Hpos Hrange Hbits.
  pose proof (well_formed_heap h Hwf) as (_ & _ & _ & _ & _ & Hall).
  set (w := nth (Z.to_nat (pos / 64)) (heap_pointer h) 0).
  destruct (store_word h pos (f w) Hwf Hpos) as (p' & Hload & Hstore & Hwf' & Hb).
  { apply Hrange. apply nth_word_range; assumption. }
  exists p'. rewrite Hload. cbn [mbind option_bind]. fold w. rewrite Hstore.
  repeat split; auto.
  intros i Hi. rewrite Hb by assumption.
  pose proof (Z.mod_pos_bound i 64 ltac:(lia)).
  destruct (Z.eqb_spec (i / 64) (pos / 64)) as [E|E].
  - rewrite Hbits by assumption.
    assert (Hw : Z.testbit w (i mod 64) = bit (Heap h) i).
    { unfold w. cbn [bit]. rewrite E. reflexivity. }
    rewrite Hw.
    destruct (Z.eqb_spec (i mod 64) (pos mod 64)) as [E2|E2];
      destruct (Z.eqb_spec i pos) as [E3|E3]; auto.
    + exfalso. apply E3, same_position. auto.
    + exfalso. apply E2. rewrite E3. reflexivity.
  - destruct (Z.eqb_spec i pos) as [E3|E3]; auto.
    exfalso. apply E. rewrite E3. reflexivity.
Qed.

Lemma set_at_spec (c : bvec) (pos : Z) (value : bool) :
  well_formed c = true -> 0 <= pos < size c ->
  exists c', set_at c pos value = Some c'
    /\ well_formed c' = true /\ size c' = size c /\ is_heap c' = is_heap c
    /\ capacity c' = capacity c
    /\ forall i, 0 <= i < size c ->
         bit c' i = if i =? pos then value else bit c i.
Proof.
  intros Hwf Hpos. destruct c as [s|h]; cbn [size] in Hpos.
  - pose proof (well_formed_stack s Hwf) as [Hs Hd].
    unfold set_at. rewrite shl_one by lia. cbn [mbind option_bind].
    eexists. split; [reflexivity|]. repeat split.
    + apply well_formed_stack_intro; [assumption | apply wrap_range; lia].
    + intros i Hi. cbn [size] in Hi. cbn [bit stack_data].
      rewrite wrap_testbit_low by lia. destruct value.
      * rewrite lor_pow2_testbit by lia.
        destruct (Z.eqb_spec pos i), (Z.eqb_spec i pos); bool_close.
      * rewrite (land_not_pow2_testbit 128) by lia.
        destruct (Z.eqb_spec pos i), (Z.eqb_spec i pos); bool_close.
  - pose proof (Z.mod_pos_bound pos 64 ltac:(lia)) as Hoff.
    destruct (point_update_heap h pos
                (fun w => if value then Z.lor w (2 ^ (pos mod 64))
                          else Z.land w (bnot 64 (2 ^ (pos mod 64))))
                (fun _ => value) Hwf Hpos)
      as (p' & Hp' & Hwf' & Hb).
    { intros w Hw. destruct value.
      - apply lor_range; [lia | assumption | apply pow2_range; lia].
      - apply land_range; [lia | assumption]. }
    { intros w j Hj. destruct value.
      - rewrite lor_pow2_testbit by lia.
        destruct (Z.eqb_spec (pos mod 64) j), (Z.eqb_spec j (pos mod 64)); bool_close.
      - rewrite (land_not_pow2_testbit 64) by lia.
        destruct (Z.eqb_spec (pos mod 64) j), (Z.eqb_spec j (pos mod 64)); bool_close. }
    exists (Heap (mk_heap (heap_size h) (heap_capacity h) p')).
    split.
    + unfold set_at, block_digits.
      destruct (load (heap_pointer h) (pos / 64)) as [w|] eqn:El;
        cbn [mbind option_bind] in Hp' |- *; [|discriminate].
      rewrite shl_one by lia. cbn [mbind option_bind]. rewrite Hp'. reflexivity.
    + repeat split; auto. intros i Hi. apply Hb. cbn [size] in Hi. lia.
Qed.

Lemma flip_at_spec (c : bvec) (pos : Z) :
  well_formed c = true -> 0 <= pos < size c ->
  exists c', flip_at c pos = Some c'
    /\ well_formed c' = true /\ size c' = size c /\ is_heap c' = is_heap c
    /\ capacity c' = capacity c
    /\ forall i, 0 <= i < size c ->
         bit c' i = if i =? pos then negb (bit c i) else bit c i.
Proof.
  intros Hwf Hpos. destruct c as [s|h]; cbn [size] in Hpos.
  - pose proof (well_formed_stack s Hwf) as [Hs Hd].
    unfold flip_at. rewrite shl_one by lia. cbn [mbind option_bind].
    eexists. split; [reflexivity|]. repeat split.
    + apply well_formed_stack_intro; [assumption | apply wrap_range; lia].
    + intros i Hi. cbn [size] in Hi. cbn [bit stack_data].
      rewrite wrap_testbit_low, lxor_pow2_testbit by lia.
      destruct (Z.eqb_spec pos i), (Z.eqb_spec i pos); bool_close.
  - pose proof (Z.mod_pos_bound pos 64 ltac:(lia)) as Hoff.
    destruct (point_update_heap h pos (fun w => Z.lxor w (2 ^ (pos mod 64))) negb
                Hwf Hpos)
      as (p' & Hp' & Hwf' & Hb).
    { intros w Hw. apply lxor_range; [lia | assumption | apply pow2_range; lia]. }
    { intros w j Hj. rewrite lxor_pow2_testbit by lia.
      destruct (Z.eqb_spec (pos mod 64) j), (Z.eqb_spec j (pos mod 64)); bool_close. }
    exists (Heap (mk_heap (heap_size h) (heap_capacity h) p')).
    split.
    + unfold flip_at, block_digits.
      destruct (load (heap_pointer h) (pos / 64)) as [w|] eqn:El;
        cbn [mbind option_bind] in Hp' |- *; [|discriminate].
      rewrite shl_one by lia. cbn [mbind option_bind]. rewrite Hp'. reflexivity.
    + repeat split; auto. intros i Hi. apply Hb. cbn [size] in Hi. lia.
Qed.

(** X1: writing a bit through a reference ([set_at]) at a valid position
    keeps size and representation, makes that position read the written
    value and leaves every other position as it was. *)
Theorem set_at_then_get_at (c : bvec) (pos : Z) (value : bool) :
  well_formed c = true -> 0 <= pos < size c ->
  exists c', set_at c pos value = Some c'
    /\ well_formed c' = true /\ size c' = size c /\ is_heap c' = is_heap c
    /\ get_at c' pos = Some value
    /\ forall i, 0 <= i < size c -> i <> pos -> get_at c' i = get_at c i.
Proof.
  intros Hwf Hpos.
  destruct (set_at_spec c pos value Hwf Hpos) as (c' & Hs & Hwf' & Hsz & Hh & _ & Hb).
  exists c'. repeat split; auto.
  - rewrite get_at_bit, Hb, Z.eqb_refl by (auto; lia). reflexivity.
  - intros i Hi Hne. rewrite !get_at_bit, Hb by (auto; lia).
    destruct (Z.eqb_spec i pos); [contradiction | reflexivity].
Qed.

Lemma set_at_then_get_at_witness :
  exists c', set_at (Heap (mk_heap 70 2 [5; 9])) 66 true = Some c'
    /\ well_formed c' = true /\ size c' = size (Heap (mk_heap 70 2 [5; 9]))
    /\ is_heap c' = is_heap (Heap (mk_heap 70 2 [5; 9]))
    /\ get_at c' 66 = Some true
    /\ forall i, 0 <= i < size (Heap (mk_heap 70 2 [5; 9])) -> i <> 66 ->
         get_at c' i = get_at (Heap (mk_heap 70 2 [5; 9])) i.
Proof.
  apply (set_at_then_get_at (Heap (mk_heap 70 2 [5; 9])) 66 true);
    [reflexivity | cbn; lia].
Defined.

(** X2: [reference::flip()] ([flip_at]) at a valid position complements
    that bit and no other, and keeps size and representation. *)
Theorem flip_at_toggles_one_bit (c : bvec) (pos : Z) :
  well_formed c = true -> 0 <= pos < size c ->
  exists c' b, flip_at c pos = Some c' /\ get_at c pos = Some b
    /\ well_formed c' = true /\ size c' = size c /\ is_heap c' = is_heap c
    /\ get_at c' pos = Some (negb b)
    /\ forall i, 0 <= i < size c -> i <> pos -> get_at c' i = get_at c i.
Proof.
  intros Hwf Hpos.
  destruct (flip_at_spec c pos Hwf Hpos) as (c' & Hs & Hwf' & Hsz & Hh & _ & Hb).
  exists c', (bit c pos). repeat split; auto.
  - apply get_at_bit; auto.
  - rewrite get_at_bit, Hb, Z.eqb_refl by (auto; lia). reflexivity.
  - intros i Hi Hne. rewrite !get_at_bit, Hb by (auto; lia).
    destruct (Z.eqb_spec i pos); [contradiction | reflexivity].
Qed.

Lemma flip_at_toggles_one_bit_witness :
  exists c' b, flip_at (Stack (mk_stack 5 22)) 1 = Some c'
    /\ get_at (Stack (mk_stack 5 22)) 1 = Some b
    /\ well_formed c' = true /\ size c' = size (Stack (mk_stack 5 22))
    /\ is_heap c' = is_heap (Stack (mk_stack 5 22))
    /\ get_at c' 1 = Some (negb b)
    /\ forall i, 0 <= i < size (Stack (mk_stack 5 22)) -> i <> 1 ->
         get_at c' i = get_at (Stack (mk_stack 5 22)) i.
Proof.
  apply (flip_at_toggles_one_bit (Stack (mk_stack 5 22)) 1);
    [reflexivity | cbn; lia].
Defined.

(** X3: the static [swap(reference x, reference y)] on two valid positions
    of one vector exchanges the two bits and changes nothing else. *)
Theorem swap_references_exchanges (c : bvec) (x y : Z) :
  well_formed c = true -> 0 <= x < size c -> 0 <= y < size c ->
  exists c', swap_references c x y = Some c'
    /\ well_formed c' = true /\ size c' = size c
    /\ get_at c' x = get_at c y /\ get_at c' y = get_at c x
    /\ forall i, 0 <= i < size c -> i <> x -> i <> y -> get_at c' i = get_at c i.
Proof.
  intros Hwf Hx Hy. unfold swap_references.
  rewrite !get_at_bit by auto. cbn [mbind option_bind].
  destruct (Bool.eqb (bit c x) (bit c y)) eqn:E.
  - apply eqb_prop in E. exists c. rewrite !get_at_bit by auto.
    repeat split; auto; congruence.
  - apply eqb_false_iff in E.
    assert (Hxy : x <> y) by (intros ->; apply E; reflexivity).
    destruct (flip_at_spec c x Hwf Hx) as (c1 & H1 & Hwf1 & Hsz1 & _ & _ & Hb1).
    destruct (flip_at_spec c1 y Hwf1) as (c2 & H2 & Hwf2 & Hsz2 & _ & _ & Hb2);
      [lia|].
    exists c2. rewrite H1. cbn [mbind option_bind]. rewrite H2.
    assert (Hbits : forall i, 0 <= i < size c ->
              bit c2 i = if i =? y then negb (bit c i)
                         else if i =? x then negb (bit c i) else bit c i).
    { intros i Hi. rewrite Hb2, Hb1 by lia.
      destruct (Z.eqb_spec i y), (Z.eqb_spec i x); try lia; reflexivity. }
    repeat split; auto; try lia.
    + rewrite !get_at_bit, Hbits by (auto; lia).
      destruct (Z.eqb_spec x y); [contradiction|]. rewrite Z.eqb_refl.
      f_equal. destruct (bit c x), (bit c y); auto; exfalso; apply E; reflexivity.
    + rewrite !get_at_bit, Hbits, Z.eqb_refl by (auto; lia).
      f_equal. destruct (bit c x), (bit c y); auto; exfalso; apply E; reflexivity.
    + intros i Hi Hnx Hny. rewrite !get_at_bit, Hbits by (auto; lia).
      destruct (Z.eqb_spec i y), (Z.eqb_spec i x); try contradiction. reflexivity.
Qed.

Lemma swap_references_exchanges_witness :
  exists c', swap_references (Heap (mk_heap 70 2 [5; 9])) 1 64 = Some c'
    /\ well_formed c' = true /\ size c' = size (Heap (mk_heap 70 2 [5; 9]))
    /\ get_at c' 1 = get_at (Heap (mk_heap 70 2 [5; 9])) 64
    /\ get_at c' 64 = get_at (Heap (mk_heap 70 2 [5; 9])) 1
    /\ forall i, 0 <= i < size (Heap (mk_heap 70 2 [5; 9])) -> i <> 1 -> i <> 64 ->
         get_at c' i = get_at (Heap (mk_heap 70 2 [5; 9])) i.
Proof.
  apply (swap_references_exchanges (Heap (mk_heap 70 2 [5; 9])) 1 64);
    [reflexivity | cbn; lia | cbn; lia].
Defined.

(** ** Storage lemmas *)

Section Growth.

Variable junk : nat -> Z.

Lemma allocate_length (words : Z) :
  length (allocate junk words) = Z.to_nat words.
Proof. unfold allocate. rewrite length_map, length_seq. reflexivity. Qed.

Lemma allocate_words_ok (words : Z) :
  Forall (fun w => 0 <= w < 2 ^ 64) (allocate junk words).
Proof.
  unfold allocate. apply List.Forall_forall. intros w Hw.
  apply in_map_iff in Hw. destruct Hw as (i & <- & _). apply wrap_range. lia.
Qed.

Lemma memcpy_words_prefix (dst src : list Z) (n : Z) :
  0 <= n <= Z.of_nat (length src) -> n <= Z.of_nat (length dst) ->
  memcpy_words dst 0 src 0 n
  = Some (take (Z.to_nat n) src ++ drop (Z.to_nat n) dst).
Proof.
  intros Hs Hd. unfold memcpy_words.
  destruct (Z.leb_spec 0 n); try lia.
  destruct (Z.leb_spec (0 + n) (Z.of_nat (length src))); try lia.
  destruct (Z.leb_spec (0 + n) (Z.of_nat (length dst))); try lia.
  reflexivity.
Qed.

Lemma prefix_copy_length (dst src : list Z) (n : nat) :
  (n <= length src)%nat -> (n <= length dst)%nat ->
  length (take n src ++ drop n dst) = length dst.
Proof.
  intros Hs Hd. rewrite length_app, length_take, length_drop. lia.
Qed.

Lemma prefix_copy_nth (dst src : list Z) (n j : nat) :
  (n <= length src)%nat ->
  nth j (take n src ++ drop n dst) 0 = if (j <? n)%nat then nth j src 0 else nth j dst 0.
Proof.
  intros Hs. destruct (Nat.ltb_spec j n).
  - rewrite app_nth1 by (rewrite length_take; lia).
    rewrite !nth_lookup, lookup_take_lt by assumption. reflexivity.
  - rewrite app_nth2 by (rewrite length_take; lia).
    rewrite length_take, Nat.min_l by assumption.
    rewrite !nth_lookup, lookup_drop. f_equal. f_equal. lia.
Qed.

Lemma prefix_copy_ok (dst src : list Z) (n : nat) :
  Forall (fun w => 0 <= w < 2 ^ 64) src -> Forall (fun w => 0 <= w < 2 ^ 64) dst ->
  Forall (fun w => 0 <= w < 2 ^ 64) (take n src ++ drop n dst).
Proof.
  intros Hs Hd. apply Forall_app. split; [apply Forall_take | apply Forall_drop]; auto.
Qed.

(** The loop that fills the words [i .. i+n) with [fill]. *)
Lemma fill_loop (fill : Z) (n : nat) : forall (i : nat) (p : list Z),
  (i + n <= length p)%nat ->
  exists q, for_loop n (Z.of_nat i) (fill_body fill) p = Some q
    /\ length q = length p
    /\ (Forall (fun w => 0 <= w < 2 ^ 64) p -> 0 <= fill < 2 ^ 64 ->
        Forall (fun w => 0 <= w < 2 ^ 64) q)
    /\ forall j, nth j q 0 =
         if (i <=? j)%nat && (j <? i + n)%nat then fill else nth j p 0.
Proof.
  induction n as [|n IH]; intros i p Hlen.
  - exists p. repeat split; auto. intros j.
    destruct ((i <=? j)%nat && (j <? i + 0)%nat) eqn:E; bool_arith; auto; lia.
  - cbn [for_loop].
    assert (Hb : fill_body fill (Z.of_nat i) p = Some (<[i := fill]> p))
      by (unfold fill_body; apply store_insert; lia).
    rewrite Hb. cbn [mbind option_bind].
    replace (Z.of_nat i + 1) with (Z.of_nat (S i)) by lia.
    destruct (IH (S i) (<[i := fill]> p)) as (q & Hq & Hlq & Hok & Hnth).
    { rewrite length_insert. lia. }
    exists q. rewrite Hq, Hlq, length_insert. repeat split; auto.
    + intros Hall Hf. apply Hok; auto. apply Forall_insert_word; assumption.
    + intros j. rewrite Hnth, nth_insert by lia.
      destruct ((S i <=? j)%nat && (j <? S i + n)%nat) eqn:E1;
        destruct ((i <=? j)%nat && (j <? i + S n)%nat) eqn:E2;
        destruct (Nat.eqb_spec j i); bool_arith; try reflexivity; lia.
Qed.

Lemma shifted_mask_testbit (ts j : Z) :
  0 <= ts < 64 -> 0 <= j < 64 ->
  Z.testbit (wrap 64 (Z.shiftl block_mask ts)) j = (ts <=? j).
Proof.
  intros Hts Hj. rewrite wrap_testbit_low, Z.shiftl_spec by lia.
  destruct (Z.leb_spec ts j).
  - rewrite block_mask_testbit by lia. apply Z.ltb_lt. lia.
  - apply Z.testbit_neg_r. lia.
Qed.

(** [fill_tail] keeps the bits of the tail word below [tailSize] and sets
    the others to [value]. *)
Lemma fill_tail_spec (p : list Z) (tw : nat) (ts : Z) (value : bool) :
  (tw < length p)%nat -> 0 <= ts < 64 ->
  Forall (fun w => 0 <= w < 2 ^ 64) p ->
  exists w', fill_tail p (Z.of_nat tw) ts value = Some (<[tw := w']> p)
    /\ 0 <= w' < 2 ^ 64
    /\ forall k, 0 <= k < 64 ->
         Z.testbit w' k = if k <? ts then Z.testbit (nth tw p 0) k else value.
Proof.
  intros Htw Hts Hall. unfold fill_tail.
  rewrite load_nth by lia. cbn [mbind option_bind]. rewrite Nat2Z.id.
  unfold shl. destruct (Z.leb_spec 0 ts); try lia. destruct (Z.ltb_spec ts 64); try lia.
  cbn [andb mbind option_bind]. rewrite store_insert by assumption.
  pose proof (nth_word_range p tw Hall) as Hw.
  eexists. split; [reflexivity|]. split.
  - destruct value.
    + apply lor_range; [lia | assumption | apply wrap_range; lia].
    + apply land_range; [lia | assumption].
  - intros k Hk. destruct value.
    + rewrite Z.lor_spec, shifted_mask_testbit by lia.
      destruct (Z.leb_spec ts k), (Z.ltb_spec k ts); bool_close.
    + rewrite Z.land_spec, bnot_testbit, shifted_mask_testbit by lia.
      destruct (Z.leb_spec ts k), (Z.ltb_spec k ts); bool_close.
Qed.

Lemma fill_word_testbit (value : bool) (k : Z) :
  0 <= k < 64 -> Z.testbit (if value then block_mask else 0) k = value.
Proof.
  intros Hk. destruct value.
  - rewrite block_mask_testbit by lia. apply Z.ltb_lt. lia.
  - apply Z.bits_0.
Qed.

Lemma fill_word_range (value : bool) : 0 <= (if value then block_mask else 0) < 2 ^ 64.
Proof. destruct value; unfold block_mask; rewrite pow2_64; lia. Qed.

(** The bits of a word array that was grown from the content of [h]: the
    words below the old tail word are kept, the tail word keeps its bits
    below the old size and has [value] above, and every later word that the
    new size reaches is all [value]. *)
Lemma grown_bits (h : heap_type) (p' : list Z) (count cap' : Z) (value : bool) :
  0 <= heap_size h ->
  (forall j, (j < Z.to_nat (heap_size h / 64))%nat ->
     nth j p' 0 = nth j (heap_pointer h) 0) ->
  (forall k, 0 <= k < 64 -> 64 * (heap_size h / 64) + k < count ->
     Z.testbit (nth (Z.to_nat (heap_size h / 64)) p' 0) k
     = if k <? heap_size h mod 64
       then Z.testbit (nth (Z.to_nat (heap_size h / 64)) (heap_pointer h) 0) k
       else value) ->
  (forall j, (Z.to_nat (heap_size h / 64) < j)%nat -> 64 * Z.of_nat j < count ->
     nth j p' 0 = if value then block_mask else 0) ->
  forall pos, 0 <= pos < count ->
    bit (Heap (mk_heap count cap' p')) pos
    = if pos <? heap_size h then bit (Heap h) pos else value.
Proof.
  intros Hs Hlow Htail Hhigh pos Hpos. cbn [bit heap_pointer].
  pose proof (Z.div_mod pos 64 ltac:(lia)) as Hdm.
  pose proof (Z.mod_pos_bound pos 64 ltac:(lia)) as Hm.
  pose proof (Z.div_mod (heap_size h) 64 ltac:(lia)) as Hdm'.
  pose proof (Z.mod_pos_bound (heap_size h) 64 ltac:(lia)) as Hm'.
  assert (0 <= pos / 64) by (apply Z.div_pos; lia).
  assert (0 <= heap_size h / 64) by (apply Z.div_pos; lia).
  destruct (Z.lt_trichotomy (pos / 64) (heap_size h / 64)) as [Hlt|[Heq|Hgt]].
  - rewrite Hlow by lia. destruct (Z.ltb_spec pos (heap_size h)); [reflexivity | lia].
  - rewrite Heq, Htail by lia. rewrite <- Heq.
    destruct (Z.ltb_spec (pos mod 64) (heap_size h mod 64)),
      (Z.ltb_spec pos (heap_size h)); try lia; reflexivity.
  - rewrite Hhigh by lia. rewrite fill_word_testbit by lia.
    destruct (Z.ltb_spec pos (heap_size h)); [lia | reflexivity].
Qed.

End Growth.

(** ** Growing and shrinking on the heap *)

Lemma count_fields (count : Z) :
  0 <= count <= max_size - block_digits ->
  count < 2 ^ 35
  /\ block_round count = (count + 63) / 64
  /\ 0 <= (count + 63) / 64 < 2 ^ 28
  /\ count <= 64 * ((count + 63) / 64)
  /\ 64 * ((count + 63) / 64) < count + 64
  /\ Z.land count heap_size_mask = count
  /\ Z.land ((count + 63) / 64) heap_capacity_mask = (count + 63) / 64.
Proof.
  unfold max_size, heap_capacity_max, block_digits. intros Hc.
  assert (E28 : 2 ^ 28 = 268435456) by reflexivity.
  assert (E35 : 2 ^ 35 = 34359738368) by reflexivity.
  rewrite E28 in Hc.
  pose proof (Z.div_mod (count + 63) 64 ltac:(lia)) as Hdm.
  pose proof (Z.mod_pos_bound (count + 63) 64 ltac:(lia)) as Hm.
  assert (Hw : 0 <= (count + 63) / 64 < 2 ^ 28).
  { split; [apply Z.div_pos; lia | apply Z.div_lt_upper_bound; lia]. }
  repeat split; try lia.
  - apply block_round_small. lia.
  - unfold heap_size_mask. apply land_low_mask; lia.
  - unfold heap_capacity_mask, heap_capacity_max. apply land_low_mask; lia.
Qed.

Section HeapResize.

Variable junk : nat -> Z.

(** [resize_heap] when it reallocates, when it shrinks, or when it grows
    without leaving the tail word. *)
Lemma resize_heap_spec (h : heap_type) (count : Z) (value : bool) :
  well_formed (Heap h) = true ->
  0 <= count <= max_size - block_digits ->
  block_round count > heap_capacity h \/ count <= 64 * (heap_size h / 64 + 1) ->
  exists h', resize_heap junk h count value = Some (Heap h')
    /\ well_formed (Heap h') = true
    /\ heap_size h' = count
    /\ heap_capacity h <= heap_capacity h'
    /\ forall pos, 0 <= pos < count ->
         bit (Heap h') pos = if pos <? heap_size h then bit (Heap h) pos else value.
Proof.
  intros Hwf Hcount Hscope.
  pose proof (well_formed_heap h Hwf) as (Hs & Hcap & Hlen & _ & _ & Hall).
  pose proof (well_formed_heap_capacity h Hwf) as Hc28.
  destruct (count_fields count Hcount) as (H35 & Hround & Hw & Hle & Hlt & Hsm & Hcm).
  pose proof (Z.div_mod (heap_size h) 64 ltac:(lia)) as Hdm.
  pose proof (Z.mod_pos_bound (heap_size h) 64 ltac:(lia)) as Hm.
  assert (Htw0 : 0 <= heap_size h / 64) by (apply Z.div_pos; lia).
  set (twn := Z.to_nat (heap_size h / 64)).
  assert (Etw : heap_size h / 64 = Z.of_nat twn) by (unfold twn; lia).
  set (words := (count + 63) / 64) in *.
  unfold resize_heap, block_digits. rewrite Hround. fold words.
  rewrite Hsm, Hcm.
  destruct (Z.gtb_spec words (heap_capacity h)) as [Hgt|Hngt].
  - (* reallocation *)
    rewrite memcpy_words_prefix by (rewrite ?allocate_length; lia).
    cbn [mbind option_bind].
    set (p1 := take (Z.to_nat (heap_capacity h)) (heap_pointer h)
               ++ drop (Z.to_nat (heap_capacity h)) (allocate junk words)).
    assert (Hl1 : length p1 = Z.to_nat words).
    { unfold p1. rewrite prefix_copy_length by (rewrite ?allocate_length; lia).
      apply allocate_length. }
    assert (Hok1 : Forall (fun w => 0 <= w < 2 ^ 64) p1).
    { unfold p1. apply prefix_copy_ok; [assumption | apply allocate_words_ok]. }
    assert (Hn1 : forall j, (j < Z.to_nat (heap_capacity h))%nat ->
                   nth j p1 0 = nth j (heap_pointer h) 0).
    { intros j Hj. unfold p1. rewrite prefix_copy_nth by lia.
      destruct (Nat.ltb_spec j (Z.to_nat (heap_capacity h))); [reflexivity | lia]. }
    destruct (Z.eqb_spec (heap_size h mod 64) 0) as [Ets|Ets].
    + cbn [mbind option_bind]. rewrite Etw.
      replace (Z.to_nat (words - Z.of_nat twn)) with (Z.to_nat words - twn)%nat by lia.
      destruct (fill_loop (if value then block_mask else 0)
                  (Z.to_nat words - twn) twn p1)
        as (q & Hq & Hlq & Hokq & Hnq); [lia|].
      rewrite Hq. cbn [mbind option_bind].
      eexists. split; [reflexivity|]. cbn [heap_size heap_capacity heap_pointer].
      repeat split; try lia.
      * apply well_formed_heap_intro; try lia.
        apply Hokq; [assumption | apply fill_word_range].
      * apply grown_bits; try lia.
        -- intros j Hj. fold twn in Hj. rewrite Hnq.
           destruct ((twn <=? j)%nat && (j <? twn + (Z.to_nat words - twn))%nat) eqn:E;
             bool_arith; try lia; apply Hn1; lia.
        -- intros k Hk Hkc. fold twn. rewrite Hnq.
           destruct ((twn <=? twn)%nat && (twn <? twn + (Z.to_nat words - twn))%nat) eqn:E;
             bool_arith; try lia.
           rewrite fill_word_testbit by lia.
           destruct (Z.ltb_spec k (heap_size h mod 64)); [lia | reflexivity].
        -- intros j Hj Hjc. fold twn in Hj. rewrite Hnq.
           destruct ((twn <=? j)%nat && (j <? twn + (Z.to_nat words - twn))%nat) eqn:E;
             bool_arith; try lia; reflexivity.
    + rewrite Etw.
      destruct (fill_tail_spec p1 twn (heap_size h mod 64) value)
        as (w' & Hft & Hw' & Hbw'); [lia | lia | assumption |].
      rewrite Hft. cbn [mbind option_bind].
      replace (Z.of_nat twn + 1) with (Z.of_nat (S twn)) by lia.
      replace (Z.to_nat (words - Z.of_nat (S twn)))
        with (Z.to_nat words - S twn)%nat by lia.
      destruct (fill_loop (if value then block_mask else 0)
                  (Z.to_nat words - S twn) (S twn) (<[twn := w']> p1))
        as (q & Hq & Hlq & Hokq & Hnq); [rewrite length_insert; lia|].
      rewrite Hq. cbn [mbind option_bind]. rewrite length_insert in Hlq.
      eexists. split; [reflexivity|]. cbn [heap_size heap_capacity heap_pointer].
      repeat split; try lia.
      * apply well_formed_heap_intro; try lia.
        apply Hokq; [apply Forall_insert_word; assumption | apply fill_word_range].
      * apply grown_bits; try lia.
        -- intros j Hj. fold twn in Hj. rewrite Hnq.
           destruct ((S twn <=? j)%nat && (j <? S twn + (Z.to_nat words - S twn))%nat)
             eqn:E; bool_arith; try lia;
             (rewrite nth_insert by lia;
              destruct (Nat.eqb_spec j twn); [lia | apply Hn1; lia]).
        -- intros k Hk Hkc. fold twn. rewrite Hnq.
           destruct ((S twn <=? twn)%nat && (twn <? S twn + (Z.to_nat words - S twn))%nat)
             eqn:E; bool_arith; try lia;
             (rewrite nth_insert, Nat.eqb_refl, Hbw', Hn1 by lia; reflexivity).
        -- intros j Hj Hjc. fold twn in Hj. rewrite Hnq.
           destruct ((S twn <=? j)%nat && (j <? S twn + (Z.to_nat words - S twn))%nat)
             eqn:E; bool_arith; try lia; reflexivity.
  - (* within the allocated words *)
    destruct Hscope as [Hscope|Hscope]; [rewrite Hround in Hscope; fold words in Hscope; lia|].
    destruct (Z.gtb_spec count (heap_size h)) as [Hgrow|Hshrink].
    + rewrite Etw.
      destruct (fill_tail_spec (heap_pointer h) twn (heap_size h mod 64) value)
        as (w' & Hft & Hw' & Hbw'); [lia | lia | assumption |].
      rewrite Hft. cbn [mbind option_bind].
      eexists. split; [reflexivity|]. cbn [heap_size heap_capacity heap_pointer].
      repeat split; try lia.
      * apply well_formed_heap_intro; try lia.
        -- rewrite length_insert. lia.
        -- apply Forall_insert_word; assumption.
      * apply grown_bits; try lia.
        -- intros j Hj. fold twn in Hj. rewrite nth_insert by lia.
           destruct (Nat.eqb_spec j twn); [lia | reflexivity].
        -- intros k Hk Hkc. fold twn.
           rewrite nth_insert, Nat.eqb_refl, Hbw' by lia. reflexivity.
    + cbn [mbind option_bind].
      eexists. split; [reflexivity|]. cbn [heap_size heap_capacity heap_pointer].
      repeat split; try lia.
      * apply well_formed_heap_intro; try lia. assumption.
      * intros pos Hpos. cbn [bit heap_pointer].
        destruct (Z.ltb_spec pos (heap_size h)); [reflexivity | lia].
Qed.

End HeapResize.

(** ** From the inline representation to the heap *)

Lemma div_mod_at (pos q r : Z) :
  pos = 64 * q + r -> 0 <= r < 64 -> pos / 64 = q /\ pos mod 64 = r.
Proof.
  intros E Hr. split; symmetry.
  - apply (Z.div_unique_pos pos 64 q r); lia.
  - apply (Z.mod_unique_pos pos 64 q r); lia.
Qed.

Lemma inline_low_word_testbit (data k : Z) :
  0 <= k < 64 -> Z.testbit (Z.land data block_mask) k = Z.testbit data k.
Proof.
  intros Hk. rewrite Z.land_spec, block_mask_testbit by lia.
  destruct (Z.ltb_spec k 64); [apply andb_true_r | lia].
Qed.

Lemma inline_high_word_testbit (data k : Z) :
  0 <= k < 64 ->
  Z.testbit (Z.land (Z.shiftr data block_digits) block_mask) k = Z.testbit data (k + 64).
Proof.
  intros Hk. unfold block_digits.
  rewrite Z.land_spec, block_mask_testbit, Z.shiftr_spec by lia.
  destruct (Z.ltb_spec k 64); [apply andb_true_r | lia].
Qed.

Lemma inline_word_range (x : Z) : 0 <= Z.land x block_mask < 2 ^ 64.
Proof.
  change block_mask with (Z.ones 64). rewrite Z.land_ones by lia.
  apply Z.mod_pos_bound. lia.
Qed.

Lemma shr_some (w x k : Z) : 0 <= k < w -> shr w x k = Some (Z.shiftr x k).
Proof.
  intros Hk. unfold shr.
  destruct (Z.leb_spec 0 k); try lia. destruct (Z.ltb_spec k w); try lia. reflexivity.
Qed.

Lemma shl_some (w x k : Z) :
  0 <= k < w -> shl w x k = Some (wrap w (Z.shiftl x k)).
Proof.
  intros Hk. unfold shl.
  destruct (Z.leb_spec 0 k); try lia. destruct (Z.ltb_spec k w); try lia. reflexivity.
Qed.

Lemma store_at (p : list Z) (k w : Z) :
  0 <= k < Z.of_nat (length p) -> store p k w = Some (<[Z.to_nat k := w]> p).
Proof.
  intros Hk. rewrite <- (Z2Nat.id k) at 1 by lia. apply store_insert. lia.
Qed.

Section Promotion.

Variable junk : nat -> Z.

(** [move_to_heap]: the two halves of the inline data become the first two
    words. *)
Lemma move_to_heap_spec (s : stack_type) (newCapacity : Z) :
  well_formed (Stack s) = true ->
  120 < newCapacity <= max_size - block_digits ->
  exists h', move_to_heap junk s newCapacity = Some (Heap h')
    /\ well_formed (Heap h') = true
    /\ heap_size h' = stack_size s
    /\ newCapacity <= 64 * heap_capacity h'
    /\ forall pos, 0 <= pos < 128 -> bit (Heap h') pos = bit (Stack s) pos.
Proof.
  intros Hwf Hcap. pose proof (well_formed_stack s Hwf) as [Hs Hd].
  destruct (count_fields newCapacity ltac:(lia))
    as (H35 & Hround & Hw & Hle & Hlt & Hsm & Hcm).
  set (words := (newCapacity + 63) / 64) in *.
  assert (Hw2 : 2 <= words).
  { unfold words. apply Z.div_le_lower_bound; lia. }
  unfold move_to_heap. rewrite Hround. fold words. rewrite Hcm.
  pose proof (allocate_length junk words) as Hla.
  rewrite (store_at _ 0) by lia. change (Z.to_nat 0) with 0%nat.
  cbn [mbind option_bind]. rewrite shr_some by (unfold block_digits; lia).
  cbn [mbind option_bind].
  rewrite (store_at _ 1) by (rewrite length_insert; lia).
  change (Z.to_nat 1) with 1%nat. cbn [mbind option_bind].
  eexists. split; [reflexivity|]. cbn [heap_size heap_capacity heap_pointer].
  assert (E35 : 2 ^ 35 = 34359738368) by reflexivity.
  repeat split; try lia.
  - apply well_formed_heap_intro; try lia.
    + rewrite !length_insert. lia.
    + repeat apply Forall_insert_word;
        try apply allocate_words_ok; apply inline_word_range.
  - intros pos Hpos. cbn [bit heap_pointer stack_data].
    destruct (Z.lt_ge_cases pos 64).
    + destruct (div_mod_at pos 0 pos) as [-> ->]; try lia.
      change (Z.to_nat 0) with 0%nat.
      rewrite nth_insert by (rewrite length_insert; lia). cbn [Nat.eqb].
      rewrite nth_insert, Nat.eqb_refl by lia.
      apply inline_low_word_testbit. lia.
    + destruct (div_mod_at pos 1 (pos - 64)) as [-> ->]; try lia.
      change (Z.to_nat 1) with 1%nat.
      rewrite nth_insert, Nat.eqb_refl by (rewrite length_insert; lia).
      rewrite inline_high_word_testbit by lia. f_equal. lia.
Qed.

(** [grow_to_heap] from the empty inline vector: every word is the fill
    word. *)
Lemma grow_from_empty (s : stack_type) (count : Z) (value : bool) :
  stack_size s = 0 -> 120 < count <= max_size - block_digits ->
  exists h', grow_to_heap junk s count value = Some (Heap h')
    /\ well_formed (Heap h') = true
    /\ heap_size h' = count
    /\ forall pos, 0 <= pos < count -> bit (Heap h') pos = value.
Proof.
  intros Hs Hcount.
  destruct (count_fields count ltac:(lia)) as (H35 & Hround & Hw & Hle & Hlt & Hsm & Hcm).
  set (words := (count + 63) / 64) in *.
  unfold grow_to_heap. rewrite Hround, Hs. fold words. rewrite Hsm, Hcm.
  change (0 / block_digits) with 0. change (0 mod block_digits) with 0.
  cbn [Z.eqb mbind option_bind]. rewrite Z.sub_0_r.
  destruct (fill_loop (if value then block_mask else 0) (Z.to_nat words) 0
              (allocate junk words))
    as (q & Hq & Hlq & Hokq & Hnq); [rewrite allocate_length; lia|].
  change (Z.of_nat 0) with 0 in Hq. rewrite Hq. cbn [mbind option_bind].
  rewrite allocate_length in Hlq.
  eexists. split; [reflexivity|]. cbn [heap_size heap_capacity heap_pointer].
  repeat split; try lia.
  - apply well_formed_heap_intro; try lia.
    apply Hokq; [apply allocate_words_ok | apply fill_word_range].
  - intros pos Hpos. cbn [bit heap_pointer]. rewrite Hnq.
    pose proof (Z.div_mod pos 64 ltac:(lia)).
    pose proof (Z.mod_pos_bound pos 64 ltac:(lia)).
    assert (0 <= pos / 64 < words).
    { split; [apply Z.div_pos; lia | apply Z.div_lt_upper_bound; lia]. }
    destruct ((0 <=? Z.to_nat (pos / 64))%nat
              && (Z.to_nat (pos / 64) <? 0 + Z.to_nat words)%nat) eqn:E;
      bool_arith; try lia.
    apply fill_word_testbit. lia.
Qed.

(** [grow_to_heap] from a full inline vector (120 bits). *)
Lemma grow_from_full (s : stack_type) (count : Z) (value : bool) :
  well_formed (Stack s) = true -> stack_size s = 120 ->
  120 < count <= max_size - block_digits ->
  exists h', grow_to_heap junk s count value = Some (Heap h')
    /\ well_formed (Heap h') = true
    /\ heap_size h' = count
    /\ forall pos, 0 <= pos < count ->
         bit (Heap h') pos = if pos <? 120 then bit (Stack s) pos else value.
Proof.
  intros Hwf Hs Hcount. pose proof (well_formed_stack s Hwf) as [_ Hd].
  destruct (count_fields count ltac:(lia)) as (H35 & Hround & Hw & Hle & Hlt & Hsm & Hcm).
  set (words := (count + 63) / 64) in *.
  assert (Hw2 : 2 <= words).
  { unfold words. apply Z.div_le_lower_bound; lia. }
  pose proof (allocate_length junk words) as Hla.
  unfold grow_to_heap. rewrite Hround, Hs. fold words. rewrite Hsm, Hcm.
  change (120 / block_digits) with 1. change (120 mod block_digits) with 56.
  cbn [Z.eqb Pos.eqb]. rewrite (store_at _ 0) by lia.
  change (Z.to_nat 0) with 0%nat. cbn [mbind option_bind].
  rewrite shr_some by (unfold block_digits; lia). cbn [mbind option_bind].
  set (hi := Z.land (Z.shiftr (stack_data s) block_digits) block_mask).
  set (p1 := <[0%nat := Z.land (stack_data s) block_mask]> (allocate junk words)).
  assert (Hl1 : length p1 = Z.to_nat words) by (unfold p1; rewrite length_insert; lia).
  set (w1 := if value then Z.lor (wrap 64 (Z.shiftl block_mask 56)) hi else hi).
  assert (Hv : (if value
                then m ← shl 64 block_mask 56; Some (Z.lor m hi)
                else Some hi) = Some w1).
  { unfold w1. destruct value; reflexivity. }
  rewrite Hv. cbn [mbind option_bind].
  rewrite (store_at _ 1) by lia. change (Z.to_nat 1) with 1%nat.
  cbn [mbind option_bind]. change (1 + 1) with (Z.of_nat 2).
  replace (Z.to_nat (words - Z.of_nat 2)) with (Z.to_nat words - 2)%nat by lia.
  destruct (fill_loop (if value then block_mask else 0) (Z.to_nat words - 2) 2
              (<[1%nat := w1]> p1))
    as (q & Hq & Hlq & Hokq & Hnq); [rewrite length_insert; lia|].
  rewrite Hq. cbn [mbind option_bind]. rewrite length_insert in Hlq.
  assert (Hhi : 0 <= hi < 2 ^ 64) by apply inline_word_range.
  assert (Hw1 : 0 <= w1 < 2 ^ 64).
  { unfold w1. destruct value; [|assumption].
    apply lor_range; [lia | apply wrap_range; lia | assumption]. }
  eexists. split; [reflexivity|]. cbn [heap_size heap_capacity heap_pointer].
  repeat split; try lia.
  - apply well_formed_heap_intro; try lia.
    apply Hokq; [|apply fill_word_range].
    apply Forall_insert_word; [|assumption]. unfold p1.
    apply Forall_insert_word; [apply allocate_words_ok | apply inline_word_range].
  - intros pos Hpos. cbn [bit heap_pointer stack_data]. rewrite Hnq.
    destruct (Z.lt_ge_cases pos 64); [|destruct (Z.lt_ge_cases pos 128)].
    + destruct (div_mod_at pos 0 pos) as [-> ->]; try lia.
      change (Z.to_nat 0) with 0%nat. cbn [Nat.leb andb].
      rewrite nth_insert by lia. cbn [Nat.eqb]. unfold p1.
      rewrite nth_insert, Nat.eqb_refl by lia.
      rewrite inline_low_word_testbit by lia.
      destruct (Z.ltb_spec pos 120); [reflexivity | lia].
    + destruct (div_mod_at pos 1 (pos - 64)) as [-> ->]; try lia.
      change (Z.to_nat 1) with 1%nat. cbn [Nat.leb andb].
      rewrite nth_insert, Nat.eqb_refl by lia.
      assert (Hhib : Z.testbit hi (pos - 64) = Z.testbit (stack_data s) pos).
      { unfold hi. rewrite inline_high_word_testbit by lia. f_equal. lia. }
      assert (Hstale : 120 <= pos -> Z.testbit (stack_data s) pos = false).
      { intros Hp. apply (testbit_high_range 120); auto; lia. }
      unfold w1. destruct value.
      * rewrite Z.lor_spec, shifted_mask_testbit, Hhib by lia.
        destruct (Z.leb_spec 56 (pos - 64)), (Z.ltb_spec pos 120); try lia;
          cbn [orb]; auto.
      * rewrite Hhib. destruct (Z.ltb_spec pos 120); auto.
    + pose proof (Z.div_mod pos 64 ltac:(lia)).
      pose proof (Z.mod_pos_bound pos 64 ltac:(lia)).
      assert (2 <= pos / 64 < words).
      { split; [apply Z.div_le_lower_bound; lia | apply Z.div_lt_upper_bound; lia]. }
      destruct ((2 <=? Z.to_nat (pos / 64))%nat
                && (Z.to_nat (pos / 64) <? 2 + (Z.to_nat words - 2))%nat) eqn:E;
        bool_arith; try lia.
      rewrite fill_word_testbit by lia.
      destruct (Z.ltb_spec pos 120); [lia | reflexivity].
Qed.

End Promotion.

(** ** resize, push_back, pop_back, reserve and construction *)

(** The content after a resize to [count] that kept the old bits and set
    the new ones to [value]. *)
Lemma contents_resized (c c' : bvec) (count : Z) (value : bool) :
  0 <= size c -> 0 <= count -> size c' = count ->
  (forall pos, 0 <= pos < count ->
     bit c' pos = if pos <? size c then bit c pos else value) ->
  contents c' = take (Z.to_nat count) (contents c)
                ++ repeat value (Z.to_nat (count - size c)).
Proof.
  intros Hs Hc Hsz Hbits. apply contents_intro.
  - rewrite length_app, length_take, contents_length, repeat_length. lia.
  - intros i Hi.
    rewrite length_app, length_take, contents_length, repeat_length in Hi.
    rewrite Hbits by lia.
    destruct (Nat.lt_ge_cases i (Z.to_nat (size c))) as [Hlt|Hge].
    + rewrite app_nth1 by (rewrite length_take, contents_length; lia).
      rewrite nth_firstn. destruct (Nat.ltb_spec i (Z.to_nat count)); [|lia].
      rewrite contents_nth by assumption.
      destruct (Z.ltb_spec (Z.of_nat i) (size c)); [reflexivity | lia].
    + rewrite app_nth2 by (rewrite length_take, contents_length; lia).
      rewrite length_take, contents_length.
      rewrite nth_repeat_lt by lia.
      destruct (Z.ltb_spec (Z.of_nat i) (size c)); [lia | reflexivity].
Qed.

Lemma max_size_value : max_size - block_digits = 17179869120.
Proof. reflexivity. Qed.

Section Resizing.

Variable junk : nat -> Z.

(** X4: [resize] of a heap-backed vector is right when it reallocates,
    when it shrinks, and when it grows without leaving the current tail
    word: the first [count] bits of the old content are kept and the
    positions from the old size on take the fill value. *)
Theorem resize_on_heap (h : heap_type) (count : Z) (value : bool) :
  well_formed (Heap h) = true ->
  0 <= count <= max_size - block_digits ->
  block_round count > heap_capacity h \/ count <= 64 * (heap_size h / 64 + 1) ->
  exists c', resize junk (Heap h) count value = Some c'
    /\ well_formed c' = true /\ is_heap c' = true
    /\ size c' = count
    /\ contents c' = take (Z.to_nat count) (contents (Heap h))
                     ++ repeat value (Z.to_nat (count - heap_size h)).
Proof.
  intros Hwf Hcount Hscope.
  destruct (resize_heap_spec junk h count value Hwf Hcount Hscope)
    as (h' & Hr & Hwf' & Hsz & _ & Hbits).
  exists (Heap h'). repeat split; auto.
  apply contents_resized; auto; [apply (size_nonneg _ Hwf) | lia].
Qed.

(** X5: [resize] within the inline capacity keeps the first [count] bits
    and sets the newly exposed ones to the fill value; the vector stays
    inline. *)
Theorem resize_within_inline_capacity (s : stack_type) (count : Z) (value : bool) :
  well_formed (Stack s) = true -> 0 <= count <= stack_capacity ->
  exists c', resize junk (Stack s) count value = Some c'
    /\ well_formed c' = true /\ is_heap c' = false
    /\ size c' = count
    /\ contents c' = take (Z.to_nat count) (contents (Stack s))
                     ++ repeat value (Z.to_nat (count - stack_size s)).
Proof.
  intros Hwf Hcount.
  destruct (resize_inline junk s count value Hwf Hcount)
    as (s' & Hr & Hwf' & Hsz & Hbits).
  exists (Stack s'). repeat split; auto.
  apply contents_resized; auto; [apply (size_nonneg _ Hwf) | unfold stack_capacity in *; lia].
Qed.

Lemma push_back_spec (c : bvec) (value : bool) :
  well_formed c = true -> size c + 1 <= max_size - block_digits ->
  exists c', push_back junk c value = Some c'
    /\ well_formed c' = true /\ size c' = size c + 1
    /\ (is_heap c = true -> is_heap c' = true)
    /\ forall pos, 0 <= pos < size c + 1 ->
         bit c' pos = if pos <? size c then bit c pos else value.
Proof.
  intros Hwf Hmax. pose proof (size_nonneg c Hwf) as Hs.
  rewrite max_size_value in Hmax.
  unfold push_back. rewrite wrap_small by (rewrite pow2_64; lia).
  destruct c as [s|h]; cbn [size] in *.
  - pose proof (well_formed_stack s Hwf) as [Hsz Hd].
    destruct (Z.eq_dec (stack_size s) 120) as [E|E].
    + destruct (grow_from_full junk s (stack_size s + 1) value Hwf E)
        as (h' & Hr & Hwf' & Hsz' & Hbits); [rewrite max_size_value; lia|].
      exists (Heap h'). cbn [resize]. unfold stack_capacity. change (128 - 8) with 120.
      destruct (Z.gtb_spec (stack_size s + 1) 120); [|lia].
      repeat split; auto. rewrite E. rewrite E in Hbits. exact Hbits.
    + destruct (resize_inline junk s (stack_size s + 1) value Hwf)
        as (s' & Hr & Hwf' & Hsz' & Hbits); [lia|].
      exists (Stack s'). repeat split; auto.
  - pose proof (well_formed_heap h Hwf) as (Hsz & _).
    pose proof (Z.div_mod (heap_size h) 64 ltac:(lia)).
    pose proof (Z.mod_pos_bound (heap_size h) 64 ltac:(lia)).
    destruct (resize_heap_spec junk h (heap_size h + 1) value Hwf)
      as (h' & Hr & Hwf' & Hsz' & _ & Hbits);
      [rewrite max_size_value; lia | right; lia |].
    exists (Heap h'). repeat split; auto.
Qed.

Lemma push_back_contents (c : bvec) (value : bool) :
  well_formed c = true -> size c + 1 <= max_size - block_digits ->
  exists c', push_back junk c value = Some c'
    /\ well_formed c' = true
    /\ (is_heap c = true -> is_heap c' = true)
    /\ contents c' = contents c ++ [value].
Proof.
  intros Hwf Hmax. pose proof (size_nonneg c Hwf) as Hs.
  destruct (push_back_spec c value Hwf Hmax) as (c' & Hp & Hwf' & Hsz & Hh & Hbits).
  exists c'. repeat split; auto.
  rewrite (contents_resized c c' (size c + 1) value) by (auto; lia).
  rewrite take_ge by (rewrite contents_length; lia).
  replace (Z.to_nat (size c + 1 - size c)) with 1%nat by lia. reflexivity.
Qed.

(** X6: [push_back] appends one bit to any well-formed vector that is not
    yet at its size limit -- inline, at the inline limit (where the vector
    moves to the heap) or on the heap, with or without reallocation. *)
Theorem push_back_appends (c : bvec) (value : bool) :
  well_formed c = true -> size c + 1 <= max_size - block_digits ->
  exists c', push_back junk c value = Some c'
    /\ well_formed c' = true
    /\ contents c' = contents c ++ [value].
Proof.
  intros Hwf Hmax.
  destruct (push_back_contents c value Hwf Hmax) as (c' & Hp & Hwf' & _ & Hc).
  exists c'. auto.
Qed.

End Resizing.

Lemma push_back_appends_witness :
  exists c', push_back (fun _ => 0) (Stack (mk_stack 120 5)) true = Some c'
    /\ well_formed c' = true
    /\ contents c' = contents (Stack (mk_stack 120 5)) ++ [true].
Proof.
  apply (push_back_appends (fun _ => 0) (Stack (mk_stack 120 5)) true);
    [reflexivity | vm_compute; discriminate].
Defined.

Lemma resize_on_heap_witness :
  exists c', resize (fun _ => 0) (Heap (mk_heap 70 2 [5; 9])) 200 true = Some c'
    /\ well_formed c' = true /\ is_heap c' = true
    /\ size c' = 200
    /\ contents c' = take (Z.to_nat 200) (contents (Heap (mk_heap 70 2 [5; 9])))
                     ++ repeat true (Z.to_nat (200 - heap_size (mk_heap 70 2 [5; 9]))).
Proof.
  apply (resize_on_heap (fun _ => 0) (mk_heap 70 2 [5; 9]) 200 true);
    [reflexivity | vm_compute; split; discriminate | left; vm_compute; reflexivity].
Defined.

Lemma resize_within_inline_capacity_witness :
  exists c', resize (fun _ => 0) (Stack (mk_stack 5 22)) 100 true = Some c'
    /\ well_formed c' = true /\ is_heap c' = false
    /\ size c' = 100
    /\ contents c' = take (Z.to_nat 100) (contents (Stack (mk_stack 5 22)))
                     ++ repeat true (Z.to_nat (100 - stack_size (mk_stack 5 22))).
Proof.
  apply (resize_within_inline_capacity (fun _ => 0) (mk_stack 5 22) 100 true);
    [reflexivity | vm_compute; split; discriminate].
Defined.

Lemma pop_back_spec (c : bvec) :
  well_formed c = true -> 0 < size c ->
  well_formed (pop_back c) = true
  /\ size (pop_back c) = size c - 1
  /\ capacity (pop_back c) = capacity c
  /\ is_heap (pop_back c) = is_heap c
  /\ forall pos, bit (pop_back c) pos = bit c pos.
Proof.
  intros Hwf Hs. destruct c as [s|h]; cbn [size pop_back] in *.
  - pose proof (well_formed_stack s Hwf) as [Hsz Hd].
    rewrite wrap_small by lia. repeat split; auto.
    apply well_formed_stack_intro; [lia | assumption].
  - pose proof (well_formed_heap h Hwf) as (Hsz & Hcap & Hlen & _ & _ & Hall).
    pose proof (well_formed_heap_capacity h Hwf).
    rewrite wrap_small by lia. repeat split; auto.
    apply well_formed_heap_intro; auto; lia.
Qed.

(** X7: [pop_back] on a non-empty vector removes the last bit and keeps the
    others, the representation and the capacity. *)
Theorem pop_back_drops_last (c : bvec) :
  well_formed c = true -> 0 < size c ->
  well_formed (pop_back c) = true
  /\ capacity (pop_back c) = capacity c
  /\ contents (pop_back c) = take (Z.to_nat (size c - 1)) (contents c).
Proof.
  intros Hwf Hs. destruct (pop_back_spec c Hwf Hs) as (Hwf' & Hsz & Hcap & _ & Hb).
  repeat split; auto.
  rewrite <- (app_nil_r (take _ _)).
  replace [] with (repeat false (Z.to_nat (size c - 1 - size c)))
    by (replace (Z.to_nat (size c - 1 - size c)) with 0%nat by lia; reflexivity).
  apply contents_resized; auto; try lia.
  intros pos Hpos. rewrite Hb. destruct (Z.ltb_spec pos (size c)); [reflexivity | lia].
Qed.

Lemma pop_back_drops_last_witness :
  well_formed (pop_back (Heap (mk_heap 70 2 [5; 9]))) = true
  /\ capacity (pop_back (Heap (mk_heap 70 2 [5; 9])))
     = capacity (Heap (mk_heap 70 2 [5; 9]))
  /\ contents (pop_back (Heap (mk_heap 70 2 [5; 9])))
     = take (Z.to_nat (size (Heap (mk_heap 70 2 [5; 9])) - 1))
            (contents (Heap (mk_heap 70 2 [5; 9]))).
Proof.
  apply (pop_back_drops_last (Heap (mk_heap 70 2 [5; 9])));
    [reflexivity | vm_compute; reflexivity].
Defined.

Section Reserving.

Variable junk : nat -> Z.

Lemma reserve_spec (c : bvec) (n : Z) :
  well_formed c = true -> 0 <= n <= max_size - block_digits ->
  exists c', reserve junk c n = Some c'
    /\ well_formed c' = true
    /\ size c' = size c
    /\ n <= capacity c'
    /\ (is_heap c = true -> is_heap c' = true)
    /\ forall pos, 0 <= pos < size c -> bit c' pos = bit c pos.
Proof.
  intros Hwf Hn. unfold reserve.
  destruct (Z.leb_spec n (capacity c)) as [Hle|Hgt].
  { exists c. repeat split; auto. }
  destruct c as [s|h]; cbn [capacity size] in *.
  - pose proof (well_formed_stack s Hwf) as [Hsz Hd].
    unfold stack_capacity in Hgt.
    destruct (move_to_heap_spec junk s n Hwf) as (h' & Hm & Hwf' & Hsz' & Hc & Hb);
      [lia|].
    pose proof (well_formed_heap_capacity h' Hwf').
    pose proof (well_formed_heap h' Hwf') as (_ & Hcap' & _).
    exists (Heap h'). cbn [capacity size]. unfold block_digits.
    rewrite wrap_small by (rewrite pow2_64; lia).
    repeat split; auto; try lia. intros pos Hpos. apply Hb. lia.
  - pose proof (well_formed_heap h Hwf) as (Hsz & Hcap & Hlen & _ & _ & Hall).
    pose proof (well_formed_heap_capacity h Hwf) as Hc28.
    unfold block_digits in Hgt. rewrite wrap_small in Hgt by (rewrite pow2_64; lia).
    destruct (count_fields n Hn) as (H35 & Hround & Hw & Hle & Hlt & Hsm & Hcm).
    set (words := (n + 63) / 64) in *.
    unfold reserve_heap. rewrite Hround. fold words. rewrite Hcm.
    destruct (Z.eqb_spec words (heap_capacity h)); [lia|].
    rewrite memcpy_words_prefix by (rewrite ?allocate_length; lia).
    cbn [mbind option_bind].
    eexists. split; [reflexivity|]. cbn [capacity size heap_size heap_capacity].
    unfold block_digits. rewrite wrap_small by (rewrite pow2_64; lia).
    repeat split; auto; try lia.
    + apply well_formed_heap_intro; try lia.
      * rewrite prefix_copy_length by (rewrite ?allocate_length; lia).
        rewrite allocate_length. lia.
      * apply prefix_copy_ok; [assumption | apply allocate_words_ok].
    + intros pos Hpos. cbn [bit heap_pointer].
      rewrite prefix_copy_nth by lia.
      assert (0 <= pos / 64 < heap_capacity h).
      { split; [apply Z.div_pos; lia | apply Z.div_lt_upper_bound; lia]. }
      destruct (Nat.ltb_spec (Z.to_nat (pos / 64)) (Z.to_nat (heap_capacity h)));
        [reflexivity | lia].
Qed.

(** X8: [reserve(n)] gives a capacity of at least [n] and changes neither
    the size nor any bit; a second [reserve(n)] changes nothing at all. *)
Theorem reserve_keeps_content (c : bvec) (n : Z) :
  well_formed c = true -> 0 <= n <= max_size - block_digits ->
  exists c', reserve junk c n = Some c'
    /\ well_formed c' = true
    /\ n <= capacity c'
    /\ contents c' = contents c
    /\ reserve junk c' n = Some c'.
Proof.
  intros Hwf Hn.
  destruct (reserve_spec c n Hwf Hn) as (c' & Hr & Hwf' & Hsz & Hcap & _ & Hb).
  exists c'. repeat split; auto.
  - apply contents_same; auto. intros pos Hpos. apply Hb. lia.
  - unfold reserve. destruct (Z.leb_spec n (capacity c')); [reflexivity | lia].
Qed.

Lemma assign_count_contents (count : Z) (value : bool) :
  0 <= count <= max_size - block_digits ->
  exists c, assign_count junk count value = Some c
    /\ well_formed c = true
    /\ is_heap c = (stack_capacity <? count)
    /\ contents c = repeat value (Z.to_nat count).
Proof.
  intros Hcount. unfold assign_count, empty_bvec. cbn [resize].
  unfold stack_capacity. change (128 - 8) with 120.
  destruct (Z.gtb_spec count 120) as [Hgt|Hle].
  - destruct (grow_from_empty junk (mk_stack 0 0) count value eq_refl)
      as (h' & Hg & Hwf' & Hsz & Hb); [lia|].
    exists (Heap h'). repeat split; auto.
    + cbn [is_heap]. symmetry. apply Z.ltb_lt. lia.
    + rewrite (contents_resized empty_bvec (Heap h') count value); try (cbn; lia); auto.
      * cbn [size empty_bvec stack_size]. rewrite Z.sub_0_r.
        destruct (Z.to_nat count); reflexivity.
      * intros pos Hpos. rewrite Hb by assumption. cbn.
        destruct (Z.ltb_spec pos 0); [lia | reflexivity].
  - assert (Hwf0 : well_formed (Stack (mk_stack 0 0)) = true) by reflexivity.
    destruct (resize_inline junk (mk_stack 0 0) count value Hwf0)
      as (s' & Hr & Hwf' & Hsz & Hb); [lia|].
    cbn [resize] in Hr. unfold stack_capacity in Hr. change (128 - 8) with 120 in Hr.
    destruct (Z.gtb_spec count 120); [lia|].
    exists (Stack s'). repeat split; auto.
    + cbn [is_heap]. symmetry. apply Z.ltb_ge. lia.
    + rewrite (contents_resized empty_bvec (Stack s') count value); try (cbn; lia); auto.
      cbn [size empty_bvec stack_size]. rewrite Z.sub_0_r.
      destruct (Z.to_nat count); reflexivity.
Qed.

(** X9: [bvec(count, value)] and [assign(count, value)] give a vector of
    [count] bits all equal to [value]; it is inline exactly when [count]
    fits the inline capacity. *)
Theorem assign_count_fills (count : Z) (value : bool) :
  0 <= count <= max_size - block_digits ->
  exists c, assign_count junk count value = Some c
    /\ well_formed c = true
    /\ is_heap c = (stack_capacity <? count)
    /\ contents c = repeat value (Z.to_nat count).
Proof. apply assign_count_contents. Qed.

Lemma clear_spec (c : bvec) :
  well_formed c = true ->
  well_formed (clear c) = true /\ size (clear c) = 0
  /\ is_heap (clear c) = is_heap c.
Proof.
  intros Hwf. destruct c as [s|h]; cbn [clear size is_heap].
  - pose proof (well_formed_stack s Hwf) as [Hsz Hd].
    repeat split. apply well_formed_stack_intro; [lia | assumption].
  - pose proof (well_formed_heap h Hwf) as (Hsz & Hcap & Hlen & _ & _ & Hall).
    pose proof (well_formed_heap_capacity h Hwf).
    repeat split. apply well_formed_heap_intro; auto; lia.
Qed.

Lemma push_back_all_spec (values : list bool) : forall c : bvec,
  well_formed c = true ->
  size c + Z.of_nat (length values) <= max_size - block_digits ->
  exists c', push_back_all junk c values = Some c'
    /\ well_formed c' = true
    /\ (is_heap c = true -> is_heap c' = true)
    /\ contents c' = contents c ++ values.
Proof.
  induction values as [|v rest IH]; intros c Hwf Hmax.
  - exists c. rewrite app_nil_r. repeat split; auto.
  - cbn [length] in Hmax. cbn [push_back_all].
    pose proof (size_nonneg c Hwf) as Hs.
    destruct (push_back_contents junk c v Hwf) as (c1 & Hp & Hwf1 & Hh1 & Hc1); [lia|].
    assert (Hsz1 : size c1 = size c + 1).
    { apply (f_equal (@length bool)) in Hc1.
      rewrite length_app, !contents_length in Hc1. cbn [length] in Hc1.
      pose proof (size_nonneg c1 Hwf1). lia. }
    rewrite Hp. cbn [mbind option_bind].
    destruct (IH c1 Hwf1) as (c' & Hall & Hwf' & Hh' & Hc'); [lia|].
    exists c'. repeat split; auto.
    rewrite Hc', Hc1, <- app_assoc. reflexivity.
Qed.

End Reserving.

Section ListConstruction.

Variable junk : nat -> Z.

(** X10: [assign] from a range of plain values (and from an initializer
    list, and the constructors built on it) replaces the content by exactly
    the given bits, crossing the inline limit when the list is longer than
    the inline capacity; a heap-backed vector stays heap-backed. *)
Theorem assign_list_gives_the_list (c : bvec) (init : list bool) :
  well_formed c = true ->
  Z.of_nat (length init) <= max_size - block_digits ->
  exists c', assign_list junk c init = Some c'
    /\ well_formed c' = true
    /\ (is_heap c = true -> is_heap c' = true)
    /\ contents c' = init.
Proof.
  intros Hwf Hlen. destruct (clear_spec c Hwf) as (Hwf0 & Hs0 & Hh0).
  destruct (push_back_all_spec junk init (clear c) Hwf0)
    as (c' & Hp & Hwf' & Hh & Hc); [lia|].
  exists c'. unfold assign_list. repeat split; auto.
  - intros H. apply Hh. rewrite Hh0. exact H.
  - rewrite Hc. unfold contents at 1. rewrite Hs0. reflexivity.
Qed.

End ListConstruction.

Lemma assign_list_gives_the_list_witness :
  exists c', assign_list (fun _ => 0) (Stack (mk_stack 5 22))
               (repeat true 121 ++ [false; true]) = Some c'
    /\ well_formed c' = true
    /\ (is_heap (Stack (mk_stack 5 22)) = true -> is_heap c' = true)
    /\ contents c' = repeat true 121 ++ [false; true].
Proof.
  apply (assign_list_gives_the_list (fun _ => 0) (Stack (mk_stack 5 22))
           (repeat true 121 ++ [false; true]));
    [reflexivity | vm_compute; discriminate].
Defined.

Lemma reserve_keeps_content_witness :
  exists c', reserve (fun _ => 0) (Stack (mk_stack 5 22)) 200 = Some c'
    /\ well_formed c' = true
    /\ 200 <= capacity c'
    /\ contents c' = contents (Stack (mk_stack 5 22))
    /\ reserve (fun _ => 0) c' 200 = Some c'.
Proof.
  apply (reserve_keeps_content (fun _ => 0) (Stack (mk_stack 5 22)) 200);
    [reflexivity | vm_compute; split; discriminate].
Defined.

Lemma assign_count_fills_witness :
  exists c, assign_count (fun _ => 0) 130 true = Some c
    /\ well_formed c = true
    /\ is_heap c = (stack_capacity <? 130)
    /\ contents c = repeat true (Z.to_nat 130).
Proof.
  apply (assign_count_fills (fun _ => 0) 130 true).
  vm_compute; split; discriminate.
Defined.

(** ** Equality decides equality of contents *)

Lemma eq_loop_defined (a b : bvec) (n : nat) : forall i : nat,
  well_formed a = true -> well_formed b = true ->
  Z.of_nat (i + n) <= size a -> Z.of_nat (i + n) <= size b ->
  exists r, eq_loop a b n (Z.of_nat i) = Some r.
Proof.
  induction n as [|n IH]; intros i Ha Hb Hna Hnb.
  - exists true. reflexivity.
  - cbn [eq_loop]. rewrite !get_at_bit by (auto; lia). cbn [mbind option_bind].
    destruct (xorb (bit a (Z.of_nat i)) (bit b (Z.of_nat i))); [exists false; reflexivity|].
    replace (Z.of_nat i + 1) with (Z.of_nat (S i)) by lia.
    apply IH; auto; lia.
Qed.

(** X11: for two well-formed vectors of fewer than [2^32] bits,
    [operator==] returns, and returns [true] exactly when the two contents
    are the same list of bits -- whatever the two representations. *)
Theorem bvec_eq_decides_contents (a b : bvec) :
  well_formed a = true -> well_formed b = true -> size a < 2 ^ 32 ->
  exists r, bvec_eq a b = Some r /\ (r = true <-> contents a = contents b).
Proof.
  intros Ha Hb H32.
  pose proof (size_nonneg a Ha) as Hsa. pose proof (size_nonneg b Hb) as Hsb.
  unfold bvec_eq. destruct (Z.eqb_spec (size a) (size b)) as [Es|Es]; cbn [negb].
  - destruct (Z.ltb_spec (size a) (2 ^ 32)); [|lia].
    destruct (eq_loop_defined a b (Z.to_nat (size a)) 0 Ha Hb) as [r Hr]; try lia.
    exists r. split; [exact Hr|]. split.
    + intros ->. apply contents_same; [exact Es|]. intros pos Hpos.
      replace pos with (Z.of_nat (Z.to_nat pos)) by lia.
      apply (eq_loop_true a b (Z.to_nat (size a)) 0 Ha Hb); try lia. exact Hr.
    + intros Ec. destruct (contents_eq_bits a b Ec) as [_ Hbits].
      assert (Ht : eq_loop a b (Z.to_nat (size a)) (Z.of_nat 0) = Some true).
      { apply eq_loop_same; auto; try lia. intros j Hj. apply Hbits. lia. }
      rewrite Hr in Ht. injection Ht as ->. reflexivity.
  - exists false. split; [reflexivity|]. split; [discriminate|].
    intros Ec. exfalso. apply Es.
    apply (f_equal (@length bool)) in Ec. rewrite !contents_length in Ec. lia.
Qed.

Lemma bvec_eq_decides_contents_witness :
  exists r, bvec_eq (Stack (mk_stack 5 22)) (Heap (mk_heap 5 2 [2 ^ 63 + 22; 7])) = Some r
    /\ (r = true <->
        contents (Stack (mk_stack 5 22)) = contents (Heap (mk_heap 5 2 [2 ^ 63 + 22; 7]))).
Proof.
  apply (bvec_eq_decides_contents
           (Stack (mk_stack 5 22)) (Heap (mk_heap 5 2 [2 ^ 63 + 22; 7])));
    reflexivity.
Defined.

(** ** Erasing on the inline representation *)

(** The content after the bits [[first, last)] were cut out. *)
Lemma contents_spliced (c c' : bvec) (first last : Z) :
  0 <= first <= last -> last <= size c ->
  size c' = size c - (last - first) ->
  (forall i, 0 <= i < size c - (last - first) ->
     bit c' i = if i <? first then bit c i else bit c (i + (last - first))) ->
  contents c' = take (Z.to_nat first) (contents c) ++ drop (Z.to_nat last) (contents c).
Proof.
  intros Hfl Hlast Hsz Hbits. apply contents_intro.
  - rewrite length_app, length_take, length_drop, contents_length. lia.
  - intros i Hi.
    rewrite length_app, length_take, length_drop, contents_length in Hi.
    rewrite Hbits by lia.
    destruct (Z.ltb_spec (Z.of_nat i) first).
    + rewrite app_nth1 by (rewrite length_take, contents_length; lia).
      rewrite nth_firstn. destruct (Nat.ltb_spec i (Z.to_nat first)); [|lia].
      apply contents_nth. lia.
    + rewrite app_nth2 by (rewrite length_take, contents_length; lia).
      rewrite length_take, contents_length, nth_skipn.
      rewrite contents_nth by lia. f_equal. lia.
Qed.

Lemma erase_inline_contents (s : stack_type) (pos : Z) :
  well_formed (Stack s) = true -> 0 <= pos < stack_size s ->
  exists s', erase (Stack s) pos = Some (Stack s')
    /\ well_formed (Stack s') = true
    /\ stack_size s' = stack_size s - 1
    /\ contents (Stack s')
       = take (Z.to_nat pos) (contents (Stack s))
         ++ drop (S (Z.to_nat pos)) (contents (Stack s)).
Proof.
  intros Hwf Hpos.
  destruct (erase_inline s pos Hwf Hpos) as (s' & He & Hwf' & Hsz & Hbits).
  exists s'. repeat split; auto.
  replace (S (Z.to_nat pos)) with (Z.to_nat (pos + 1)) by lia.
  apply contents_spliced; cbn [size]; try lia.
  intros i Hi. replace (i + (pos + 1 - pos)) with (i + 1) by lia.
  apply Hbits. lia.
Qed.

(** X12: on an inline vector [erase(pos)] at a valid position removes
    exactly that bit: the result is [b[0..pos)] followed by [b[pos+1..n)],
    one bit shorter. *)
Theorem erase_on_inline_vector (s : stack_type) (pos : Z) :
  well_formed (Stack s) = true -> 0 <= pos < stack_size s ->
  exists c', erase (Stack s) pos = Some c'
    /\ well_formed c' = true /\ is_heap c' = false
    /\ size c' = stack_size s - 1
    /\ contents c'
       = take (Z.to_nat pos) (contents (Stack s))
         ++ drop (S (Z.to_nat pos)) (contents (Stack s)).
Proof.
  intros Hwf Hpos.
  destruct (erase_inline_contents s pos Hwf Hpos) as (s' & He & Hwf' & Hsz & Hc).
  exists (Stack s'). repeat split; auto.
Qed.

Lemma erase_on_inline_vector_witness :
  exists c', erase (Stack (mk_stack 5 22)) 1 = Some c'
    /\ well_formed c' = true /\ is_heap c' = false
    /\ size c' = stack_size (mk_stack 5 22) - 1
    /\ contents c'
       = take (Z.to_nat 1) (contents (Stack (mk_stack 5 22)))
         ++ drop (S (Z.to_nat 1)) (contents (Stack (mk_stack 5 22))).
Proof.
  apply (erase_on_inline_vector (mk_stack 5 22) 1);
    [reflexivity | vm_compute; split; [discriminate | reflexivity]].
Defined.

(** X13: on an inline vector [erase(first, last)] with
    [0 <= first <= last <= n] gives [b[0..first)] followed by [b[last..n)];
    the empty range changes nothing and [last = n] truncates. *)
Theorem erase_range_on_inline_vector (s : stack_type) (first last : Z) :
  well_formed (Stack s) = true -> 0 <= first <= last -> last <= stack_size s ->
  exists c', erase_range (Stack s) first last = Some c'
    /\ well_formed c' = true /\ is_heap c' = false
    /\ size c' = stack_size s - (last - first)
    /\ contents c'
       = take (Z.to_nat first) (contents (Stack s))
         ++ drop (Z.to_nat last) (contents (Stack s)).
Proof.
  intros Hwf Hfl Hlast.
  destruct (erase_range_inline s first last Hwf Hfl Hlast)
    as (s' & He & Hwf' & Hsz & Hbits).
  exists (Stack s'). repeat split; auto.
  apply contents_spliced; cbn [size]; auto.
Qed.

Lemma erase_range_on_inline_vector_witness :
  exists c', erase_range (Stack (mk_stack 5 22)) 1 3 = Some c'
    /\ well_formed c' = true /\ is_heap c' = false
    /\ size c' = stack_size (mk_stack 5 22) - (3 - 1)
    /\ contents c'
       = take (Z.to_nat 1) (contents (Stack (mk_stack 5 22)))
         ++ drop (Z.to_nat 3) (contents (Stack (mk_stack 5 22))).
Proof.
  apply (erase_range_on_inline_vector (mk_stack 5 22) 1 3);
    [reflexivity | lia | vm_compute; discriminate].
Defined.

Lemma contents_lookup (c : bvec) (i : nat) :
  (i < Z.to_nat (size c))%nat -> contents c !! i = Some (bit c (Z.of_nat i)).
Proof.
  intros Hi. destruct (lookup_lt_is_Some_2 (contents c) i) as [x Hx].
  { rewrite contents_length. exact Hi. }
  rewrite Hx. f_equal. rewrite <- (contents_nth c i Hi).
  symmetry. apply nth_lookup_Some. exact Hx.
Qed.

Lemma filter_partition_length {A : Type} (f : A -> bool) (l : list A) :
  (length (List.filter f l) + length (List.filter (fun x => negb (f x)) l)
   = length l)%nat.
Proof.
  induction l as [|x l IH]; [reflexivity|].
  cbn [List.filter]. destruct (f x); cbn [negb length]; lia.
Qed.

(** The loop of [std::erase_if] on an inline vector keeps the bits before
    the iterator and filters the others. *)
Lemma erase_if_loop_inline_contents (pred : bool -> bool) (fuel : nat) :
  forall (s : stack_type) (iter : nat),
  well_formed (Stack s) = true -> Z.of_nat iter <= stack_size s ->
  stack_size s - Z.of_nat iter < Z.of_nat fuel ->
  exists s', erase_if_loop fuel pred (Stack s) (Z.of_nat iter) = Returns (Stack s')
    /\ well_formed (Stack s') = true
    /\ contents (Stack s')
       = take iter (contents (Stack s))
         ++ List.filter (fun b => negb (pred b)) (drop iter (contents (Stack s))).
Proof.
  induction fuel as [|k IH]; intros s iter Hwf Hiter Hfuel.
  - lia.
  - pose proof (well_formed_stack s Hwf) as [Hs Hd].
    assert (E31 : 2 ^ 31 = 2147483648) by reflexivity.
    cbn [erase_if_loop size]. rewrite to_int_small by lia.
    destruct (Z.eqb_spec (Z.of_nat iter) (stack_size s)) as [E|E].
    + exists s. repeat split; auto.
      rewrite take_ge, drop_ge by (rewrite contents_length; cbn [size]; lia).
      cbn [List.filter]. rewrite app_nil_r. reflexivity.
    + rewrite wrap_small by (rewrite pow2_64; lia).
      rewrite get_at_bit by (auto; cbn [size]; lia).
      assert (Hl : contents (Stack s) !! iter = Some (bit (Stack s) (Z.of_nat iter))).
      { apply contents_lookup. cbn [size]. lia. }
      rewrite (drop_S _ _ _ Hl). cbn [List.filter].
      destruct (pred (bit (Stack s) (Z.of_nat iter))); cbn [negb].
      * destruct (erase_inline_contents s (Z.of_nat iter) Hwf)
          as (s1 & He & Hwf1 & Hsz1 & Hc1); [lia|].
        rewrite He. rewrite Nat2Z.id in Hc1.
        destruct (IH s1 iter Hwf1) as (s' & Hl' & Hwf' & Hc'); try lia.
        exists s'. repeat split; auto. rewrite Hc', Hc1.
        assert (Hlt : length (take iter (contents (Stack s))) = iter).
        { rewrite length_take, contents_length. cbn [size]. lia. }
        rewrite take_app_length', drop_app_length' by auto. reflexivity.
      * replace (Z.of_nat iter + 1) with (Z.of_nat (S iter)) by lia.
        destruct (IH s (S iter) Hwf) as (s' & Hl' & Hwf' & Hc'); try lia.
        exists s'. repeat split; auto. rewrite Hc'.
        rewrite (take_S_r _ _ _ Hl), <- app_assoc. reflexivity.
Qed.

(** X14: on an inline vector [std::erase_if(c, pred)] returns after at
    most [size + 1] turns of its loop; it leaves exactly the bits that do
    not satisfy [pred], in their order, and returns the number of bits it
    removed. *)
Theorem erase_if_on_inline_vector (pred : bool -> bool) (s : stack_type) (fuel : nat) :
  well_formed (Stack s) = true -> stack_size s < Z.of_nat fuel ->
  exists c', std_erase_if fuel pred (Stack s)
             = Returns (c', Z.of_nat (length (List.filter pred (contents (Stack s)))))
    /\ well_formed c' = true
    /\ contents c' = List.filter (fun b => negb (pred b)) (contents (Stack s)).
Proof.
  intros Hwf Hfuel. pose proof (well_formed_stack s Hwf) as [Hs Hd].
  destruct (erase_if_loop_inline_contents pred fuel s 0 Hwf)
    as (s' & Hl & Hwf' & Hc); try lia.
  rewrite take_0, drop_0 in Hc. cbn [app] in Hc. change (Z.of_nat 0) with 0 in Hl.
  exists (Stack s'). unfold std_erase_if. rewrite Hl. repeat split; auto.
  do 2 f_equal. cbn [size].
  pose proof (filter_partition_length pred (contents (Stack s))) as Hp.
  rewrite <- Hc, !contents_length in Hp. cbn [size] in Hp.
  pose proof (well_formed_stack s' Hwf') as [Hs' _].
  rewrite wrap_small by (rewrite pow2_64; lia). lia.
Qed.

Lemma erase_if_on_inline_vector_witness :
  exists c', std_erase_if 6 negb (Stack (mk_stack 5 22))
             = Returns (c', Z.of_nat (length (List.filter negb (contents (Stack (mk_stack 5 22))))))
    /\ well_formed c' = true
    /\ contents c' = List.filter (fun b => negb (negb b)) (contents (Stack (mk_stack 5 22))).
Proof.
  apply (erase_if_on_inline_vector negb (mk_stack 5 22) 6);
    [reflexivity | vm_compute; reflexivity].
Defined.

Section InlineCopy.

Variable junk : nat -> Z.

(** X15: copying an inline vector (copy constructor, copy assignment,
    [assign(other.begin(), other.end())]) gives the same vector, and
    [operator==] finds the copy equal to the source. *)
Theorem copy_of_inline_vector (s : stack_type) :
  well_formed (Stack s) = true ->
  exists c', copy junk (Stack s) = Some c'
    /\ contents c' = contents (Stack s)
    /\ bvec_eq c' (Stack s) = Some true.
Proof.
  intros Hwf. destruct (copy_inline junk s Hwf) as [Hc He].
  exists (Stack s). auto.
Qed.

End InlineCopy.

Lemma copy_of_inline_vector_witness :
  exists c', copy (fun _ => 0) (Stack (mk_stack 5 22)) = Some c'
    /\ contents c' = contents (Stack (mk_stack 5 22))
    /\ bvec_eq c' (Stack (mk_stack 5 22)) = Some true.
Proof.
  apply (copy_of_inline_vector (fun _ => 0) (mk_stack 5 22)). reflexivity.
Defined.

(** ** bvec_cast *)

Lemma chunk_value_range (d : Z) (c : bvec) (i : Z) :
  0 <= d -> 0 <= chunk_value d c i < 2 ^ d.
Proof.
  intros Hd. unfold chunk_value.
  match goal with |- _ <= number ?l < _ => pose proof (number_range l) as H end.
  rewrite length_map, length_seq, Z2Nat.id in H by assumption. exact H.
Qed.

Lemma chunk_value_testbit (d : Z) (c : bvec) (i j : Z) :
  0 <= j < d ->
  Z.testbit (chunk_value d c i) j = (d * i + j <? size c) && bit c (d * i + j).
Proof.
  intros Hj. unfold chunk_value.
  replace j with (Z.of_nat (Z.to_nat j)) at 1 by lia.
  rewrite number_testbit. set (f := fun j0 : nat => _).
  rewrite (nth_indep _ false (f 0%nat)) by (rewrite length_map, length_seq; lia).
  rewrite map_nth, seq_nth by lia. unfold f. cbv zeta.
  rewrite Nat.add_0_l, Z2Nat.id by lia. reflexivity.
Qed.

(** The mask of [cast] for chunks of [d] bits. *)
Lemma cast_mask_chunk (d sz pos : Z) :
  0 < d <= 64 -> 0 <= pos -> d * pos < sz ->
  exists mask,
    (if pos =? sz / d
     then shr 64 block_mask (wrap 64 (64 - sz mod d))
     else Some block_mask) = Some mask
    /\ forall j, 0 <= j < d -> Z.testbit mask j = (d * pos + j <? sz).
Proof.
  intros Hd Hpos Hlt.
  pose proof (Z.div_mod sz d ltac:(lia)) as Hdm.
  pose proof (Z.mod_pos_bound sz d ltac:(lia)) as Hmod.
  destruct (Z.eqb_spec pos (sz / d)) as [E|E].
  - rewrite <- E in Hdm. assert (Hb : 0 < sz mod d) by lia.
    eexists. split.
    + rewrite wrap_small by (rewrite pow2_64; lia). apply shr_some. lia.
    + intros j Hj. rewrite Z.shiftr_spec, block_mask_testbit by lia.
      destruct (Z.ltb_spec (j + (64 - sz mod d)) 64),
        (Z.ltb_spec (d * pos + j) sz); auto; lia.
  - exists block_mask. split; [reflexivity|].
    intros j Hj. rewrite block_mask_testbit by lia.
    assert (pos < sz / d).
    { assert (pos <= sz / d) by (apply Z.div_le_lower_bound; lia). lia. }
    assert (d * (pos + 1) <= d * (sz / d)) by (apply Z.mul_le_mono_nonneg_l; lia).
    destruct (Z.ltb_spec j 64), (Z.ltb_spec (d * pos + j) sz); auto; lia.
Qed.

Lemma cast_chunk_value (d : Z) (c : bvec) (pos mask v : Z) :
  0 < d <= 64 ->
  (forall j, 0 <= j < d -> Z.testbit mask j = (d * pos + j <? size c)) ->
  (forall j, 0 <= j < d -> Z.testbit v j = bit c (d * pos + j)) ->
  wrap d (Z.land v mask) = chunk_value d c pos.
Proof.
  intros Hd Hmask Hv. apply Z.bits_inj'. intros j Hj.
  destruct (Z.lt_ge_cases j d).
  - rewrite wrap_testbit_low, Z.land_spec, Hv, Hmask, chunk_value_testbit by lia.
    apply andb_comm.
  - rewrite wrap_testbit_high by lia. symmetry.
    apply (testbit_high_range d); [apply chunk_value_range | ]; lia.
Qed.

(** Reading chunk [pos] of [d] bits from the word array: [per] chunks make
    one word. *)
Lemma load_as_chunk (h : heap_type) (d per pos : Z) :
  well_formed (Heap h) = true ->
  0 < d -> 0 < per -> block_digits / d = per -> d * per = 64 ->
  0 <= pos -> d * pos < heap_size h ->
  exists v, load_as d (heap_pointer h) pos = Some v
    /\ forall j, 0 <= j < d -> Z.testbit v j = bit (Heap h) (d * pos + j).
Proof.
  intros Hwf Hd Hper Eper E64 Hpos Hlt.
  pose proof (well_formed_heap h Hwf) as (Hsz & Hcap & Hlen & _).
  pose proof (Z.div_mod pos per ltac:(lia)) as Hdm.
  pose proof (Z.mod_pos_bound pos per ltac:(lia)) as Hm.
  set (q := pos / per) in *. set (r := pos mod per) in *.
  assert (Hq : 0 <= q) by (unfold q; apply Z.div_pos; lia).
  assert (Hdr : 0 <= d * r <= 64 - d) by nia.
  assert (Hdp : d * pos = 64 * q + d * r) by nia.
  unfold load_as. rewrite Eper. fold q. fold r.
  rewrite load_nth by nia. cbn [mbind option_bind].
  eexists. split; [reflexivity|].
  intros j Hj. rewrite wrap_testbit_low, Z.shiftr_spec by lia. cbn [bit].
  destruct (div_mod_at (d * pos + j) q (d * r + j)) as [-> ->]; try lia.
  f_equal. lia.
Qed.

Lemma cast_chunk (digits : Z) (c : bvec) (pos : Z) :
  well_formed c = true ->
  digits = 8 \/ digits = 16 \/ digits = 32 \/ digits = 64 ->
  0 <= pos -> digits * pos < size c ->
  cast digits c pos = Some (chunk_value digits c pos).
Proof.
  intros Hwf Hd Hpos Hlt.
  assert (Hd64 : 0 < digits <= 64) by lia.
  destruct (cast_mask_chunk digits (size c) pos Hd64 Hpos Hlt) as (mask & Hmask & Hbits).
  unfold cast. rewrite Hmask. cbn [mbind option_bind].
  destruct c as [s|h]; cbn [size] in *.
  - pose proof (well_formed_stack s Hwf) as [Hsz Hdata].
    rewrite wrap_small by (rewrite pow2_64; lia).
    rewrite shr_some by lia. cbn [mbind option_bind]. f_equal.
    apply cast_chunk_value; auto.
    intros j Hj. rewrite Z.shiftr_spec by lia. cbn [bit]. f_equal. lia.
  - assert (Hper : exists per, 0 < per /\ block_digits / digits = per /\ digits * per = 64).
    { destruct Hd as [->|[->|[->| ->]]];
        [exists 8 | exists 4 | exists 2 | exists 1]; repeat split; lia. }
    destruct Hper as (per & Hper & Eper & E64).
    destruct (load_as_chunk h digits per pos Hwf) as (v & Hv & Hvb); auto; try lia.
    rewrite Hv. cbn [mbind option_bind]. f_equal.
    apply cast_chunk_value; auto.
Qed.

Lemma cast_reads_chunk_aux (c : bvec) (pos : Z) :
  well_formed c = true -> 0 <= pos -> 32 * pos < size c ->
  cast 32 c pos = Some (chunk_value 32 c pos).
Proof. intros Hwf Hp Hl. apply cast_chunk; auto. Qed.

(** X16: for an unsigned [T] of 8, 16, 32 or 64 bits and a chunk index
    [pos] that starts below [size], [bvec_cast<T>(c, pos)] is chunk [pos] of
    the content with the positions beyond [size] cleared, on both
    representations. *)
Theorem cast_reads_chunk (digits : Z) (c : bvec) (pos : Z) :
  well_formed c = true ->
  digits = 8 \/ digits = 16 \/ digits = 32 \/ digits = 64 ->
  0 <= pos -> digits * pos < size c ->
  cast digits c pos = Some (chunk_value digits c pos).
Proof. apply cast_chunk. Qed.

Lemma cast_reads_chunk_witness :
  cast 32 (Heap (mk_heap 70 2 [5; 9])) 2
  = Some (chunk_value 32 (Heap (mk_heap 70 2 [5; 9])) 2).
Proof.
  apply (cast_reads_chunk 32 (Heap (mk_heap 70 2 [5; 9])) 2);
    [reflexivity | right; right; left; reflexivity | lia | vm_compute; reflexivity].
Defined.

(** X17: when [size] is a multiple of the width of [T] -- in particular on
    an empty vector -- [bvec_cast<T>(c, size / digits)] shifts its mask by
    the full 64 bits and has no defined result. *)
Theorem cast_at_the_end_is_undefined (digits : Z) (c : bvec) :
  size c mod digits = 0 ->
  cast digits c (size c / digits) = None.
Proof.
  intros Hm. unfold cast. rewrite Z.eqb_refl, Hm.
  change (wrap 64 (64 - 0)) with 64. reflexivity.
Qed.

Lemma cast_at_the_end_is_undefined_witness :
  cast 64 empty_bvec (size empty_bvec / 64) = None.
Proof.
  apply (cast_at_the_end_is_undefined 64 empty_bvec). reflexivity.
Defined.

(** ** std::erase on vectors of at most 32 bits *)

Lemma count_set (g : nat -> bool) (n : nat) : forall lo : nat,
  fold_right (fun i acc => (if g i then 1 else 0) + acc) 0 (seq lo n)
  = Z.of_nat (length (List.filter (fun b : bool => b) (map g (seq lo n)))).
Proof.
  induction n as [|n IH]; intros lo; [reflexivity|].
  cbn [seq fold_right map List.filter]. rewrite IH.
  destruct (g lo); cbn [length]; lia.
Qed.

Lemma filter_all_false (g : nat -> bool) (l : list nat) :
  (forall i, In i l -> g i = false) ->
  List.filter (fun b : bool => b) (map g l) = [].
Proof.
  induction l as [|x l IH]; intros H; [reflexivity|].
  cbn [map List.filter]. rewrite (H x) by (left; reflexivity).
  apply IH. intros i Hi. apply H. right. exact Hi.
Qed.

(** The population count of the first 32-bit chunk of a vector of at most
    32 bits is the number of its set bits. *)
Lemma popcount_first_chunk (c : bvec) :
  0 <= size c <= 32 ->
  popcount (chunk_value 32 c 0)
  = Z.of_nat (length (List.filter (fun b : bool => b) (contents c))).
Proof.
  intros Hs. unfold popcount.
  rewrite (count_set (fun i => Z.testbit (chunk_value 32 c 0) (Z.of_nat i)) 32 0).
  do 2 f_equal.
  replace 32%nat with (Z.to_nat (size c) + (32 - Z.to_nat (size c)))%nat by lia.
  rewrite List.seq_app, List.map_app, List.filter_app.
  rewrite (filter_all_false _ (seq (0 + Z.to_nat (size c)) (32 - Z.to_nat (size c)))).
  - rewrite app_nil_r. f_equal. unfold contents. apply map_ext_in.
    intros i Hi. apply in_seq in Hi. rewrite chunk_value_testbit by lia.
    rewrite Z.mul_0_r, Z.add_0_l.
    destruct (Z.ltb_spec (Z.of_nat i) (size c)); [reflexivity | lia].
  - intros i Hi. apply in_seq in Hi. rewrite chunk_value_testbit by lia.
    rewrite Z.mul_0_r, Z.add_0_l.
    destruct (Z.ltb_spec (Z.of_nat i) (size c)); [lia | reflexivity].
Qed.

Lemma filter_leaves_other (v : bool) (l : list bool) :
  List.filter (fun b => negb (Bool.eqb v b)) l
  = repeat (negb v) (length l - length (List.filter (Bool.eqb v) l)).
Proof.
  induction l as [|x l IH]; [reflexivity|].
  cbn [List.filter length].
  pose proof (filter_partition_length (Bool.eqb v) l) as Hp.
  destruct (Bool.eqb v x) eqn:E; cbn [negb length].
  - rewrite IH. f_equal.
  - rewrite IH. apply eqb_false_iff in E.
    replace x with (negb v) by (destruct v, x; auto; exfalso; apply E; reflexivity).
    replace (S (length l) - length (List.filter (Bool.eqb v) l))%nat
      with (S (length l - length (List.filter (Bool.eqb v) l))) by lia.
    reflexivity.
Qed.

Lemma filter_eqb_true (l : list bool) :
  List.filter (Bool.eqb true) l = List.filter (fun b : bool => b) l.
Proof. apply List.filter_ext. intros []; reflexivity. Qed.

Section SmallErase.

Variable junk : nat -> Z.

(** X18: on a vector of at most 32 bits [std::erase(c, value)] removes
    every bit equal to [value]: it returns their number and leaves the
    other bits (all equal to the opposite value). *)
Theorem std_erase_up_to_32_bits (c : bvec) (value : bool) :
  well_formed c = true -> size c <= 32 ->
  exists c', std_erase junk c value
             = Some (c', Z.of_nat (length (List.filter (Bool.eqb value) (contents c))))
    /\ well_formed c' = true
    /\ contents c' = List.filter (fun b => negb (Bool.eqb value b)) (contents c).
Proof.
  intros Hwf H32. pose proof (size_nonneg c Hwf) as Hs.
  set (T := length (List.filter (fun b : bool => b) (contents c))).
  assert (HT : (T <= Z.to_nat (size c))%nat).
  { unfold T. rewrite <- contents_length. apply List.filter_length_le. }
  assert (Hpop : for_unsigned (wrap 64 (size c + 64 - 1) / 64) (popcount_body c) 0
                 = Some (Z.of_nat T)).
  { rewrite wrap_small by (rewrite pow2_64; lia).
    unfold for_unsigned. destruct (Z.eq_dec (size c) 0) as [E0|E0].
    - rewrite E0. cbn. f_equal. unfold T.
      unfold contents. rewrite E0. reflexivity.
    - replace ((size c + 64 - 1) / 64) with 1
        by (apply (Z.div_unique_pos _ 64 1 (size c - 1)); lia).
      change (1 <? 2 ^ 32) with true. cbn iota.
      change (Z.to_nat 1) with 1%nat. cbn [for_loop].
      unfold popcount_body. rewrite (cast_reads_chunk_aux c 0) by (auto; lia).
      cbn [mbind option_bind]. rewrite popcount_first_chunk by lia. fold T.
      rewrite Z.add_0_l, to_int_small; [reflexivity|].
      assert (2 ^ 31 = 2147483648) by reflexivity. lia. }
  unfold std_erase. cbv zeta. rewrite Hpop. cbn [mbind option_bind].
  pose proof (filter_partition_length (Bool.eqb value) (contents c)) as Hp.
  rewrite contents_length in Hp.
  rewrite (filter_leaves_other value), contents_length.
  assert (E64 : forall x, 0 <= x <= 32 -> wrap 64 x = x).
  { intros x Hx. apply wrap_small. rewrite pow2_64. lia. }
  destruct value.
  - rewrite filter_eqb_true in *. fold T in Hp |- *.
    rewrite !E64 by lia.
    destruct (assign_count_contents junk (size c - Z.of_nat T) false)
      as (c' & Ha & Hwf' & _ & Hc); [rewrite max_size_value; lia|].
    rewrite Ha. cbn [mbind option_bind].
    exists c'. repeat split; auto. rewrite Hc. cbn [negb]. f_equal. lia.
  - assert (HF : length (List.filter (Bool.eqb false) (contents c))
                 = (Z.to_nat (size c) - T)%nat).
    { pose proof (filter_partition_length (fun b : bool => b) (contents c)) as Hq.
      rewrite contents_length in Hq. fold T in Hq.
      rewrite (List.filter_ext (Bool.eqb false) (fun x => negb x)) by (intros []; reflexivity).
      lia. }
    rewrite HF. rewrite !E64 by lia.
    destruct (assign_count_contents junk (Z.of_nat T) true)
      as (c' & Ha & Hwf' & _ & Hc); [rewrite max_size_value; lia|].
    rewrite Ha. cbn [mbind option_bind].
    exists c'. repeat split; auto.
    + do 2 f_equal. lia.
    + rewrite Hc. cbn [negb]. f_equal. lia.
Qed.

End SmallErase.

Lemma std_erase_up_to_32_bits_witness :
  exists c', std_erase (fun _ => 0) (Stack (mk_stack 5 22)) true
             = Some (c', Z.of_nat (length (List.filter (Bool.eqb true)
                                             (contents (Stack (mk_stack 5 22))))))
    /\ well_formed c' = true
    /\ contents c' = List.filter (fun b => negb (Bool.eqb true b))
                                 (contents (Stack (mk_stack 5 22))).
Proof.
  apply (std_erase_up_to_32_bits (fun _ => 0) (Stack (mk_stack 5 22)) true);
    [reflexivity | vm_compute; discriminate].
Defined.

(** * Properties of the binary heap *)

Module bheap_facts.
Section Facts.

Context {T : Type}.
Variable cmp : T -> T -> bool.

(** The comparator is a strict weak ordering, as [std::less] is. *)
Hypothesis cmp_asym : forall x y, cmp x y = true -> cmp y x = false.
Hypothesis cmp_negtrans :
  forall x y z, cmp x z = true -> cmp x y = true \/ cmp y z = true.

Lemma cmp_not_greater_trans (x y z : T) :
  cmp x y = false -> cmp y z = false -> cmp x z = false.
Proof.
  intros Hxy Hyz. destruct (cmp x z) eqn:E; [|reflexivity].
  destruct (cmp_negtrans x y z E); congruence.
Qed.

Lemma cmp_greater_then_not (x y z : T) :
  cmp x y = true -> cmp x z = false -> cmp y z = false.
Proof.
  intros Hxy Hxz. destruct (cmp_negtrans x z y Hxy) as [H|H]; [congruence|].
  apply cmp_asym. exact H.
Qed.

Local Abbreviation pair_ok := (bheap.pair_ok cmp).
Local Abbreviation heap_prop := (bheap.heap_prop cmp).
Local Abbreviation grandparent_ok := (bheap.grandparent_ok cmp).

Lemma heap_ordered_prop (h : list T) :
  bheap.heap_ordered cmp h = true <-> heap_prop h.
Proof.
  unfold bheap.heap_ordered. rewrite forallb_forall. split.
  - intros H i Hi x p Hx Hp.
    assert (Hin : In i (seq 1 (length h - 1))).
    { apply in_seq. apply lookup_lt_Some in Hx. lia. }
    specialize (H i Hin). rewrite Hp, Hx in H.
    destruct (cmp p x); [discriminate | reflexivity].
  - intros H i Hin. apply in_seq in Hin.
    destruct (h !! ((i - 1) / 2)%nat) as [p|] eqn:Hp; [|reflexivity].
    destruct (h !! i) as [x|] eqn:Hx; [|reflexivity].
    rewrite (H i ltac:(lia) x p Hx Hp). reflexivity.
Qed.

Lemma swapped_lookup (h : list T) (a b : nat) (x y : T) (i : nat) :
  h !! a = Some x -> h !! b = Some y ->
  <[b := x]> (<[a := y]> h) !! i
  = if (i =? b)%nat then Some x else if (i =? a)%nat then Some y else h !! i.
Proof.
  intros Ha Hb. apply lookup_lt_Some in Ha as Hla. apply lookup_lt_Some in Hb as Hlb.
  destruct (Nat.eqb_spec i b) as [->|Hib].
  - apply list_lookup_insert_eq. rewrite length_insert. exact Hlb.
  - rewrite list_lookup_insert_ne by auto.
    destruct (Nat.eqb_spec i a) as [->|Hia].
    + apply list_lookup_insert_eq. exact Hla.
    + apply list_lookup_insert_ne. auto.
Qed.

Lemma iter_swap_some (h : list T) (a b : nat) (x y : T) :
  h !! a = Some x -> h !! b = Some y ->
  bheap.iter_swap h a b = Some (<[b := x]> (<[a := y]> h)).
Proof. intros Ha Hb. unfold bheap.iter_swap. rewrite Ha, Hb. reflexivity. Qed.

Lemma iterator_parent_inside (h : list T) (it : nat) :
  (it < length h)%nat -> bheap.iterator_parent h it = ((it - 1) / 2)%nat.
Proof.
  intros Hit. unfold bheap.iterator_parent.
  destruct (Nat.leb_spec (length h) ((it - 1) / 2)); [|reflexivity].
  assert ((it - 1) / 2 <= it - 1)%nat by (apply Nat.Div0.div_le_upper_bound; lia).
  lia.
Qed.

(** One turn of the loop of [fix_heap] that swaps keeps the invariant of
    the loop, now at the parent. *)
Lemma sift_up_step (h : list T) (it : nat) (x p : T) :
  (1 <= it)%nat -> h !! it = Some x -> h !! ((it - 1) / 2)%nat = Some p ->
  cmp p x = true ->
  (forall i, (1 <= i)%nat -> i <> it -> pair_ok h i) -> grandparent_ok h it ->
  let h1 := <[it := p]> (<[((it - 1) / 2)%nat := x]> h) in
  (forall i, (1 <= i)%nat -> i <> ((it - 1) / 2)%nat -> pair_ok h1 i)
  /\ grandparent_ok h1 ((it - 1) / 2).
Proof.
  intros Hit Hx Hp Hcmp Hpairs Hgrand h1.
  set (parent := ((it - 1) / 2)%nat) in *.
  assert (Hpar : (parent < it)%nat).
  { unfold parent. assert ((it - 1) / 2 <= it - 1)%nat
      by (apply Nat.Div0.div_le_upper_bound; lia). lia. }
  assert (Hl : forall i, h1 !! i
            = if (i =? it)%nat then Some p else if (i =? parent)%nat then Some x
              else h !! i).
  { intros i. unfold h1. apply swapped_lookup; assumption. }
  split.
  - intros i Hi Hne xi pi Hxi Hpi. rewrite Hl in Hxi, Hpi.
    assert (Hq : ((i - 1) / 2 < i)%nat).
    { assert ((i - 1) / 2 <= i - 1)%nat by (apply Nat.Div0.div_le_upper_bound; lia). lia. }
    destruct (Nat.eqb_spec i it) as [->|Hiit].
    + (* the swapped pair *)
      fold parent in Hpi.
      destruct (Nat.eqb_spec parent it); [lia|]. rewrite Nat.eqb_refl in Hpi.
      injection Hxi as <-. injection Hpi as <-. apply cmp_asym. exact Hcmp.
    + destruct (Nat.eqb_spec i parent); [contradiction|].
      destruct (Nat.eqb_spec ((i - 1) / 2) it) as [Eq|Nq].
      * (* a child of [it] *)
        injection Hpi as <-.
        apply (Hgrand Hit i xi p Hi Eq Hxi Hp).
      * destruct (Nat.eqb_spec ((i - 1) / 2) parent) as [Eq|Nq'].
        -- (* the sibling of [it] *)
           injection Hpi as <-.
           apply (cmp_greater_then_not p x xi Hcmp).
           apply (Hpairs i Hi Hiit xi p Hxi). rewrite Eq. exact Hp.
        -- apply (Hpairs i Hi Hiit xi pi Hxi Hpi).
  - intros Hpar1 c xc g Hc Ec Hxc Hg. rewrite Hl in Hxc, Hg.
    assert (Hgp : ((parent - 1) / 2 < parent)%nat).
    { assert ((parent - 1) / 2 <= parent - 1)%nat
        by (apply Nat.Div0.div_le_upper_bound; lia). lia. }
    destruct (Nat.eqb_spec ((parent - 1) / 2) it); [lia|].
    destruct (Nat.eqb_spec ((parent - 1) / 2) parent); [lia|].
    assert (Hgp_p : cmp g p = false).
    { apply (Hpairs parent Hpar1 ltac:(lia) p g Hp Hg). }
    destruct (Nat.eqb_spec c it) as [->|Hcit].
    + injection Hxc as <-. exact Hgp_p.
    + destruct (Nat.eqb_spec c parent) as [->|Hcp].
      { exfalso. assert ((parent - 1) / 2 <= parent - 1)%nat
          by (apply Nat.Div0.div_le_upper_bound; lia). lia. }
      apply (cmp_not_greater_trans g p xc Hgp_p).
      apply (Hpairs c Hc Hcit xc p Hxc). rewrite Ec. exact Hp.
Qed.

Lemma fix_heap_loop_spec (fuel : nat) : forall (h : list T) (it : nat) (x : T),
  h !! it = Some x -> (it <= fuel)%nat ->
  (forall i, (1 <= i)%nat -> i <> it -> pair_ok h i) -> grandparent_ok h it ->
  exists h' it', bheap.fix_heap_loop cmp fuel h it = Returns (h', it')
    /\ heap_prop h' /\ h' ≡ₚ h /\ h' !! it' = Some x.
Proof.
  induction fuel as [|k IH]; intros h it x Hx Hfuel Hpairs Hgrand.
  - assert (it = 0%nat) as -> by lia. exists h, 0%nat. cbn.
    repeat split; auto. intros i Hi. apply Hpairs; lia.
  - destruct (Nat.eq_dec it 0%nat) as [->|Hne].
    { exists h, 0%nat. cbn. repeat split; auto. intros i Hi. apply Hpairs; lia. }
    cbn [bheap.fix_heap_loop].
    destruct (Nat.eqb_spec it 0%nat); [contradiction|].
    apply lookup_lt_Some in Hx as Hlt.
    rewrite (iterator_parent_inside h it Hlt).
    set (parent := ((it - 1) / 2)%nat).
    assert (Hpar : (parent < it)%nat).
    { unfold parent. assert ((it - 1) / 2 <= it - 1)%nat
        by (apply Nat.Div0.div_le_upper_bound; lia). lia. }
    destruct (lookup_lt_is_Some_2 h parent) as [p Hp]; [lia|].
    rewrite Hp, Hx.
    destruct (cmp p x) eqn:Hcmp; cbn [negb].
    + rewrite (iter_swap_some h parent it p x Hp Hx).
      destruct (sift_up_step h it x p ltac:(lia) Hx Hp Hcmp Hpairs Hgrand)
        as [Hpairs1 Hgrand1].
      fold parent in Hpairs1, Hgrand1.
      destruct (IH (<[it := p]> (<[parent := x]> h)) parent x)
        as (h' & it' & Hl & Hheap & Hperm & Hit'); auto; try lia.
      { rewrite (swapped_lookup h parent it p x parent Hp Hx).
        destruct (Nat.eqb_spec parent it); [lia|]. rewrite Nat.eqb_refl. reflexivity. }
      exists h', it'. repeat split; auto.
      rewrite Hperm. apply (Permutation_insert_swap h parent it p x Hp Hx).
    + exists h, it. repeat split; auto.
      intros i Hi. destruct (Nat.eq_dec i it) as [->|Hiit].
      * intros x' p' Hx' Hp'. fold parent in Hp'. congruence.
      * apply Hpairs; assumption.
Qed.

(** In a heap-ordered container no element is greater than the front. *)
Lemma front_is_greatest (h : list T) (m : T) :
  heap_prop h -> h !! 0%nat = Some m ->
  forall i x, h !! i = Some x -> cmp m x = false.
Proof.
  intros Hheap Hm i. induction i as [i IH] using lt_wf_ind. intros x Hx.
  destruct (Nat.eq_dec i 0%nat) as [->|Hne].
  - assert (x = m) as -> by congruence.
    destruct (cmp m m) eqn:E; [|reflexivity]. rewrite (cmp_asym m m E) in E. discriminate.
  - assert (Hq : ((i - 1) / 2 < i)%nat).
    { assert ((i - 1) / 2 <= i - 1)%nat by (apply Nat.Div0.div_le_upper_bound; lia). lia. }
    apply lookup_lt_Some in Hx as Hlt.
    destruct (lookup_lt_is_Some_2 h ((i - 1) / 2)) as [p Hp]; [lia|].
    apply (cmp_not_greater_trans m p x).
    + apply (IH _ Hq p Hp).
    + apply (Hheap i ltac:(lia) x p Hx Hp).
Qed.

Lemma front_is_greatest_elem (h : list T) (m : T) :
  heap_prop h -> bheap.front h = Some m -> forall x, x ∈ h -> cmp m x = false.
Proof.
  intros Hheap Hm x Hx. apply list_elem_of_lookup in Hx as [i Hi].
  apply (front_is_greatest h m Hheap Hm i x Hi).
Qed.

Lemma push_spec (h : list T) (value : T) (fuel : nat) :
  heap_prop h -> (length h <= fuel)%nat ->
  exists h' it, bheap.push cmp fuel h value = Returns (h', it)
    /\ heap_prop h' /\ h' ≡ₚ value :: h /\ h' !! it = Some value.
Proof.
  intros Hheap Hfuel. unfold bheap.push, bheap.fix_heap.
  assert (Hlen : length (h ++ [value]) = S (length h)).
  { rewrite length_app. cbn. lia. }
  destruct (h ++ [value]) as [|y l] eqn:E; [cbn in Hlen; lia|].
  rewrite <- E in *. rewrite Hlen.
  replace (S (length h) - 1)%nat with (length h) by lia.
  destruct (fix_heap_loop_spec fuel (h ++ [value]) (length h) value)
    as (h' & it' & Hl & Hh' & Hperm & Hit'); auto.
  - rewrite lookup_app_r by lia. rewrite Nat.sub_diag. reflexivity.
  - intros i Hi Hne x p Hx Hp.
    assert (Hlt : (i < length h)%nat).
    { apply lookup_lt_Some in Hx. lia. }
    assert (Hq : ((i - 1) / 2 < i)%nat).
    { assert ((i - 1) / 2 <= i - 1)%nat by (apply Nat.Div0.div_le_upper_bound; lia). lia. }
    rewrite lookup_app_l in Hx, Hp by lia.
    apply (Hheap i Hi x p Hx Hp).
  - intros Hit c x g Hc Ec Hx Hg. exfalso.
    apply lookup_lt_Some in Hx. rewrite Hlen in Hx.
    assert ((c - 1) / 2 <= c - 1)%nat by (apply Nat.Div0.div_le_upper_bound; lia).
    lia.
  - exists h', it'. repeat split; auto.
    rewrite Hperm. symmetry. apply Permutation_cons_append.
Qed.

(** The element the sift-down step selects among [it] and its children. *)
Lemma pick_largest_spec (h : list T) (it : nat) (x : T) :
  h !! it = Some x ->
  exists largest m,
    (l ← bheap.pick_larger cmp h it (bheap.iterator_positive h it);
     bheap.pick_larger cmp h l (bheap.iterator_negative h it)) = Some largest
    /\ (largest = it \/ largest = (it * 2 + 1)%nat \/ largest = (it * 2 + 2)%nat)
    /\ h !! largest = Some m
    /\ (largest <> it -> cmp x m = true)
    /\ (largest = it -> m = x)
    /\ forall c xc, c = (it * 2 + 1)%nat \/ c = (it * 2 + 2)%nat ->
         h !! c = Some xc -> cmp m xc = false.
Proof.
  intros Hx. apply lookup_lt_Some in Hx as Hlt.
  assert (Hirr : forall y, cmp y y = false).
  { intros y. destruct (cmp y y) eqn:E; [|reflexivity].
    rewrite (cmp_asym y y E) in E. discriminate. }
  unfold bheap.iterator_positive, bheap.iterator_negative, bheap.pick_larger.
  destruct (Nat.leb_spec (length h) (it * 2 + 1)) as [Hp|Hp].
  - (* no child *)
    rewrite Nat.eqb_refl. cbn [mbind option_bind].
    destruct (Nat.leb_spec (length h) (it * 2 + 2)); [|lia].
    rewrite Nat.eqb_refl.
    exists it, x. repeat split; auto; try congruence.
    intros c xc Hc Hxc. apply lookup_lt_Some in Hxc. lia.
  - destruct (Nat.eqb_spec (it * 2 + 1) (length h)); [lia|].
    destruct (lookup_lt_is_Some_2 h (it * 2 + 1)) as [xp Hxp]; [lia|].
    rewrite Hx, Hxp. cbn [mbind option_bind].
    destruct (Nat.leb_spec (length h) (it * 2 + 2)) as [Hn|Hn].
    + (* only the positive child *)
      rewrite Nat.eqb_refl.
      destruct (cmp x xp) eqn:E.
      * exists (it * 2 + 1)%nat, xp. repeat split; auto; try lia.
        intros c xc [->| ->] Hxc; [|apply lookup_lt_Some in Hxc; lia].
        assert (xc = xp) as -> by congruence. apply Hirr.
      * exists it, x. repeat split; auto; try congruence.
        intros c xc [->| ->] Hxc; [|apply lookup_lt_Some in Hxc; lia].
        assert (xc = xp) as -> by congruence. exact E.
    + destruct (Nat.eqb_spec (it * 2 + 2) (length h)); [lia|].
      destruct (lookup_lt_is_Some_2 h (it * 2 + 2)) as [xn Hxn]; [lia|].
      destruct (cmp x xp) eqn:E.
      * rewrite Hxp, Hxn. cbn [mbind option_bind].
        destruct (cmp xp xn) eqn:E2.
        -- exists (it * 2 + 2)%nat, xn. repeat split; auto; try lia.
           ++ intros _. destruct (cmp_negtrans x xn xp E) as [H|H]; [exact H|].
              rewrite (cmp_asym xp xn E2) in H. discriminate.
           ++ intros c xc [->| ->] Hxc.
              ** assert (xc = xp) as -> by congruence. apply cmp_asym. exact E2.
              ** assert (xc = xn) as -> by congruence. apply Hirr.
        -- exists (it * 2 + 1)%nat, xp. repeat split; auto; try lia.
           intros c xc [->| ->] Hxc.
           ++ assert (xc = xp) as -> by congruence. apply Hirr.
           ++ assert (xc = xn) as -> by congruence. exact E2.
      * rewrite Hx, Hxn. cbn [mbind option_bind].
        destruct (cmp x xn) eqn:E2.
        -- exists (it * 2 + 2)%nat, xn. repeat split; auto; try lia.
           intros c xc [->| ->] Hxc.
           ++ assert (xc = xp) as -> by congruence.
              apply (cmp_greater_then_not x xn xp E2 E).
           ++ assert (xc = xn) as -> by congruence. apply Hirr.
        -- exists it, x. repeat split; auto; try congruence.
           intros c xc [->| ->] Hxc.
           ++ assert (xc = xp) as -> by congruence. exact E.
           ++ assert (xc = xn) as -> by congruence. exact E2.
Qed.

Lemma child_parent (i it : nat) :
  (1 <= i)%nat ->
  ((i - 1) / 2)%nat = it <-> i = (it * 2 + 1)%nat \/ i = (it * 2 + 2)%nat.
Proof.
  intros Hi. split.
  - intros <-. pose proof (Nat.div_mod_eq (i - 1) 2) as H.
    pose proof (Nat.mod_upper_bound (i - 1) 2 ltac:(lia)) as Hm. lia.
  - intros H. symmetry. apply (Nat.div_unique (i - 1) 2 it (i - 1 - it * 2)); lia.
Qed.

Lemma fix_heap_recursive_spec (fuel : nat) : forall (h : list T) (it : nat),
  (length h - it < fuel)%nat ->
  (it < length h)%nat \/ h = [] ->
  (forall i, (1 <= i)%nat -> ((i - 1) / 2)%nat <> it -> pair_ok h i) ->
  grandparent_ok h it ->
  exists h', bheap.fix_heap_recursive cmp fuel h it = Returns h'
    /\ heap_prop h' /\ h' ≡ₚ h.
Proof.
  induction fuel as [|k IH]; intros h it Hfuel Hit Hpairs Hgrand; [lia|].
  cbn [bheap.fix_heap_recursive].
  destruct Hit as [Hit| ->].
  2:{ (* the empty container *)
      exists []. cbn. rewrite Nat.eqb_refl. repeat split; auto.
      intros i Hi x p Hx. rewrite lookup_nil in Hx. discriminate. }
  destruct (lookup_lt_is_Some_2 h it Hit) as [x Hx].
  destruct (pick_largest_spec h it x Hx)
    as (largest & m & Hpick & Hwhich & Hm & Hgt & Hsame & Hchildren).
  rewrite Hpick.
  destruct (Nat.eqb_spec largest it) as [E|E].
  - (* nothing to swap: the order holds everywhere *)
    exists h. repeat split; auto.
    intros i Hi. destruct (Nat.eq_dec ((i - 1) / 2)%nat it) as [Eq|Nq].
    + intros xi pi Hxi Hpi. rewrite Eq, Hx in Hpi. injection Hpi as <-.
      rewrite <- (Hsame E).
      apply (Hchildren i xi); [apply child_parent; [exact Hi | exact Eq] | exact Hxi].
    + apply Hpairs; assumption.
  - specialize (Hgt E).
    assert (Hpar : ((largest - 1) / 2)%nat = it).
    { apply child_parent; [lia | destruct Hwhich as [?|?]; [contradiction | assumption]]. }
    rewrite (iter_swap_some h it largest x m Hx Hm).
    set (h1 := <[largest := x]> (<[it := m]> h)).
    assert (Hl : forall i, h1 !! i
              = if (i =? largest)%nat then Some x else if (i =? it)%nat then Some m
                else h !! i).
    { intros i. unfold h1. apply swapped_lookup; assumption. }
    apply lookup_lt_Some in Hm as Hlt.
    destruct (IH h1 largest) as (h' & Hr & Hh' & Hperm).
    + unfold h1. rewrite !length_insert. lia.
    + left. unfold h1. rewrite !length_insert. exact Hlt.
    + intros i Hi Hq xi pi Hxi Hpi. rewrite Hl in Hxi, Hpi.
      assert (Hqi : ((i - 1) / 2 < i)%nat).
      { assert ((i - 1) / 2 <= i - 1)%nat by (apply Nat.Div0.div_le_upper_bound; lia). lia. }
      destruct (Nat.eqb_spec ((i - 1) / 2) largest); [contradiction|].
      destruct (Nat.eqb_spec i largest) as [->|Hil].
      * (* the swapped pair *)
        rewrite Hpar, Nat.eqb_refl in Hpi.
        injection Hxi as <-. injection Hpi as <-. apply cmp_asym. exact Hgt.
      * destruct (Nat.eqb_spec i it) as [->|Hiit].
        -- (* [it] and its parent *)
           injection Hxi as <-.
           destruct (Nat.eqb_spec ((it - 1) / 2) it); [lia|].
           apply (Hgrand Hi largest m pi ltac:(lia) Hpar Hm Hpi).
        -- destruct (Nat.eqb_spec ((i - 1) / 2) it) as [Eq|Nq].
           ++ (* the other child of [it] *)
              injection Hpi as <-.
              apply (Hchildren i xi); [apply child_parent; [exact Hi | exact Eq] | exact Hxi].
           ++ apply (Hpairs i Hi Nq xi pi Hxi Hpi).
    + intros Hl1 c xc g Hc Ec Hxc Hg. rewrite Hl in Hxc, Hg.
      rewrite Hpar in Hg.
      destruct (Nat.eqb_spec it largest); [lia|]. rewrite Nat.eqb_refl in Hg.
      injection Hg as <-.
      assert (Hqc : ((c - 1) / 2 < c)%nat).
      { assert ((c - 1) / 2 <= c - 1)%nat by (apply Nat.Div0.div_le_upper_bound; lia). lia. }
      assert (Hil : (it < largest)%nat) by lia.
      destruct (Nat.eqb_spec c largest); [lia|].
      destruct (Nat.eqb_spec c it); [lia|].
      apply (Hpairs c Hc ltac:(lia) xc m Hxc). rewrite Ec. exact Hm.
    + exists h'. repeat split; auto.
      rewrite Hperm. unfold h1. apply (Permutation_insert_swap h it largest x m Hx Hm).
Qed.

Lemma pop_spec (h : list T) (x0 : T) (fuel : nat) :
  heap_prop h -> h !! 0%nat = Some x0 -> (length h <= fuel)%nat ->
  exists h', bheap.pop cmp fuel h = Returns h'
    /\ heap_prop h' /\ x0 :: h' ≡ₚ h.
Proof.
  intros Hheap Hx0 Hfuel. apply lookup_lt_Some in Hx0 as Hlen.
  unfold bheap.pop. destruct h as [|y l] eqn:E; [cbn in Hlen; lia|].
  rewrite <- E in *. clear E y l.
  destruct (lookup_lt_is_Some_2 h (length h - 1)) as [z Hz]; [lia|].
  rewrite (iter_swap_some h 0 (length h - 1) x0 z Hx0 Hz).
  set (sw := <[(length h - 1)%nat := x0]> (<[0%nat := z]> h)).
  assert (Hlsw : length sw = length h) by (unfold sw; rewrite !length_insert; reflexivity).
  assert (Hl : forall i, sw !! i
            = if (i =? length h - 1)%nat then Some x0
              else if (i =? 0)%nat then Some z else h !! i).
  { intros i. unfold sw. apply swapped_lookup; assumption. }
  assert (Hrem : removelast sw = take (length h - 1) sw).
  { rewrite removelast_firstn_len, Hlsw. f_equal. lia. }
  assert (Hsplit : sw = take (length h - 1) sw ++ [x0]).
  { rewrite <- (take_drop (length h - 1) sw) at 1. f_equal.
    assert (Hlast : sw !! (length h - 1)%nat = Some x0).
    { rewrite Hl, Nat.eqb_refl. reflexivity. }
    rewrite (drop_S _ _ _ Hlast), drop_ge by lia. reflexivity. }
  rewrite Hrem. set (h1 := take (length h - 1) sw) in *.
  assert (Hl1 : length h1 = (length h - 1)%nat).
  { unfold h1. rewrite length_take. lia. }
  assert (Hlk : forall i, (i < length h - 1)%nat ->
             h1 !! i = if (i =? 0)%nat then Some z else h !! i).
  { intros i Hi. unfold h1. rewrite lookup_take_lt by assumption. rewrite Hl.
    destruct (Nat.eqb_spec i (length h - 1)); [lia | reflexivity]. }
  destruct (fix_heap_recursive_spec fuel h1 0) as (h' & Hr & Hh' & Hperm).
  - lia.
  - destruct (Nat.eq_dec (length h1) 0%nat) as [E0|E0].
    + right. destruct h1; [reflexivity | discriminate].
    + left. lia.
  - intros i Hi Hq xi pi Hxi Hpi.
    apply lookup_lt_Some in Hxi as Hlt. rewrite Hl1 in Hlt.
    assert (Hqi : ((i - 1) / 2 < i)%nat).
    { assert ((i - 1) / 2 <= i - 1)%nat by (apply Nat.Div0.div_le_upper_bound; lia). lia. }
    rewrite Hlk in Hxi, Hpi by lia.
    destruct (Nat.eqb_spec i 0); [lia|].
    destruct (Nat.eqb_spec ((i - 1) / 2) 0); [contradiction|].
    apply (Hheap i Hi xi pi Hxi Hpi).
  - intros H. lia.
  - exists h'. repeat split; auto.
    rewrite Hperm.
    transitivity sw.
    + transitivity (h1 ++ [x0]); [apply Permutation_cons_append|].
      rewrite <- Hsplit. reflexivity.
    + unfold sw. apply (Permutation_insert_swap h 0 (length h - 1) x0 z Hx0 Hz).
Qed.

(** X19: [push] (and [emplace]) on a heap-ordered container returns after
    at most [size] turns of its loop with a heap-ordered container that
    holds the old elements and the new value; the returned iterator points
    at the new value, and no element is greater than the new front. *)
Theorem push_keeps_heap_order (h : list T) (value : T) (fuel : nat) :
  bheap.heap_ordered cmp h = true -> (length h <= fuel)%nat ->
  exists h' it, bheap.push cmp fuel h value = Returns (h', it)
    /\ bheap.heap_ordered cmp h' = true
    /\ h' ≡ₚ value :: h
    /\ h' !! it = Some value
    /\ exists m, bheap.front h' = Some m /\ forall x, x ∈ h' -> cmp m x = false.
Proof.
  intros Hord Hfuel. apply heap_ordered_prop in Hord.
  destruct (push_spec h value fuel Hord Hfuel) as (h' & it & Hp & Hh' & Hperm & Hit).
  exists h', it. repeat split; auto.
  - apply heap_ordered_prop. exact Hh'.
  - destruct h' as [|m l]; [apply Permutation_nil_l in Hperm; discriminate|].
    exists m. split; [reflexivity|].
    apply front_is_greatest_elem; [exact Hh' | reflexivity].
Qed.

(** X20: [pop] on a non-empty heap-ordered container returns after at most
    [size] calls of [fix_heap_recursive] with a heap-ordered container that
    holds the old elements without the old front; no element was greater
    than the removed front. *)
Theorem pop_removes_the_front (h : list T) (x0 : T) (fuel : nat) :
  bheap.heap_ordered cmp h = true -> bheap.front h = Some x0 ->
  (length h <= fuel)%nat ->
  exists h', bheap.pop cmp fuel h = Returns h'
    /\ bheap.heap_ordered cmp h' = true
    /\ x0 :: h' ≡ₚ h
    /\ forall x, x ∈ h -> cmp x0 x = false.
Proof.
  intros Hord Hfront Hfuel. apply heap_ordered_prop in Hord.
  destruct (pop_spec h x0 fuel Hord Hfront Hfuel) as (h' & Hp & Hh' & Hperm).
  exists h'. repeat split; auto.
  - apply heap_ordered_prop. exact Hh'.
  - apply front_is_greatest_elem; assumption.
Qed.

End Facts.

Lemma ltb_asym (x y : Z) : (x <? y) = true -> (y <? x) = false.
Proof. intros H. lia. Qed.

Lemma ltb_negtrans (x y z : Z) :
  (x <? z) = true -> (x <? y) = true \/ (y <? z) = true.
Proof. intros H. destruct (Z.ltb_spec x y); [left; reflexivity | right; lia]. Qed.

Lemma push_keeps_heap_order_witness :
  exists h' it, bheap.push Z.ltb 4 [9; 5; 7; 1] 8 = Returns (h', it)
    /\ bheap.heap_ordered Z.ltb h' = true
    /\ h' ≡ₚ 8 :: [9; 5; 7; 1]
    /\ h' !! it = Some 8
    /\ exists m, bheap.front h' = Some m /\ forall x, x ∈ h' -> (m <? x) = false.
Proof.
  apply (push_keeps_heap_order Z.ltb ltb_asym ltb_negtrans [9; 5; 7; 1] 8 4);
    [reflexivity | cbn; lia].
Defined.

Lemma pop_removes_the_front_witness :
  exists h', bheap.pop Z.ltb 4 [9; 5; 7; 1] = Returns h'
    /\ bheap.heap_ordered Z.ltb h' = true
    /\ 9 :: h' ≡ₚ [9; 5; 7; 1]
    /\ forall x, x ∈ [9; 5; 7; 1] -> (9 <? x) = false.
Proof.
  apply (pop_removes_the_front Z.ltb ltb_asym ltb_negtrans [9; 5; 7; 1] 9 4);
    [reflexivity | reflexivity | cbn; lia].
Defined.

End bheap_facts.

(** * Properties of the binary tree *)

Module btree_facts.
Section Facts.

Context {T : Type}.
Variable junk : nat -> Z.

(** ** The path code while it fits the inline representation *)

Lemma code_push_back (c : bvec) (b : bool) :
  well_formed c = true -> is_heap c = false -> size c < 120 ->
  exists c', push_back junk c b = Some c'
    /\ well_formed c' = true /\ is_heap c' = false
    /\ size c' = size c + 1
    /\ contents c' = contents c ++ [b].
Proof.
  intros Hwf Hin Hsz. pose proof (size_nonneg c Hwf) as Hs.
  destruct (push_back_contents junk c b Hwf) as (c' & Hp & Hwf' & _ & Hc).
  { rewrite max_size_value. lia. }
  exists c'. repeat split; auto.
  2:{ pose proof (size_nonneg c' Hwf') as Hs'.
      apply (f_equal (@length bool)) in Hc.
      rewrite length_app, !contents_length in Hc. cbn in Hc. lia. }
  destruct c as [s|h]; [|discriminate]. cbn [size] in *.
  destruct (resize_inline junk s (stack_size s + 1) b Hwf ltac:(lia)) as (s' & Hr & _).
  unfold push_back in Hp. cbn [size] in Hp.
  rewrite wrap_small in Hp by (rewrite pow2_64; lia).
  rewrite Hr in Hp. injection Hp as <-. reflexivity.
Qed.

Lemma code_copy (c : bvec) :
  well_formed c = true -> is_heap c = false -> copy junk c = Some c.
Proof.
  intros Hwf Hin. destruct c as [s|h]; [|discriminate].
  apply (copy_inline junk s Hwf).
Qed.

Lemma empty_code :
  well_formed empty_bvec = true /\ is_heap empty_bvec = false
  /\ contents empty_bvec = [] /\ size empty_bvec = 0.
Proof. repeat split; reflexivity. Qed.

Lemma code_size (c : bvec) :
  well_formed c = true -> size c = Z.of_nat (length (contents c)).
Proof.
  intros Hwf. pose proof (size_nonneg c Hwf). rewrite contents_length. lia.
Qed.

Lemma code_get_at (c : bvec) (i : nat) (b : bool) :
  well_formed c = true -> is_heap c = false -> contents c !! i = Some b ->
  get_at c (wrap 64 (Z.of_nat i)) = Some b.
Proof.
  intros Hwf Hin Hb. apply lookup_lt_Some in Hb as Hlt.
  rewrite contents_length in Hlt.
  rewrite contents_lookup in Hb by exact Hlt. injection Hb as <-.
  destruct c as [s|h]; [|discriminate].
  pose proof (well_formed_stack s Hwf) as [Hs _]. cbn [size] in Hlt.
  rewrite wrap_small by (rewrite pow2_64; lia).
  apply get_at_bit; [exact Hwf | cbn [size]; lia].
Qed.

Lemma code_erase_tail (c : bvec) (k : nat) :
  well_formed c = true -> is_heap c = false -> (k <= length (contents c))%nat ->
  exists c', erase_range c (Z.of_nat k) (cend c) = Some c'
    /\ well_formed c' = true /\ is_heap c' = false
    /\ contents c' = take k (contents c).
Proof.
  intros Hwf Hin Hk. rewrite contents_length in Hk.
  destruct c as [s|h]; [|discriminate].
  pose proof (well_formed_stack s Hwf) as [Hs _]. cbn [size] in Hk.
  assert (Hend : cend (Stack s) = stack_size s).
  { unfold cend. cbn [size]. apply to_int_small.
    assert (2 ^ 31 = 2147483648) by reflexivity. lia. }
  rewrite Hend.
  destruct (erase_range_inline s (Z.of_nat k) (stack_size s) Hwf)
    as (s' & He & Hwf' & Hsz & Hbits); try lia.
  exists (Stack s'). repeat split; auto.
  rewrite (contents_spliced (Stack s) (Stack s') (Z.of_nat k) (stack_size s));
    cbn [size]; auto; try lia.
  rewrite Nat2Z.id, drop_ge, app_nil_r by (rewrite contents_length; cbn [size]; lia).
  reflexivity.
Qed.

Lemma repeat_lookup (b : bool) : forall (k j : nat),
  (j < k)%nat -> repeat b k !! j = Some b.
Proof.
  induction k as [|k IH]; intros [|j] Hj; cbn; try lia; [reflexivity|].
  apply IH. lia.
Qed.


(** ** The node store and the shape it holds *)

Lemma represents_frame (nodes nodes' : list (@btree.bnode T)) :
  forall (s : btree.shape) (par p : btree.pointer),
  (forall c, c ∈ btree.addresses s -> nodes' !! c = nodes !! c) ->
  btree.represents nodes par p s -> btree.represents nodes' par p s.
Proof.
  induction s as [|a l IHl x r IHr]; intros par p Hsame Hrep; [exact Hrep|].
  cbn in *. destruct Hrep as (-> & n & Hn & Hpar & Hval & Hl & Hr).
  split; [reflexivity|]. exists n.
  rewrite Hsame by (apply elem_of_app; right; left).
  repeat split; auto.
  - apply IHl; auto. intros c Hc. apply Hsame, elem_of_app. auto.
  - apply IHr; auto. intros c Hc. apply Hsame, elem_of_app. right. right. exact Hc.
Qed.

Lemma represents_inside (nodes : list (@btree.bnode T)) :
  forall (s : btree.shape) (par p : btree.pointer),
  btree.represents nodes par p s ->
  forall c, c ∈ btree.addresses s -> (c < length nodes)%nat.
Proof.
  induction s as [|a l IHl x r IHr]; intros par p Hrep c Hc; cbn in *.
  - apply elem_of_nil in Hc. contradiction.
  - destruct Hrep as (-> & n & Hn & Hpar & Hval & Hl & Hr).
    apply elem_of_app in Hc as [Hc|Hc]; [apply (IHl _ _ Hl c Hc)|].
    apply elem_of_cons in Hc as [->|Hc]; [|apply (IHr _ _ Hr c Hc)].
    apply lookup_lt_Some in Hn. exact Hn.
Qed.

(** ** emplace *)

Section Emplace.

Variable cmp : T -> T -> bool.

(** The loop of [emplace] walks down the comparisons and stops at an empty
    slot. *)
Lemma emplace_loop_spec (v : T) (t : btree.btree) :
  forall (s : btree.shape) (fuel : nat) (par p : btree.pointer)
         (sl : btree.slot) (code : bvec),
  btree.read_slot t sl = Some p ->
  btree.represents (btree.m_nodes t) par p s ->
  (btree.height s <= fuel)%nat ->
  well_formed code = true -> is_heap code = false ->
  size code + Z.of_nat (btree.height s) <= 120 ->
  exists code',
    btree.emplace_loop cmp junk fuel t v par sl code
      = Returns (btree.last_parent cmp par s v, btree.last_slot cmp sl s v, code')
    /\ well_formed code' = true /\ is_heap code' = false
    /\ contents code' = contents code ++ btree.insert_path cmp s v
    /\ btree.read_slot t (btree.last_slot cmp sl s v) = Some None.
Proof.
  induction s as [|a l IHl x r IHr];
    intros fuel par p sl code Hread Hrep Hfuel Hwf Hin Hsz.
  - cbn in Hrep. subst p. exists code.
    destruct fuel; cbn; rewrite Hread, app_nil_r; auto.
  - cbn in Hrep. destruct Hrep as (-> & n & Hn & Hpar & Hval & Hl & Hr).
    cbn [btree.height] in Hfuel, Hsz.
    destruct fuel as [|k]; [lia|].
    cbn [btree.emplace_loop]. rewrite Hread, Hn, Hval.
    cbn [btree.last_parent btree.last_slot btree.insert_path].
    destruct (cmp v x).
    + destruct (code_push_back code true) as (c1 & Hp & Hwf1 & Hin1 & Hs1 & Hc1);
        auto; [lia|].
      rewrite Hp.
      destruct (IHl k (Some a) (btree.positive n) (btree.positive_slot a) c1)
        as (code' & Hloop & Hwf' & Hin' & Hc' & Hend); auto; try lia.
      { cbn. rewrite Hn. reflexivity. }
      exists code'. repeat split; auto.
      rewrite Hc', Hc1, <- app_assoc. reflexivity.
    + destruct (code_push_back code false) as (c1 & Hp & Hwf1 & Hin1 & Hs1 & Hc1);
        auto; [lia|].
      rewrite Hp.
      destruct (IHr k (Some a) (btree.negative n) (btree.negative_slot a) c1)
        as (code' & Hloop & Hwf' & Hin' & Hc' & Hend); auto; try lia.
      { cbn. rewrite Hn. reflexivity. }
      exists code'. repeat split; auto.
      rewrite Hc', Hc1, <- app_assoc. reflexivity.
Qed.

(** Linking the new node below the last node of the way down gives the
    shape with the value inserted. *)
Lemma inserted_represents (v : T) (nodes : list (@btree.bnode T))
    (root : btree.pointer) :
  forall (s : btree.shape) (par p : btree.pointer) (sl : btree.slot),
  s <> btree.Leaf ->
  btree.represents nodes par p s -> NoDup (btree.addresses s) ->
  exists c t1,
    btree.last_parent cmp par s v = Some c /\ c ∈ btree.addresses s
    /\ btree.write_slot (btree.mk_btree nodes root) (btree.last_slot cmp sl s v)
         (Some (length nodes)) = Some t1
    /\ btree.m_root t1 = root
    /\ length (btree.m_nodes t1) = length nodes
    /\ (forall d, d <> c -> btree.m_nodes t1 !! d = nodes !! d)
    /\ btree.represents (btree.m_nodes t1 ++ [btree.mk_bnode (Some c) None None v])
         par p (btree.inserted cmp (length nodes) s v).
Proof.
  induction s as [|a l IHl x r IHr]; intros par p sl Hne Hrep Hnd; [contradiction|].
  clear Hne. cbn in Hrep. destruct Hrep as (-> & n & Hn & Hpar & Hval & Hl & Hr).
  cbn [btree.addresses] in Hnd.
  apply NoDup_app in Hnd as (Hndl & Hlr & Hnd).
  apply NoDup_cons in Hnd as (Har & Hndr).
  assert (Hal : a ∉ btree.addresses l).
  { intros Hin. apply (Hlr a Hin). left. }
  apply lookup_lt_Some in Hn as Hlt.
  cbn [btree.last_parent btree.last_slot btree.inserted btree.addresses].
  destruct (cmp v x) eqn:E.
  - destruct l as [|b ll y lr].
    + (* the positive side is empty: the new node goes there *)
      cbn in Hl. cbn [btree.last_parent btree.last_slot btree.inserted].
      exists a. eexists. split; [reflexivity|].
      split; [apply elem_of_app; right; left|].
      cbn [btree.write_slot btree.m_nodes btree.m_root]. rewrite Hn.
      cbn [mbind option_bind]. split; [reflexivity|].
      cbn [btree.m_nodes btree.m_root].
      split; [reflexivity|]. split; [apply length_insert|].
      split; [intros d Hd; apply list_lookup_insert_ne; congruence|].
      cbn. split; [reflexivity|].
      eexists. split.
      { rewrite lookup_app_l by (rewrite length_insert; exact Hlt).
        apply list_lookup_insert_eq. exact Hlt. }
      cbn. repeat split; auto.
      * eexists. split.
        { rewrite lookup_app_r by (rewrite length_insert; lia).
          rewrite length_insert, Nat.sub_diag. reflexivity. }
        cbn. auto.
      * apply (represents_frame nodes); [|exact Hr].
        intros c Hc. pose proof (represents_inside _ _ _ _ Hr c Hc) as Hci.
        rewrite lookup_app_l by (rewrite length_insert; exact Hci).
        apply list_lookup_insert_ne. intros ->. contradiction.
    + destruct (IHl (Some a) (btree.positive n) (btree.positive_slot a))
        as (c & t1 & Hlast & Hc & Hw & Hroot & Hlen & Hframe & Hrep); auto; try discriminate.
      exists c, t1. split; [exact Hlast|].
      split; [apply elem_of_app; left; exact Hc|].
      split; [exact Hw|]. split; [exact Hroot|]. split; [exact Hlen|].
      split; [exact Hframe|].
      cbn [btree.represents]. split; [reflexivity|].
      exists n. split.
      { rewrite lookup_app_l by (rewrite Hlen; exact Hlt).
        rewrite Hframe; [exact Hn|]. intros ->. contradiction. }
      repeat split; auto.
      apply (represents_frame nodes); [|exact Hr].
      intros d Hd. pose proof (represents_inside _ _ _ _ Hr d Hd) as Hdi.
      rewrite lookup_app_l by (rewrite Hlen; exact Hdi).
      apply Hframe. intros ->. apply (Hlr c Hc). right. exact Hd.
  - destruct r as [|b rl y rr].
    + (* the negative side is empty: the new node goes there *)
      cbn in Hr. cbn [btree.last_parent btree.last_slot btree.inserted].
      exists a. eexists. split; [reflexivity|].
      split; [apply elem_of_app; right; left|].
      cbn [btree.write_slot btree.m_nodes btree.m_root]. rewrite Hn.
      cbn [mbind option_bind]. split; [reflexivity|].
      cbn [btree.m_nodes btree.m_root].
      split; [reflexivity|]. split; [apply length_insert|].
      split; [intros d Hd; apply list_lookup_insert_ne; congruence|].
      cbn. split; [reflexivity|].
      eexists. split.
      { rewrite lookup_app_l by (rewrite length_insert; exact Hlt).
        apply list_lookup_insert_eq. exact Hlt. }
      cbn. repeat split; auto.
      * apply (represents_frame nodes); [|exact Hl].
        intros c Hc. pose proof (represents_inside _ _ _ _ Hl c Hc) as Hci.
        rewrite lookup_app_l by (rewrite length_insert; exact Hci).
        apply list_lookup_insert_ne. intros ->. contradiction.
      * eexists. split.
        { rewrite lookup_app_r by (rewrite length_insert; lia).
          rewrite length_insert, Nat.sub_diag. reflexivity. }
        cbn. auto.
    + destruct (IHr (Some a) (btree.negative n) (btree.negative_slot a))
        as (c & t1 & Hlast & Hc & Hw & Hroot & Hlen & Hframe & Hrep); auto; try discriminate.
      exists c, t1. split; [exact Hlast|].
      split; [apply elem_of_app; right; right; exact Hc|].
      split; [exact Hw|]. split; [exact Hroot|]. split; [exact Hlen|].
      split; [exact Hframe|].
      cbn [btree.represents]. split; [reflexivity|].
      exists n. split.
      { rewrite lookup_app_l by (rewrite Hlen; exact Hlt).
        rewrite Hframe; [exact Hn|]. intros ->. contradiction. }
      repeat split; auto.
      apply (represents_frame nodes); [|exact Hl].
      intros d Hd. pose proof (represents_inside _ _ _ _ Hl d Hd) as Hdi.
      rewrite lookup_app_l by (rewrite Hlen; exact Hdi).
      apply Hframe. intros ->. apply (Hlr c Hd). right. exact Hc.
Qed.

Lemma addresses_inserted (a : nat) (v : T) : forall s : btree.shape,
  btree.addresses (btree.inserted cmp a s v) ≡ₚ a :: btree.addresses s.
Proof.
  induction s as [|b l IHl x r IHr]; cbn; [reflexivity|].
  destruct (cmp v x); cbn.
  - rewrite IHl. reflexivity.
  - rewrite IHr.
    replace (btree.addresses l ++ b :: a :: btree.addresses r)
      with ((btree.addresses l ++ [b]) ++ a :: btree.addresses r)
      by (rewrite <- app_assoc; reflexivity).
    rewrite <- Permutation_middle, <- app_assoc. reflexivity.
Qed.

Lemma node_at_inserted (a : nat) (v : T) : forall s : btree.shape,
  btree.node_at (btree.inserted cmp a s v) (btree.insert_path cmp s v) = Some a.
Proof.
  unfold btree.node_at. induction s as [|b l IHl x r IHr]; cbn; [reflexivity|].
  destruct (cmp v x); cbn; assumption.
Qed.

Lemma emplace_spec (t : btree.btree) (s : btree.shape) (v : T) (fuel : nat) :
  btree.tree_of t s -> (btree.height s <= fuel)%nat -> (btree.height s <= 120)%nat ->
  let a := length (btree.m_nodes t) in
  exists t' code,
    btree.emplace cmp junk fuel t v
      = Returns (t', btree.mk_iterator (Some a) code false)
    /\ btree.tree_of t' (btree.inserted cmp a s v)
    /\ contents code = btree.insert_path cmp s v
    /\ (exists n, btree.m_nodes t' !! a = Some n /\ btree.value n = v).
Proof.
  intros [Hrep Hnd] Hfuel Hh a. unfold btree.emplace.
  destruct empty_code as (Hwf0 & Hin0 & Hc0 & Hs0).
  destruct (emplace_loop_spec v t s fuel None (btree.m_root t) btree.root_slot empty_bvec)
    as (code & Hloop & Hwf & Hin & Hc & Hend); auto; [rewrite Hs0; lia|].
  rewrite Hloop. rewrite Hc0 in Hc. cbn [app] in Hc.
  unfold btree.make_iterator. rewrite (code_copy code Hwf Hin).
  assert (Hfresh : a ∉ btree.addresses s).
  { intros Ha. pose proof (represents_inside _ _ _ _ Hrep a Ha). unfold a in *. lia. }
  assert (Hnd' : NoDup (btree.addresses (btree.inserted cmp a s v))).
  { rewrite addresses_inserted. apply NoDup_cons_2; assumption. }
  destruct s as [|b l x r].
  - (* the empty tree: the new node becomes the root *)
    cbn in Hrep. cbn [btree.last_slot btree.last_parent btree.write_slot].
    cbn [btree.m_nodes btree.m_root].
    eexists. exists code. split; [reflexivity|].
    assert (Hnew : (btree.m_nodes t ++ [btree.mk_bnode None None None v]) !! a
                   = Some (btree.mk_bnode None None None v)).
    { rewrite lookup_app_r by (unfold a; lia). unfold a.
      rewrite Nat.sub_diag. reflexivity. }
    split; [split; [|exact Hnd']|].
    + cbn. split; [reflexivity|]. eexists. split; [exact Hnew|]. cbn. auto.
    + split; [exact Hc|]. eexists. split; [exact Hnew|]. reflexivity.
  - destruct t as [nodes root]. subst a. cbn [btree.m_nodes btree.m_root] in *.
    destruct (inserted_represents v nodes root (btree.Node b l x r) None root
                btree.root_slot)
      as (c & t1 & Hlast & Hcin & Hw & Hroot & Hlen & Hframe & Hrep'); auto; try discriminate.
    rewrite Hw, Hlast.
    eexists. exists code. split; [reflexivity|].
    cbn [btree.m_nodes btree.m_root].
    split; [split; [|exact Hnd']|].
    + cbn [btree.m_nodes btree.m_root]. rewrite Hroot. exact Hrep'.
    + split; [exact Hc|]. eexists. split.
      { rewrite lookup_app_r by (rewrite Hlen; lia).
        rewrite Hlen, Nat.sub_diag. reflexivity. }
      reflexivity.
Qed.


Lemma insert_path_length (v : T) : forall s : btree.shape,
  (length (btree.insert_path cmp s v) <= btree.height s)%nat.
Proof.
  induction s as [|b l IHl x r IHr]; cbn; [lia|].
  destruct (cmp v x); cbn; lia.
Qed.

Lemma elements_inserted_perm (a : nat) (v : T) : forall s : btree.shape,
  btree.elements (btree.inserted cmp a s v) ≡ₚ v :: btree.elements s.
Proof.
  induction s as [|b l IHl x r IHr]; cbn; [reflexivity|].
  destruct (cmp v x); cbn.
  - rewrite IHl. reflexivity.
  - rewrite IHr.
    replace (btree.elements l ++ x :: v :: btree.elements r)
      with ((btree.elements l ++ [x]) ++ v :: btree.elements r)
      by (rewrite <- app_assoc; reflexivity).
    rewrite <- Permutation_middle, <- app_assoc. reflexivity.
Qed.

Lemma ordered_inserted (a : nat) (v : T) : forall s : btree.shape,
  btree.ordered cmp s -> btree.ordered cmp (btree.inserted cmp a s v).
Proof.
  induction s as [|b l IHl x r IHr]; intros Hord.
  - cbn. repeat split; constructor.
  - cbn in Hord. destruct Hord as (Hl & Hr & Hol & Hor).
    cbn [btree.inserted]. destruct (cmp v x) eqn:E; cbn [btree.ordered].
    + repeat split; auto.
      rewrite elements_inserted_perm. apply Forall_cons. split; assumption.
    + repeat split; auto.
      rewrite elements_inserted_perm. apply Forall_cons. split; assumption.
Qed.

(** X22: the iterator [emplace] returns is at the new node: its code is the
    way from the root to that node, and dereferencing it gives the value. *)
Theorem emplace_returns_iterator_at_value (t : @btree.btree T) (s : btree.shape)
    (v : T) (fuel : nat) :
  btree.tree_of t s ->
  (btree.height s <= fuel)%nat -> (btree.height s <= 120)%nat ->
  exists t' it s' a,
    btree.emplace cmp junk fuel t v = Returns (t', it)
    /\ btree.tree_of t' s'
    /\ btree.points_to s' it a
    /\ btree.addresses s' ≡ₚ a :: btree.addresses s
    /\ btree.deref (btree.m_nodes t') it = Some v.
Proof.
  intros Htree Hfuel Hh.
  destruct (emplace_spec t s v fuel Htree Hfuel Hh)
    as (t' & code & He & Ht' & Hc & n & Hn & Hv).
  pose proof He as Hcode. unfold btree.emplace in Hcode.
  destruct Htree as [Hrep Hnd].
  destruct empty_code as (Hwf0 & Hin0 & Hc0 & Hs0).
  destruct (emplace_loop_spec v t s fuel None (btree.m_root t) btree.root_slot empty_bvec)
    as (code1 & Hloop & Hwf & Hin & _); auto; [rewrite Hs0; lia|].
  rewrite Hloop in Hcode.
  destruct (btree.write_slot t _ _) as [t1|]; [|discriminate].
  unfold btree.make_iterator in Hcode. rewrite (code_copy code1 Hwf Hin) in Hcode.
  injection Hcode as _ <-.
  eexists t', _, _, _. split; [exact He|]. split; [exact Ht'|].
  split; [|split; [apply addresses_inserted|]].
  - unfold btree.points_to. cbn [btree.m_isEnd btree.m_node btree.m_code].
    rewrite Hc, node_at_inserted. auto.
  - unfold btree.deref. cbn [btree.m_node mbind option_bind]. rewrite Hn.
    cbn. rewrite Hv. reflexivity.
Qed.

Lemma filter_keep (f : T -> bool) (l : list T) :
  Forall (fun y => f y = true) l -> List.filter f l = l.
Proof.
  induction 1 as [|y l Hy Hl IH]; cbn; [reflexivity|]. rewrite Hy, IH. reflexivity.
Qed.

Lemma filter_drop (f : T -> bool) (l : list T) :
  Forall (fun y => f y = false) l -> List.filter f l = [].
Proof.
  induction 1 as [|y l Hy Hl IH]; cbn; [reflexivity|]. rewrite Hy, IH. reflexivity.
Qed.

Section Ordering.

(** The comparator is a strict weak ordering, as [std::less] is. *)
Hypothesis cmp_asym : forall x y, cmp x y = true -> cmp y x = false.
Hypothesis cmp_negtrans :
  forall x y z, cmp x z = true -> cmp x y = true \/ cmp y z = true.

(** The new value goes behind the values that are not greater than it. *)
Lemma elements_inserted (a : nat) (v : T) : forall s : btree.shape,
  btree.ordered cmp s ->
  btree.elements (btree.inserted cmp a s v)
  = List.filter (fun y => negb (cmp v y)) (btree.elements s)
    ++ v :: List.filter (fun y => cmp v y) (btree.elements s).
Proof.
  induction s as [|b l IHl x r IHr]; intros Hord; [reflexivity|].
  cbn in Hord. destruct Hord as (Hl & Hr & Hol & Hor).
  cbn [btree.inserted btree.elements].
  rewrite !List.filter_app. cbn [List.filter].
  destruct (cmp v x) eqn:E; cbn [btree.elements negb].
  - (* everything on the negative side is greater than [v] *)
    assert (Hgt : Forall (fun y => cmp v y = true) (btree.elements r)).
    { eapply Forall_impl; [exact Hr|]. cbn. intros y Hy.
      destruct (cmp_negtrans v y x E) as [H|H]; [exact H | congruence]. }
    rewrite (filter_keep (fun y => cmp v y) _ Hgt).
    rewrite (filter_drop (fun y => negb (cmp v y)) (btree.elements r)).
    2:{ eapply Forall_impl; [exact Hgt|]. cbn. intros y ->. reflexivity. }
    rewrite (IHl Hol), app_nil_r, <- app_assoc. reflexivity.
  - (* nothing on the positive side is greater than [v] *)
    assert (Hle : Forall (fun y => cmp v y = false) (btree.elements l)).
    { eapply Forall_impl; [exact Hl|]. cbn. intros y Hy.
      destruct (cmp v y) eqn:Evy; [|reflexivity].
      destruct (cmp_negtrans v x y Evy) as [H|H]; [congruence|].
      rewrite (cmp_asym x y H) in Hy. discriminate. }
    rewrite (filter_drop (fun y => cmp v y) _ Hle).
    rewrite (filter_keep (fun y => negb (cmp v y)) (btree.elements l)).
    2:{ eapply Forall_impl; [exact Hle|]. cbn. intros y ->. reflexivity. }
    rewrite (IHr Hor), <- app_assoc. reflexivity.
Qed.

(** X21: [emplace] on an ordered tree returns, keeps the tree ordered and
    puts the new value behind the values that are not greater than it and
    before the values that are greater. *)
Theorem emplace_adds_in_order (t : @btree.btree T) (s : btree.shape) (v : T)
    (fuel : nat) :
  btree.tree_of t s -> btree.ordered cmp s ->
  (btree.height s <= fuel)%nat -> (btree.height s <= 120)%nat ->
  exists t' it s',
    btree.emplace cmp junk fuel t v = Returns (t', it)
    /\ btree.tree_of t' s' /\ btree.ordered cmp s'
    /\ btree.elements s'
       = List.filter (fun y => negb (cmp v y)) (btree.elements s)
         ++ v :: List.filter (fun y => cmp v y) (btree.elements s).
Proof.
  intros Htree Hord Hfuel Hh.
  destruct (emplace_spec t s v fuel Htree Hfuel Hh) as (t' & code & He & Ht' & _).
  eexists t', _, _. split; [exact He|]. split; [exact Ht'|].
  split; [apply ordered_inserted; exact Hord|].
  apply elements_inserted. exact Hord.
Qed.

End Ordering.

End Emplace.

(** ** begin(), end() and the way down a side *)

Lemma begin_loop_descend (nodes : list (@btree.bnode T)) :
  forall (fuel : nat) (node : btree.pointer) (code : bvec),
  btree.begin_loop junk fuel nodes node code
  = btree.descend junk fuel true nodes node code.
Proof.
  induction fuel as [|k IH]; intros node code; cbn;
    destruct node as [a|]; try reflexivity;
    destruct (nodes !! a) as [n|]; try reflexivity;
    cbn [btree.prev]; destruct (btree.positive n); try reflexivity.
  destruct (push_back junk code true); [apply IH | reflexivity].
Qed.

Lemma end_loop_descend (nodes : list (@btree.bnode T)) :
  forall (fuel : nat) (node : btree.pointer) (code : bvec),
  btree.end_loop junk fuel nodes node code
  = btree.descend junk fuel false nodes node code.
Proof.
  induction fuel as [|k IH]; intros node code; cbn;
    destruct node as [a|]; try reflexivity;
    destruct (nodes !! a) as [n|]; try reflexivity;
    cbn [btree.prev]; destruct (btree.negative n); try reflexivity.
  destruct (push_back junk code false); [apply IH | reflexivity].
Qed.

(** Going down one side as far as it goes ends at the first or at the last
    node of the subtree. *)
Lemma descend_spec (F : bool) (nodes : list (@btree.bnode T)) :
  forall (s : btree.shape) (fuel : nat) (par p : btree.pointer) (code : bvec),
  s <> btree.Leaf -> btree.represents nodes par p s ->
  (btree.height s <= fuel)%nat ->
  well_formed code = true -> is_heap code = false ->
  size code + Z.of_nat (btree.height s) <= 121 ->
  exists k a n code',
    btree.descend junk fuel F nodes p code = Returns (Some a, code')
    /\ well_formed code' = true /\ is_heap code' = false
    /\ contents code' = contents code ++ repeat F k
    /\ btree.node_at s (repeat F k) = Some a
    /\ nodes !! a = Some n
    /\ (if F then head (btree.addresses s) else last (btree.addresses s)) = Some a
    /\ (if F then head (btree.elements s) else last (btree.elements s))
       = Some (btree.value n).
Proof.
  induction s as [|a l IHl x r IHr];
    intros fuel par p code Hne Hrep Hfuel Hwf Hin Hsz; [contradiction|].
  clear Hne. cbn in Hrep. destruct Hrep as (-> & n & Hn & Hpar & Hval & Hl & Hr).
  cbn [btree.height] in Hfuel, Hsz.
  destruct fuel as [|f]; [lia|].
  cbn [btree.descend]. rewrite Hn.
  destruct F; cbn [btree.prev].
  - destruct l as [|b ll y lr].
    + cbn in Hl. rewrite Hl.
      exists 0%nat, a, n, code. cbn. rewrite app_nil_r, Hval. auto 10.
    + assert (Hb : btree.positive n = Some b) by (cbn in Hl; tauto).
      rewrite Hb in Hl |- *.
      assert (Hh : (1 <= btree.height (btree.Node b ll y lr))%nat) by (cbn; lia).
      destruct (code_push_back code true) as (c1 & Hp & Hwf1 & Hin1 & Hs1 & Hc1);
        auto; [lia|].
      rewrite Hp.
      destruct (IHl f (Some a) (Some b) c1)
        as (k & a' & n' & code' & Hd & Hwf' & Hin' & Hc' & Hat & Hn' & Hfirst & Hval');
        auto; try discriminate; try lia.
      exists (S k), a', n', code'. split; [exact Hd|].
      split; [exact Hwf'|]. split; [exact Hin'|].
      split; [rewrite Hc', Hc1, <- app_assoc; reflexivity|].
      split; [exact Hat|]. split; [exact Hn'|].
      change (btree.addresses (btree.Node a (btree.Node b ll y lr) x r))
        with (btree.addresses (btree.Node b ll y lr) ++ a :: btree.addresses r).
      change (btree.elements (btree.Node a (btree.Node b ll y lr) x r))
        with (btree.elements (btree.Node b ll y lr) ++ x :: btree.elements r).
      rewrite !head_app, Hfirst, Hval'. split; reflexivity.
  - destruct r as [|b rl y rr].
    + cbn in Hr. rewrite Hr.
      exists 0%nat, a, n, code. cbn. rewrite app_nil_r, !last_snoc, Hval. auto 10.
    + assert (Hb : btree.negative n = Some b) by (cbn in Hr; tauto).
      rewrite Hb in Hr |- *.
      assert (Hh : (1 <= btree.height (btree.Node b rl y rr))%nat) by (cbn; lia).
      destruct (code_push_back code false) as (c1 & Hp & Hwf1 & Hin1 & Hs1 & Hc1);
        auto; [lia|].
      rewrite Hp.
      destruct (IHr f (Some a) (Some b) c1)
        as (k & a' & n' & code' & Hd & Hwf' & Hin' & Hc' & Hat & Hn' & Hlast & Hval');
        auto; try discriminate; try lia.
      exists (S k), a', n', code'. split; [exact Hd|].
      split; [exact Hwf'|]. split; [exact Hin'|].
      split; [rewrite Hc', Hc1, <- app_assoc; reflexivity|].
      split; [exact Hat|]. split; [exact Hn'|].
      change (btree.addresses (btree.Node a l x (btree.Node b rl y rr)))
        with (btree.addresses l ++ a :: btree.addresses (btree.Node b rl y rr)).
      change (btree.elements (btree.Node a l x (btree.Node b rl y rr)))
        with (btree.elements l ++ x :: btree.elements (btree.Node b rl y rr)).
      rewrite !last_app, !last_cons, Hlast, Hval'. split; reflexivity.
Qed.


Lemma begin_spec (t : @btree.btree T) (s : btree.shape) (fuel : nat) :
  btree.tree_of t s -> btree.empty t = false ->
  (btree.height s <= fuel)%nat -> (btree.height s <= 120)%nat ->
  exists it a n,
    btree.begin junk fuel t = Returns it
    /\ btree.points_to s it a
    /\ btree.m_nodes t !! a = Some n
    /\ head (btree.addresses s) = Some a
    /\ head (btree.elements s) = Some (btree.value n).
Proof.
  intros [Hrep Hnd] Hne Hfuel Hh.
  assert (Hs : s <> btree.Leaf).
  { intros ->. cbn in Hrep. unfold btree.empty in Hne. rewrite Hrep in Hne. discriminate. }
  destruct empty_code as (Hwf0 & Hin0 & Hc0 & Hs0).
  destruct (descend_spec true (btree.m_nodes t) s fuel None (btree.m_root t) empty_bvec)
    as (k & a & n & code & Hd & Hwf & Hin & Hc & Hat & Hn & Hfirst & Hval);
    auto; [rewrite Hs0; lia|].
  unfold btree.begin. rewrite begin_loop_descend, Hd.
  unfold btree.make_iterator. rewrite (code_copy code Hwf Hin).
  eexists. exists a, n. split; [reflexivity|].
  split; [|auto].
  unfold btree.points_to. cbn [btree.m_isEnd btree.m_node btree.m_code].
  rewrite Hc, Hc0. auto.
Qed.

Lemma end_spec (t : @btree.btree T) (s : btree.shape) (fuel : nat) :
  btree.tree_of t s -> btree.empty t = false ->
  (btree.height s <= fuel)%nat -> (btree.height s <= 120)%nat ->
  exists code a n k,
    btree.end_ junk fuel t = Returns (btree.mk_iterator (Some a) code true)
    /\ well_formed code = true /\ is_heap code = false
    /\ contents code = repeat false k
    /\ btree.node_at s (contents code) = Some a
    /\ btree.m_nodes t !! a = Some n
    /\ last (btree.addresses s) = Some a
    /\ last (btree.elements s) = Some (btree.value n).
Proof.
  intros [Hrep Hnd] Hne Hfuel Hh.
  assert (Hs : s <> btree.Leaf).
  { intros ->. cbn in Hrep. unfold btree.empty in Hne. rewrite Hrep in Hne. discriminate. }
  destruct empty_code as (Hwf0 & Hin0 & Hc0 & Hs0).
  destruct (descend_spec false (btree.m_nodes t) s fuel None (btree.m_root t) empty_bvec)
    as (k & a & n & code & Hd & Hwf & Hin & Hc & Hat & Hn & Hlast & Hval);
    auto; [rewrite Hs0; lia|].
  unfold btree.end_. rewrite end_loop_descend, Hd.
  unfold btree.make_iterator. rewrite (code_copy code Hwf Hin).
  exists code, a, n, k. split; [reflexivity|].
  rewrite Hc, Hc0. auto 10.
Qed.

(** ** Paths, subtrees and the nodes that follow a node *)

Lemma subtree_leaf (q : list bool) : @btree.subtree T btree.Leaf q = btree.Leaf.
Proof. destruct q; reflexivity. Qed.

Lemma subtree_app : forall (q q' : list bool) (s : @btree.shape T),
  btree.subtree s (q ++ q') = btree.subtree (btree.subtree s q) q'.
Proof.
  induction q as [|b q IH]; intros q' s; [reflexivity|].
  destruct s as [|a l x r]; cbn; [rewrite subtree_leaf; reflexivity|].
  apply IH.
Qed.

Lemma subtree_height : forall (q : list bool) (s : @btree.shape T),
  btree.subtree s q <> btree.Leaf ->
  (length q + btree.height (btree.subtree s q) <= btree.height s)%nat.
Proof.
  induction q as [|b q IH]; intros s Hne; [cbn; lia|].
  destruct s as [|a l x r]; [contradiction|].
  cbn in Hne |- *. specialize (IH _ Hne). destruct b; lia.
Qed.

(** The node a path leads to, as the store has it. *)
Lemma subtree_node (nodes : list (@btree.bnode T)) :
  forall (q : list bool) (s : btree.shape) (par p : btree.pointer)
         (c : nat) (l : btree.shape) (x : T) (r : btree.shape),
  btree.represents nodes par p s -> btree.subtree s q = btree.Node c l x r ->
  exists n, nodes !! c = Some n /\ btree.value n = x
    /\ btree.represents nodes (Some c) (btree.positive n) l
    /\ btree.represents nodes (Some c) (btree.negative n) r
    /\ (q = [] -> btree.parent n = par).
Proof.
  induction q as [|b q IH]; intros s par p c l x r Hrep Hsub.
  - cbn in Hsub. subst s. cbn in Hrep.
    destruct Hrep as (_ & n & Hn & Hpar & Hval & Hl & Hr).
    exists n. auto.
  - destruct s as [|a sl sx sr]; [discriminate|].
    cbn in Hrep, Hsub. destruct Hrep as (_ & n & Hn & Hpar & Hval & Hl & Hr).
    destruct b.
    + destruct (IH sl _ _ c l x r Hl Hsub) as (n' & Hn' & Hv' & Hl' & Hr' & _).
      exists n'. repeat split; auto. discriminate.
    + destruct (IH sr _ _ c l x r Hr Hsub) as (n' & Hn' & Hv' & Hl' & Hr' & _).
      exists n'. repeat split; auto. discriminate.
Qed.

(** The parent pointer of a node below the root leads one step up its path. *)
Lemma subtree_parent (nodes : list (@btree.bnode T)) :
  forall (q : list bool) (s : btree.shape) (par p : btree.pointer)
         (b : bool) (c : nat) (n : btree.bnode),
  btree.represents nodes par p s ->
  btree.node_at s (q ++ [b]) = Some c -> nodes !! c = Some n ->
  btree.parent n = btree.node_at s q /\ is_Some (btree.node_at s q).
Proof.
  unfold btree.node_at.
  induction q as [|b0 q IH]; intros s par p b c n Hrep Hat Hn.
  - destruct s as [|a sl sx sr]; [discriminate|].
    cbn in Hrep, Hat |- *. destruct Hrep as (_ & na & Hna & Hpar & Hval & Hl & Hr).
    destruct (if b then sl else sr) as [|c' l x r] eqn:E; [discriminate|].
    cbn in Hat. injection Hat as ->.
    assert (Hc : btree.represents nodes (Some a)
                   (if b then btree.positive na else btree.negative na)
                   (btree.Node c l x r)).
    { destruct b; rewrite <- E; assumption. }
    cbn in Hc. destruct Hc as (_ & n' & Hn' & Hp' & _).
    rewrite Hn in Hn'. injection Hn' as <-. split; [exact Hp' | eexists; reflexivity].
  - destruct s as [|a sl sx sr]; [discriminate|].
    cbn in Hrep, Hat |- *. destruct Hrep as (_ & na & Hna & Hpar & Hval & Hl & Hr).
    destruct b0.
    + apply (IH sl _ _ b c n Hl Hat Hn).
    + apply (IH sr _ _ b c n Hr Hat Hn).
Qed.

Lemma walk_node (F : bool) (a : nat) (l : btree.shape) (x : T) (r : btree.shape) :
  btree.walk F (btree.Node a l x r)
  = btree.walk F (if F then l else r) ++ a :: btree.walk F (if F then r else l).
Proof.
  destruct F; cbn [btree.walk btree.addresses]; [reflexivity|].
  rewrite rev_app_distr. cbn. rewrite <- app_assoc. reflexivity.
Qed.

Lemma walk_leaf (F : bool) : btree.walk F (@btree.Leaf T) = [].
Proof. destruct F; reflexivity. Qed.

Lemma head_rev (l : list nat) : head (rev l) = last l.
Proof.
  induction l as [|y l IH] using rev_ind; [reflexivity|].
  rewrite rev_unit, last_snoc. reflexivity.
Qed.

Lemma walk_head (F : bool) (s : @btree.shape T) :
  head (btree.walk F s)
  = if F then head (btree.addresses s) else last (btree.addresses s).
Proof. destruct F; [reflexivity | apply head_rev]. Qed.

(** The nodes met after a node: first those on its far side. *)
Lemma beyond_split (F : bool) : forall (s : @btree.shape T) (q : list bool)
    (c : nat) (l : btree.shape) (x : T) (r : btree.shape),
  btree.subtree s q = btree.Node c l x r ->
  exists pre up, btree.walk F s = pre ++ c :: btree.beyond F s q
    /\ btree.beyond F s q = btree.walk F (if F then r else l) ++ up.
Proof.
  induction s as [|a sl IHl sx sr IHr]; intros q c l x r Hsub.
  - rewrite subtree_leaf in Hsub. discriminate.
  - rewrite walk_node. destruct q as [|b q].
    + cbn in Hsub. injection Hsub as -> -> -> ->.
      exists (btree.walk F (if F then l else r)), []. cbn [btree.beyond].
      rewrite app_nil_r. auto.
    + cbn [btree.subtree] in Hsub. cbn [btree.beyond].
      destruct b, F; cbn [Bool.eqb] in *.
      * destruct (IHl q c l x r Hsub) as (pre & up & Hsplit & Hbeyond).
        exists pre, (up ++ a :: btree.walk true sr).
        split; [rewrite Hsplit | rewrite Hbeyond]; rewrite <- app_assoc; reflexivity.
      * destruct (IHl q c l x r Hsub) as (pre & up & Hsplit & Hbeyond).
        exists (btree.walk false sr ++ a :: pre), up. split; [|exact Hbeyond].
        rewrite Hsplit, <- app_assoc. reflexivity.
      * destruct (IHr q c l x r Hsub) as (pre & up & Hsplit & Hbeyond).
        exists (btree.walk true sl ++ a :: pre), up. split; [|exact Hbeyond].
        rewrite Hsplit, <- app_assoc. reflexivity.
      * destruct (IHr q c l x r Hsub) as (pre & up & Hsplit & Hbeyond).
        exists pre, (up ++ a :: btree.walk false sl).
        split; [rewrite Hsplit | rewrite Hbeyond]; rewrite <- app_assoc; reflexivity.
Qed.

(** Without a child on the far side the next node is the nearest one above
    that the path leaves on the near side. *)
Lemma beyond_climb (F : bool) : forall (s : @btree.shape T) (q : list bool)
    (c : nat) (l : btree.shape) (x : T) (r : btree.shape),
  btree.subtree s q = btree.Node c l x r -> (if F then r else l) = btree.Leaf ->
  (forall k, q = repeat (negb F) k -> btree.beyond F s q = [])
  /\ (forall p0 k, q = p0 ++ F :: repeat (negb F) k ->
        exists c0 rest, btree.node_at s p0 = Some c0
          /\ btree.beyond F s q = c0 :: rest).
Proof.
  unfold btree.node_at.
  induction s as [|a sl IHl sx sr IHr]; intros q c l x r Hsub Hfar.
  - rewrite subtree_leaf in Hsub. discriminate.
  - destruct q as [|b q].
    + cbn in Hsub. injection Hsub as -> -> -> ->. split.
      * intros k _. cbn [btree.beyond]. rewrite Hfar. apply walk_leaf.
      * intros p0 k Hq. destruct p0; discriminate.
    + cbn [btree.subtree] in Hsub. cbn [btree.beyond].
      destruct b, F; cbn [Bool.eqb negb] in *.
      * (* forward, into the near side *)
        destruct (IHl q c l x r Hsub Hfar) as [Hfirst Hsecond]. split.
        -- intros k Hq. destruct k; discriminate.
        -- intros p0 k Hq. destruct p0 as [|b' p0].
           ++ cbn in Hq. injection Hq as Hq.
              exists a. eexists. split; [reflexivity|].
              rewrite (Hfirst k Hq). reflexivity.
           ++ cbn in Hq. injection Hq as <- Hq.
              destruct (Hsecond p0 k Hq) as (c0 & rest & Hc0 & Hb).
              exists c0. eexists. split; [exact Hc0|]. rewrite Hb. reflexivity.
      * (* backward, into the far side *)
        destruct (IHl q c l x r Hsub Hfar) as [Hfirst Hsecond]. split.
        -- intros k Hq. destruct k as [|k]; [discriminate|].
           cbn in Hq. injection Hq as Hq. apply (Hfirst k Hq).
        -- intros p0 k Hq. destruct p0 as [|b' p0]; [discriminate|].
           cbn in Hq. injection Hq as <- Hq.
           destruct (Hsecond p0 k Hq) as (c0 & rest & Hc0 & Hb).
           exists c0, rest. split; [exact Hc0 | exact Hb].
      * (* forward, into the far side *)
        destruct (IHr q c l x r Hsub Hfar) as [Hfirst Hsecond]. split.
        -- intros k Hq. destruct k as [|k]; [discriminate|].
           cbn in Hq. injection Hq as Hq. apply (Hfirst k Hq).
        -- intros p0 k Hq. destruct p0 as [|b' p0]; [discriminate|].
           cbn in Hq. injection Hq as <- Hq.
           destruct (Hsecond p0 k Hq) as (c0 & rest & Hc0 & Hb).
           exists c0, rest. split; [exact Hc0 | exact Hb].
      * (* backward, into the near side *)
        destruct (IHr q c l x r Hsub Hfar) as [Hfirst Hsecond]. split.
        -- intros k Hq. destruct k; discriminate.
        -- intros p0 k Hq. destruct p0 as [|b' p0].
           ++ cbn in Hq. injection Hq as Hq.
              exists a. eexists. split; [reflexivity|].
              rewrite (Hfirst k Hq). reflexivity.
           ++ cbn in Hq. injection Hq as <- Hq.
              destruct (Hsecond p0 k Hq) as (c0 & rest & Hc0 & Hb).
              exists c0. eexists. split; [exact Hc0|]. rewrite Hb. reflexivity.
Qed.

Lemma path_cases (F : bool) (q : list bool) :
  (exists k, q = repeat (negb F) k)
  \/ (exists p0 k, q = p0 ++ F :: repeat (negb F) k).
Proof.
  induction q as [|b q [[k ->]|(p0 & k & ->)]].
  - left. exists 0%nat. reflexivity.
  - destruct (Bool.eqb_spec b F) as [->|Hne].
    + right. exists [], k. reflexivity.
    + left. exists (S k). cbn. f_equal. destruct b, F; try reflexivity; contradiction.
  - right. exists (b :: p0), k. reflexivity.
Qed.

Lemma split_unique (l1 l2 l1' l2' : list nat) (c : nat) :
  NoDup (l1 ++ c :: l2) -> l1 ++ c :: l2 = l1' ++ c :: l2' -> l2 = l2'.
Proof.
  revert l1'. induction l1 as [|y l1 IH]; intros l1' Hnd E.
  - destruct l1' as [|y' l1']; cbn in E.
    + congruence.
    + injection E as <- E. exfalso.
      cbn in Hnd. apply NoDup_cons in Hnd as [Hc _]. apply Hc.
      rewrite E. apply elem_of_app. right. left.
  - cbn in Hnd. apply NoDup_cons in Hnd as [Hy Hnd].
    destruct l1' as [|y' l1']; cbn in E.
    + injection E as -> E. exfalso. apply Hy, elem_of_app. right. left.
    + injection E as _ E. apply (IH l1' Hnd E).
Qed.

(** ** Climbing to the next node *)

Section Climbing.

Variable F : bool.
Variable nodes : list (@btree.bnode T).
Variable s : @btree.shape T.
Variable root : btree.pointer.
Variable code : bvec.
Hypothesis Hrep : btree.represents nodes None root s.
Hypothesis Hwf : well_formed code = true.
Hypothesis Hin : is_heap code = false.

Lemma node_at_lookup (q : list bool) (c : nat) :
  btree.node_at s q = Some c -> exists n, nodes !! c = Some n.
Proof.
  unfold btree.node_at. intros Hat.
  destruct (btree.subtree s q) as [|c' l x r] eqn:E; [discriminate|].
  cbn in Hat. injection Hat as ->.
  destruct (subtree_node nodes q s None root c l x r Hrep E) as (n & Hn & _).
  exists n. exact Hn.
Qed.

(** The loop passes the trailing steps of the code to the far side. *)
Lemma climb_far_steps (p1 : list bool) (k : nat) :
  contents code = p1 ++ repeat (negb F) k ->
  forall (j fuel : nat) (c : nat), (j <= k)%nat -> (j <= fuel)%nat ->
  btree.node_at s (p1 ++ repeat (negb F) j) = Some c ->
  btree.climb fuel F nodes code (Some c) (Z.of_nat (length p1 + j) - 1)
  = btree.climb (fuel - j) F nodes code (btree.node_at s p1)
      (Z.of_nat (length p1) - 1).
Proof.
  intros Hcode. induction j as [|j IH]; intros fuel c Hjk Hfuel Hat.
  - cbn [repeat] in Hat. rewrite app_nil_r in Hat.
    rewrite Hat, Nat.add_0_r, Nat.sub_0_r. reflexivity.
  - destruct fuel as [|f]; [lia|].
    cbn [repeat] in Hat. rewrite repeat_cons, app_assoc in Hat.
    destruct (node_at_lookup _ c Hat) as [n Hn].
    destruct (subtree_parent nodes _ s None root (negb F) c n Hrep Hat Hn)
      as [Hpar [c' Hc']].
    cbn [btree.climb]. rewrite Hn, Hpar, Hc'.
    replace (Z.of_nat (length p1 + S j) - 1) with (Z.of_nat (length p1 + j)) by lia.
    rewrite (code_get_at code (length p1 + j) (negb F) Hwf Hin).
    2:{ rewrite Hcode, lookup_app_r by lia.
        apply repeat_lookup. lia. }
    rewrite Bool.eqb_negb1. cbn [negb].
    rewrite (IH f c' ltac:(lia) ltac:(lia) Hc'). reflexivity.
Qed.

(** It stops at the root, or below the first step to the near side. *)
Lemma climb_at_root (fuel : nat) (c : nat) (iter : Z) :
  btree.node_at s [] = Some c ->
  exists n, nodes !! c = Some n /\ btree.parent n = None
    /\ btree.climb fuel F nodes code (Some c) iter = Returns (Some c, iter).
Proof.
  unfold btree.node_at. cbn [btree.subtree]. intros Hat.
  destruct s as [|c' l x r] eqn:E; [discriminate|]. cbn in Hat. injection Hat as ->.
  destruct (subtree_node nodes [] (btree.Node c l x r) None root c l x r)
    as (n & Hn & _ & _ & _ & Hpar); [exact Hrep | reflexivity|].
  exists n. split; [exact Hn|]. split; [auto|].
  destruct fuel; cbn [btree.climb]; rewrite Hn, Hpar by reflexivity; reflexivity.
Qed.

Lemma climb_at_turn (fuel : nat) (p0 rest : list bool) (c : nat) :
  contents code = p0 ++ F :: rest ->
  btree.node_at s (p0 ++ [F]) = Some c ->
  exists n c0, nodes !! c = Some n /\ btree.parent n = Some c0
    /\ btree.node_at s p0 = Some c0
    /\ btree.climb fuel F nodes code (Some c) (Z.of_nat (length (p0 ++ [F])) - 1)
       = Returns (Some c, Z.of_nat (length p0)).
Proof.
  intros Hcode Hat.
  destruct (node_at_lookup _ c Hat) as [n Hn].
  destruct (subtree_parent nodes _ s None root F c n Hrep Hat Hn)
    as [Hpar [c0 Hc0]].
  exists n, c0. split; [exact Hn|]. split; [congruence|]. split; [exact Hc0|].
  rewrite length_app. cbn [length].
  replace (Z.of_nat (length p0 + 1) - 1) with (Z.of_nat (length p0)) by lia.
  assert (Hbit : get_at code (wrap 64 (Z.of_nat (length p0))) = Some F).
  { apply (code_get_at code (length p0) F Hwf Hin).
    rewrite Hcode, lookup_app_r by lia. rewrite Nat.sub_diag. reflexivity. }
  destruct fuel; cbn [btree.climb]; rewrite Hn, Hpar, Hc0, Hbit, Bool.eqb_reflx;
    reflexivity.
Qed.

End Climbing.

(** [advance<Forward>()] on an iterator at a node: the iterator is then at
    the node met next in that direction, or at the end after the last one. *)
Lemma advance_spec (F : bool) (t : @btree.btree T) (s : btree.shape)
    (it : btree.iterator) (c : nat) (pre post : list nat) (fuel : nat) :
  btree.tree_of t s -> btree.points_to s it c ->
  btree.walk F s = pre ++ c :: post ->
  (btree.height s <= fuel)%nat -> (btree.height s <= 120)%nat ->
  exists it', btree.advance junk fuel F (btree.m_nodes t) it = Returns it'
    /\ match post with
       | [] => btree.m_isEnd it' = true
       | c' :: _ => btree.points_to s it' c'
       end.
Proof.
  intros [Hrep Hnd] (Hend & Hnode & Hwf & Hin & Hat) Hsplit Hfuel Hh.
  destruct it as [node code isEnd]. cbn [btree.m_isEnd btree.m_node btree.m_code] in *.
  subst isEnd node.
  set (q := contents code) in *.
  unfold btree.node_at in Hat.
  destruct (btree.subtree s q) as [|c' l x r] eqn:Hsub; [discriminate|].
  cbn in Hat. injection Hat as ->.
  destruct (beyond_split F s q c l x r Hsub) as (pre0 & up & Hsplit0 & Hbeyond).
  assert (Hndw : NoDup (btree.walk F s)).
  { destruct F; [exact Hnd|]. unfold btree.walk.
    rewrite <- (Permutation_rev (btree.addresses s)). exact Hnd. }
  assert (Hpost : post = btree.beyond F s q).
  { apply (split_unique pre post pre0 (btree.beyond F s q) c);
      [rewrite <- Hsplit; exact Hndw|].
    rewrite <- Hsplit. exact Hsplit0. }
  destruct (subtree_node _ q s None _ c l x r Hrep Hsub)
    as (n & Hn & Hval & Hl & Hr & Hroot).
  pose proof (subtree_height q s ltac:(rewrite Hsub; discriminate)) as Hq.
  rewrite Hsub in Hq. cbn [btree.height] in Hq.
  assert (Hlen : size code = Z.of_nat (length q)) by (apply code_size; exact Hwf).
  assert (Hfar : btree.represents (btree.m_nodes t) (Some c) (btree.next F n)
                   (if F then r else l)).
  { destruct F; assumption. }
  assert (Hfarh : (btree.height (if F then r else l)
                   <= Nat.max (btree.height l) (btree.height r))%nat).
  { destruct F; lia. }
  unfold btree.advance.
  cbn [btree.m_isEnd btree.m_node btree.m_code]. rewrite Hn.
  destruct (if F then r else l) as [|d fl y fr] eqn:Efar.
  - (* no child on the far side: climb *)
    cbn in Hfar. rewrite Hfar.
    destruct (beyond_climb F s q c l x r Hsub Efar) as [Hlast Hnext].
    destruct (path_cases F q) as [[k Hk]|(p0 & k & Hk)].
    + (* the last node in this direction *)
      rewrite (Hlast k Hk) in Hpost. subst post.
      destruct k as [|k].
      * cbn in Hk. rewrite (Hroot Hk).
        eexists. split; reflexivity.
      * assert (Hc : btree.node_at s ([] ++ repeat (negb F) (S k)) = Some c).
        { unfold btree.node_at. cbn [app]. rewrite <- Hk, Hsub. reflexivity. }
        assert (Hc' := Hc). cbn [app repeat] in Hc'. rewrite repeat_cons in Hc'.
        destruct (subtree_parent _ _ s None _ (negb F) c n Hrep Hc' Hn)
          as [Hpar [c0 Hc0]].
        rewrite Hpar, Hc0.
        assert (Hiter : to_int (size code) - 1
                        = Z.of_nat (length (@nil bool) + S k) - 1).
        { rewrite Hlen, Hk, repeat_length. rewrite to_int_small; [cbn [length]; lia|].
          assert (2 ^ 31 = 2147483648) by reflexivity.
          rewrite Hk, repeat_length in Hq. lia. }
        rewrite Hiter.
        rewrite (climb_far_steps F _ s _ code Hrep Hwf Hin [] (S k) Hk (S k) fuel c);
          auto; [|rewrite Hk, repeat_length in Hq; lia].
        destruct (btree.node_at s []) as [c1|] eqn:Hc1.
        2:{ unfold btree.node_at in Hc1. cbn in Hc1. destruct s; [|discriminate].
            rewrite subtree_leaf in Hsub. discriminate. }
        destruct (climb_at_root F _ s _ code Hrep (fuel - S k) c1
                    (Z.of_nat (length (@nil bool)) - 1) Hc1)
          as (n1 & Hn1 & Hp1 & Hclimb).
        rewrite Hclimb, Hn1, Hp1.
        eexists. split; reflexivity.
    + (* the next node is above *)
      destruct (Hnext p0 k Hk) as (c0 & rest & Hc0 & Hnextc).
      rewrite Hnextc in Hpost. subst post.
      assert (Hk' : q = (p0 ++ [F]) ++ repeat (negb F) k).
      { rewrite Hk, <- app_assoc. reflexivity. }
      assert (Hlq : length q = (length (p0 ++ [F]) + k)%nat).
      { rewrite Hk'. rewrite length_app, repeat_length. reflexivity. }
      assert (Hc : btree.node_at s ((p0 ++ [F]) ++ repeat (negb F) k) = Some c).
      { unfold btree.node_at. rewrite <- Hk', Hsub. reflexivity. }
      assert (Hparent : exists c9, btree.parent n = Some c9).
      { destruct k as [|k].
        - cbn [repeat] in Hc. rewrite app_nil_r in Hc.
          destruct (subtree_parent _ _ s None _ F c n Hrep Hc Hn) as [Hpar [c9 Hc9]].
          exists c9. congruence.
        - cbn [repeat] in Hc. rewrite repeat_cons, app_assoc in Hc.
          destruct (subtree_parent _ _ s None _ (negb F) c n Hrep Hc Hn)
            as [Hpar [c9 Hc9]].
          exists c9. congruence. }
      destruct Hparent as [c9 Hc9]. rewrite Hc9.
      assert (Hiter : to_int (size code) - 1 = Z.of_nat (length (p0 ++ [F]) + k) - 1).
      { rewrite Hlen, Hlq. rewrite to_int_small; [lia|].
        assert (2 ^ 31 = 2147483648) by reflexivity. lia. }
      rewrite Hiter.
      rewrite (climb_far_steps F _ s _ code Hrep Hwf Hin (p0 ++ [F]) k Hk' k fuel c);
        auto; [|lia].
      destruct (btree.node_at s (p0 ++ [F])) as [c1|] eqn:Hc1.
      2:{ exfalso. unfold btree.node_at in Hc, Hc1. rewrite subtree_app in Hc.
          destruct (btree.subtree s (p0 ++ [F])); [|discriminate].
          rewrite subtree_leaf in Hc. discriminate. }
      destruct (climb_at_turn F _ s _ code Hrep Hwf Hin (fuel - k) p0
                  (repeat (negb F) k) c1)
        as (n1 & c0' & Hn1 & Hp1 & Hc0' & Hclimb); auto.
      rewrite Hclimb, Hn1, Hp1.
      destruct (code_erase_tail code (length p0) Hwf Hin)
        as (code' & He & Hwf' & Hin' & Hc').
      { fold q. rewrite Hk, length_app. lia. }
      rewrite He. eexists. split; [reflexivity|].
      unfold btree.points_to. cbn [btree.m_isEnd btree.m_node btree.m_code].
      fold q in Hc'. rewrite Hk, take_app_length in Hc'.
      rewrite Hc'. repeat split; auto; congruence.
  - (* a child on the far side: its first node in this direction *)
    assert (Hd : btree.next F n = Some d) by (cbn in Hfar; tauto).
    rewrite Hd in Hfar |- *.
    destruct (code_push_back code (negb F)) as (c1 & Hp & Hwf1 & Hin1 & Hs1 & Hc1);
      auto; [lia|].
    rewrite Hp.
    assert (Hfh : (1 <= btree.height (btree.Node d fl y fr))%nat) by (cbn; lia).
    destruct (descend_spec F (btree.m_nodes t) (btree.Node d fl y fr) fuel
                (Some c) (Some d) c1)
      as (k & a' & n' & code' & Hdesc & Hwf' & Hin' & Hc' & Hat' & Hn' & Hfirst & _);
      auto; try discriminate; try lia.
    rewrite Hdesc. eexists. split; [reflexivity|].
    rewrite Hbeyond in Hpost. rewrite <- walk_head in Hfirst.
    destruct (btree.walk F (btree.Node d fl y fr)) as [|a0 ar] eqn:Ea; [discriminate|].
    cbn in Hfirst. injection Hfirst as ->. subst post. cbn [app].
    unfold btree.points_to. cbn [btree.m_isEnd btree.m_node btree.m_code].
    repeat split; auto.
    rewrite Hc', Hc1. fold q. unfold btree.node_at.
    rewrite !subtree_app, Hsub. cbn [btree.subtree].
    replace (if negb F then l else r) with (btree.Node d fl y fr)
      by (destruct F; cbn [negb]; congruence).
    exact Hat'.
Qed.

Lemma addresses_elements_length : forall s : @btree.shape T,
  length (btree.addresses s) = length (btree.elements s).
Proof.
  induction s as [|a l IHl x r IHr]; cbn; [reflexivity|].
  rewrite !length_app. cbn. lia.
Qed.

Lemma value_at (nodes : list (@btree.bnode T)) :
  forall (s : btree.shape) (par p : btree.pointer) (i a : nat),
  btree.represents nodes par p s -> btree.addresses s !! i = Some a ->
  exists n, nodes !! a = Some n /\ btree.elements s !! i = Some (btree.value n).
Proof.
  induction s as [|b l IHl x r IHr]; intros par p i a Hrep Hi; [discriminate|].
  cbn in Hrep, Hi |- *. destruct Hrep as (_ & n & Hn & Hpar & Hval & Hl & Hr).
  pose proof (addresses_elements_length l) as Hlen.
  destruct (Nat.lt_ge_cases i (length (btree.addresses l))) as [Hlt|Hge].
  - rewrite lookup_app_l in Hi by exact Hlt.
    rewrite lookup_app_l by lia. apply (IHl _ _ i a Hl Hi).
  - rewrite lookup_app_r in Hi by exact Hge.
    rewrite lookup_app_r by lia. rewrite <- Hlen.
    destruct (i - length (btree.addresses l))%nat as [|j].
    + cbn in Hi |- *. injection Hi as <-. exists n. rewrite Hval. auto.
    + cbn in Hi |- *. apply (IHr _ _ j a Hr Hi).
Qed.

(** X23: [begin()] on a tree that is not empty returns an iterator at the
    first node in order, and dereferencing it gives the first value. *)
Theorem begin_is_at_first (t : @btree.btree T) (s : btree.shape) (fuel : nat) :
  btree.tree_of t s -> btree.empty t = false ->
  (btree.height s <= fuel)%nat -> (btree.height s <= 120)%nat ->
  exists it a,
    btree.begin junk fuel t = Returns it
    /\ btree.points_to s it a
    /\ head (btree.addresses s) = Some a
    /\ btree.deref (btree.m_nodes t) it = head (btree.elements s).
Proof.
  intros Htree Hne Hfuel Hh.
  destruct (begin_spec t s fuel Htree Hne Hfuel Hh)
    as (it & a & n & Hb & Hpt & Hn & Hfirst & Hval).
  exists it, a. split; [exact Hb|]. split; [exact Hpt|]. split; [exact Hfirst|].
  destruct Hpt as (_ & Hnode & _). unfold btree.deref. rewrite Hnode.
  cbn [mbind option_bind]. rewrite Hn. cbn. symmetry. exact Hval.
Qed.

(** X24: [end()] on a tree that is not empty returns an iterator with the
    end mark set whose node is the last node in order. *)
Theorem end_is_at_last (t : @btree.btree T) (s : btree.shape) (fuel : nat) :
  btree.tree_of t s -> btree.empty t = false ->
  (btree.height s <= fuel)%nat -> (btree.height s <= 120)%nat ->
  exists it a,
    btree.end_ junk fuel t = Returns it
    /\ btree.m_isEnd it = true /\ btree.m_node it = Some a
    /\ btree.node_at s (contents (btree.m_code it)) = Some a
    /\ last (btree.addresses s) = Some a
    /\ btree.deref (btree.m_nodes t) it = last (btree.elements s).
Proof.
  intros Htree Hne Hfuel Hh.
  destruct (end_spec t s fuel Htree Hne Hfuel Hh)
    as (code & a & n & k & He & Hwf & Hin & _ & Hat & Hn & Hlast & Hval).
  eexists _, a. split; [exact He|].
  cbn [btree.m_isEnd btree.m_node btree.m_code].
  repeat split; auto.
  unfold btree.deref. cbn [btree.m_node mbind option_bind]. rewrite Hn.
  cbn. symmetry. exact Hval.
Qed.

(** X25: [operator++] on an iterator at a node moves it to the node that
    follows in order and keeps its code the way to its node; on the last
    node it sets the end mark. *)
Theorem increment_moves_to_next (t : @btree.btree T) (s : btree.shape)
    (it : btree.iterator) (c : nat) (pre post : list nat) (fuel : nat) :
  btree.tree_of t s -> btree.points_to s it c ->
  btree.addresses s = pre ++ c :: post ->
  (btree.height s <= fuel)%nat -> (btree.height s <= 120)%nat ->
  exists it', btree.increment junk fuel (btree.m_nodes t) it = Returns it'
    /\ match post with
       | [] => btree.m_isEnd it' = true
       | c' :: _ => btree.points_to s it' c'
       end.
Proof.
  intros Htree Hpt Hsplit Hfuel Hh.
  apply (advance_spec true t s it c pre post fuel Htree Hpt Hsplit Hfuel Hh).
Qed.

(** X27: [operator--] on an iterator at a node moves it to the node that
    precedes in order and keeps its code the way to its node; on the first
    node it sets the end mark. *)
Theorem decrement_moves_to_previous (t : @btree.btree T) (s : btree.shape)
    (it : btree.iterator) (c : nat) (pre post : list nat) (fuel : nat) :
  btree.tree_of t s -> btree.points_to s it c ->
  btree.addresses s = pre ++ c :: post ->
  (btree.height s <= fuel)%nat -> (btree.height s <= 120)%nat ->
  exists it', btree.decrement junk fuel (btree.m_nodes t) it = Returns it'
    /\ match last pre with
       | None => btree.m_isEnd it' = true
       | Some c' => btree.points_to s it' c'
       end.
Proof.
  intros Htree Hpt Hsplit Hfuel Hh.
  assert (Hwalk : btree.walk false s = rev post ++ c :: rev pre).
  { unfold btree.walk. rewrite Hsplit, rev_app_distr. cbn.
    rewrite <- app_assoc. reflexivity. }
  destruct (advance_spec false t s it c (rev post) (rev pre) fuel
              Htree Hpt Hwalk Hfuel Hh) as (it' & Ha & Hnext).
  exists it'. split; [exact Ha|].
  destruct pre as [|y pre _] using rev_ind; [exact Hnext|].
  rewrite rev_unit in Hnext. rewrite last_snoc. exact Hnext.
Qed.

(** X28: decrementing the iterator [end()] returns gives an iterator at the
    last node only when that node is the root; otherwise the iterator keeps
    its end mark and its code, and its node becomes the parent of the last
    node. *)
Theorem decrement_of_end (t : @btree.btree T) (s : btree.shape) (fuel : nat) :
  btree.tree_of t s -> btree.empty t = false ->
  (btree.height s <= fuel)%nat -> (btree.height s <= 120)%nat ->
  exists it it' a k,
    btree.end_ junk fuel t = Returns it
    /\ btree.decrement junk fuel (btree.m_nodes t) it = Returns it'
    /\ last (btree.addresses s) = Some a
    /\ contents (btree.m_code it) = repeat false k
    /\ (k = 0%nat -> btree.points_to s it' a)
    /\ ((0 < k)%nat ->
          btree.m_isEnd it' = true /\ btree.m_code it' = btree.m_code it
          /\ btree.m_node it' = btree.node_at s (repeat false (k - 1))
          /\ btree.m_node it' <> Some a).
Proof.
  intros Htree Hne Hfuel Hh.
  destruct (end_spec t s fuel Htree Hne Hfuel Hh)
    as (code & a & n & k & He & Hwf & Hin & Hk & Hat & Hn & Hlast & Hval).
  destruct Htree as [Hrep Hnd].
  unfold btree.decrement, btree.advance.
  rewrite Hk in Hat.
  destruct k as [|k].
  - (* the last node is the root *)
    unfold btree.node_at in Hat. cbn [repeat btree.subtree] in Hat.
    destruct s as [|c l x r] eqn:Es; [discriminate|]. cbn in Hat. injection Hat as ->.
    destruct (subtree_node _ [] (btree.Node a l x r) None _ a l x r Hrep eq_refl)
      as (n' & Hn' & _ & _ & _ & Hroot).
    rewrite Hn in Hn'. injection Hn' as <-.
    eexists _, _, a, 0%nat. split; [exact He|].
    cbn [btree.m_isEnd btree.m_node btree.m_code negb]. rewrite Hn.
    rewrite (Hroot eq_refl).
    split; [reflexivity|]. split; [exact Hlast|]. split; [exact Hk|].
    split; [|intros H; lia]. intros _.
    unfold btree.points_to. cbn [btree.m_isEnd btree.m_node btree.m_code].
    rewrite Hk. auto.
  - cbn [repeat] in Hat. rewrite repeat_cons in Hat.
    destruct (subtree_parent _ _ s None _ false a n Hrep Hat Hn) as [Hpar [p Hp]].
    eexists _, _, a, (S k). split; [exact He|].
    cbn [btree.m_isEnd btree.m_node btree.m_code negb]. rewrite Hn.
    rewrite Hpar, Hp.
    split; [reflexivity|]. split; [exact Hlast|]. split; [exact Hk|].
    split; [intros H; discriminate|]. intros _.
    cbn [btree.m_isEnd btree.m_node btree.m_code].
    replace (S k - 1)%nat with k by lia.
    repeat split; auto.
    (* the parent is another node *)
    intros E. injection E as ->.
    assert (Hsub : btree.subtree s (repeat false k) <> btree.Leaf).
    { unfold btree.node_at in Hp. intros E. rewrite E in Hp. discriminate. }
    unfold btree.node_at in Hp, Hat.
    destruct (btree.subtree s (repeat false k)) as [|c l x r] eqn:Ek; [contradiction|].
    cbn in Hp. injection Hp as ->.
    rewrite subtree_app, Ek in Hat. cbn [btree.subtree] in Hat.
    destruct (beyond_split true s (repeat false k) a l x r Ek)
      as (pre & up & Hsplit & Hbeyond).
    cbn [btree.walk] in Hsplit, Hbeyond.
    destruct r as [|a' rl y rr]; [discriminate|]. cbn in Hat. injection Hat as ->.
    rewrite Hbeyond in Hsplit. rewrite Hsplit in Hnd.
    apply NoDup_app in Hnd as (_ & _ & Hnd). apply NoDup_cons in Hnd as [Hnot _].
    apply Hnot. apply elem_of_app. left. cbn. apply elem_of_app. right. left.
Qed.

(** X26: dereferencing an iterator whose node is the [i]-th in order gives
    the [i]-th value in order. *)
Theorem deref_reads_element_in_order (t : @btree.btree T) (s : btree.shape)
    (it : btree.iterator) (i a : nat) :
  btree.tree_of t s -> btree.m_node it = Some a ->
  btree.addresses s !! i = Some a ->
  exists x, btree.deref (btree.m_nodes t) it = Some x /\ btree.elements s !! i = Some x.
Proof.
  intros [Hrep _] Hnode Hi.
  destruct (value_at _ s _ _ i a Hrep Hi) as (n & Hn & Hx).
  exists (btree.value n). split; [|exact Hx].
  unfold btree.deref. rewrite Hnode. cbn [mbind option_bind]. rewrite Hn. reflexivity.
Qed.

(** ** emplace_hint *)

Lemma code_pop_back (c : bvec) (q : list bool) (b : bool) :
  well_formed c = true -> is_heap c = false -> contents c = q ++ [b] ->
  well_formed (pop_back c) = true /\ is_heap (pop_back c) = false
  /\ contents (pop_back c) = q.
Proof.
  intros Hwf Hin Hc.
  assert (Hs : size c = Z.of_nat (length q) + 1).
  { rewrite (code_size c Hwf), Hc, length_app. cbn. lia. }
  destruct (pop_back_spec c Hwf ltac:(lia)) as (Hwf' & Hsz & _ & Hh & Hbits).
  split; [exact Hwf'|]. split; [congruence|].
  rewrite (contents_resized c (pop_back c) (size c - 1) false); try lia.
  - rewrite Hc, Hs.
    replace (Z.to_nat (Z.of_nat (length q) + 1 - 1)) with (length q) by lia.
    rewrite take_app_length.
    replace (Z.to_nat (Z.of_nat (length q) + 1 - 1 - (Z.of_nat (length q) + 1)))
      with 0%nat by lia.
    cbn. apply app_nil_r.
  - intros pos Hpos. rewrite Hbits.
    destruct (Z.ltb_spec pos (size c)); [reflexivity | lia].
Qed.

Lemma code_emplace_back (c : bvec) (b : bool) :
  well_formed c = true -> is_heap c = false -> size c < 120 ->
  exists c', emplace_back junk c b = Some (c', size c)
    /\ well_formed c' = true /\ is_heap c' = false
    /\ size c' = size c + 1
    /\ contents c' = contents c ++ [b]
    /\ get_at c' (size c) = Some b.
Proof.
  intros Hwf Hin Hsz. pose proof (size_nonneg c Hwf) as Hs.
  destruct (code_push_back c b Hwf Hin Hsz) as (c' & Hp & Hwf' & Hin' & Hs' & Hc').
  exists c'. unfold emplace_back. unfold push_back in Hp. rewrite Hp.
  cbn [mbind option_bind]. repeat split; auto.
  rewrite (get_at_bit c' (size c) Hwf') by lia. f_equal.
  assert (Hl : contents c' !! Z.to_nat (size c) = Some b).
  { rewrite Hc', lookup_app_r by (rewrite contents_length; lia).
    rewrite contents_length, Nat.sub_diag. reflexivity. }
  rewrite contents_lookup in Hl by lia. injection Hl as <-.
  f_equal. lia.
Qed.

Lemma subtree_addresses : forall (q : list bool) (s : @btree.shape T) (d : nat),
  d ∈ btree.addresses (btree.subtree s q) -> d ∈ btree.addresses s.
Proof.
  induction q as [|b q IH]; intros s d Hd; [exact Hd|].
  destruct s as [|a l x r]; [exact Hd|]. cbn in Hd |- *.
  apply elem_of_app. destruct b; [left | right; right]; apply (IH _ d Hd).
Qed.

Lemma subtree_NoDup : forall (q : list bool) (s : @btree.shape T),
  NoDup (btree.addresses s) -> NoDup (btree.addresses (btree.subtree s q)).
Proof.
  induction q as [|b q IH]; intros s Hnd; [exact Hnd|].
  destruct s as [|a l x r]; [exact Hnd|]. cbn in Hnd |- *.
  apply NoDup_app in Hnd as (Hl & _ & Hr). apply NoDup_cons in Hr as [_ Hr].
  destruct b; apply IH; assumption.
Qed.

Lemma subtree_graft : forall (q p : list bool) (s s1 : @btree.shape T),
  btree.subtree s q <> btree.Leaf ->
  btree.subtree (btree.graft s q s1) (q ++ p) = btree.subtree s1 p.
Proof.
  induction q as [|b q IH]; intros p s s1 Hne; [reflexivity|].
  destruct s as [|a l x r]; [contradiction|]. cbn in Hne |- *.
  destruct b; cbn; apply IH; exact Hne.
Qed.

Lemma graft_addresses : forall (q : list bool) (s s0 s1 : @btree.shape T) (a : nat),
  btree.subtree s q = s0 -> s0 <> btree.Leaf ->
  btree.addresses s1 ≡ₚ a :: btree.addresses s0 ->
  btree.addresses (btree.graft s q s1) ≡ₚ a :: btree.addresses s.
Proof.
  induction q as [|b q IH]; intros s s0 s1 a Hsub Hne Hperm.
  - cbn in Hsub |- *. subst s0. exact Hperm.
  - destruct s as [|c l x r]; [cbn in Hsub; congruence|]. cbn in Hsub |- *.
    destruct b; cbn.
    + rewrite (IH l s0 s1 a Hsub Hne Hperm). reflexivity.
    + rewrite (IH r s0 s1 a Hsub Hne Hperm).
      replace (btree.addresses l ++ c :: a :: btree.addresses r)
        with ((btree.addresses l ++ [c]) ++ a :: btree.addresses r)
        by (rewrite <- app_assoc; reflexivity).
      rewrite <- Permutation_middle, <- app_assoc. reflexivity.
Qed.

Lemma graft_elements : forall (q : list bool) (s s0 s1 : @btree.shape T) (v : T),
  btree.subtree s q = s0 -> s0 <> btree.Leaf ->
  btree.elements s1 ≡ₚ v :: btree.elements s0 ->
  btree.elements (btree.graft s q s1) ≡ₚ v :: btree.elements s.
Proof.
  induction q as [|b q IH]; intros s s0 s1 v Hsub Hne Hperm.
  - cbn in Hsub |- *. subst s0. exact Hperm.
  - destruct s as [|c l x r]; [cbn in Hsub; congruence|]. cbn in Hsub |- *.
    destruct b; cbn.
    + rewrite (IH l s0 s1 v Hsub Hne Hperm). reflexivity.
    + rewrite (IH r s0 s1 v Hsub Hne Hperm).
      replace (btree.elements l ++ x :: v :: btree.elements r)
        with ((btree.elements l ++ [x]) ++ v :: btree.elements r)
        by (rewrite <- app_assoc; reflexivity).
      rewrite <- Permutation_middle, <- app_assoc. reflexivity.
Qed.

(** A change of the store inside a subtree, seen from the whole tree. *)
Lemma graft_represents (nodes nodes' : list (@btree.bnode T)) :
  forall (q : list bool) (s : btree.shape) (par p : btree.pointer)
         (c : nat) (l : btree.shape) (x : T) (r s1 : btree.shape) (n : btree.bnode),
  btree.represents nodes par p s -> NoDup (btree.addresses s) ->
  btree.subtree s q = btree.Node c l x r -> nodes !! c = Some n ->
  btree.represents nodes' (btree.parent n) (Some c) s1 ->
  (forall d, d ∈ btree.addresses s -> d ∉ btree.addresses (btree.Node c l x r) ->
     nodes' !! d = nodes !! d) ->
  btree.represents nodes' par p (btree.graft s q s1).
Proof.
  induction q as [|b q IH]; intros s par p c l x r s1 n Hrep Hnd Hsub Hn Hs1 Hframe.
  - cbn in Hsub |- *. subst s. cbn in Hrep.
    destruct Hrep as (-> & n' & Hn' & Hpar & _).
    rewrite Hn in Hn'. injection Hn' as <-. rewrite <- Hpar. exact Hs1.
  - destruct s as [|a sl sx sr]; [discriminate|].
    cbn in Hrep, Hsub. destruct Hrep as (-> & na & Hna & Hpar & Hval & Hl & Hr).
    cbn [btree.addresses] in Hnd.
    apply NoDup_app in Hnd as (Hndl & Hlr & Hnd).
    apply NoDup_cons in Hnd as (Har & Hndr).
    assert (Hal : a ∉ btree.addresses sl).
    { intros Hin. apply (Hlr a Hin). left. }
    assert (Hinside : forall d, d ∈ btree.addresses (btree.Node c l x r) ->
                        d ∈ btree.addresses (if b then sl else sr)).
    { intros d Hd. rewrite <- Hsub in Hd. apply (subtree_addresses q _ d Hd). }
    assert (Ha : nodes' !! a = Some na).
    { rewrite Hframe; [exact Hna | cbn; apply elem_of_app; right; left|].
      intros Hd. apply Hinside in Hd. destruct b; contradiction. }
    destruct b; cbn [btree.graft btree.represents].
    + split; [reflexivity|]. exists na. repeat split; auto.
      * apply (IH sl _ _ c l x r s1 n Hl Hndl Hsub Hn Hs1).
        intros d Hd Hnot. apply Hframe; [|exact Hnot].
        cbn. apply elem_of_app. left. exact Hd.
      * apply (represents_frame nodes); [|exact Hr].
        intros d Hd. apply Hframe; [cbn; apply elem_of_app; right; right; exact Hd|].
        intros Hin. apply Hinside in Hin. apply (Hlr d Hin). right. exact Hd.
    + split; [reflexivity|]. exists na. repeat split; auto.
      * apply (represents_frame nodes); [|exact Hl].
        intros d Hd. apply Hframe; [cbn; apply elem_of_app; left; exact Hd|].
        intros Hin. apply Hinside in Hin. apply (Hlr d Hd). right. exact Hin.
      * apply (IH sr _ _ c l x r s1 n Hr Hndr Hsub Hn Hs1).
        intros d Hd Hnot. apply Hframe; [|exact Hnot].
        cbn. apply elem_of_app. right. right. exact Hd.
Qed.

Section Hint.

Variable cmp : T -> T -> bool.

(** The first loop of [emplace_hint] stops at a node on the way from the
    root to the hint, with the code cut back to the way to that node. *)
Lemma hint_loop_spec (v : T) (nodes : list (@btree.bnode T)) (s : btree.shape)
    (root : btree.pointer) :
  btree.represents nodes None root s ->
  forall (q : list bool) (fuel : nat) (h : nat) (code : bvec),
  well_formed code = true -> is_heap code = false -> contents code = q ->
  btree.node_at s q = Some h -> (length q <= fuel)%nat ->
  exists q' c code',
    btree.hint_loop cmp fuel nodes v (Some h) code = Returns (Some c, code')
    /\ well_formed code' = true /\ is_heap code' = false
    /\ contents code' = q' /\ btree.node_at s q' = Some c
    /\ (length q' <= length q)%nat.
Proof.
  intros Hrep. induction q as [|b q IH] using rev_ind;
    intros fuel h code Hwf Hin Hc Hat Hfuel.
  - unfold btree.node_at in Hat. cbn [btree.subtree] in Hat.
    destruct s as [|c l x r] eqn:Es; [discriminate|]. cbn in Hat. injection Hat as ->.
    destruct (subtree_node nodes [] (btree.Node h l x r) None root h l x r Hrep eq_refl)
      as (n & Hn & _ & _ & _ & Hpar).
    exists [], h, code. split.
    { destruct fuel; cbn [btree.hint_loop]; rewrite Hn, (Hpar eq_refl); reflexivity. }
    rewrite <- Es. unfold btree.node_at. rewrite Es. cbn. auto 10.
  - destruct (node_at_lookup nodes s root Hrep _ h Hat) as [n Hn].
    destruct (subtree_parent nodes _ s None root b h n Hrep Hat Hn) as [Hpar [g Hg]].
    destruct (node_at_lookup nodes s root Hrep _ g Hg) as [above Ha].
    assert (Hs : size code = Z.of_nat (length q) + 1).
    { rewrite (code_size code Hwf), Hc, length_app. cbn. lia. }
    assert (Hback : get_at code (wrap 64 (size code - 1)) = Some b).
    { replace (size code - 1) with (Z.of_nat (length q)) by lia.
      apply (code_get_at code (length q) b Hwf Hin).
      rewrite Hc, lookup_app_r by lia. rewrite Nat.sub_diag. reflexivity. }
    rewrite length_app in Hfuel. cbn [length] in Hfuel.
    destruct fuel as [|k]; [lia|].
    cbn [btree.hint_loop]. rewrite Hn, Hpar, Hg, Ha, Hback.
    destruct (Bool.eqb b (cmp v (btree.value above))); cbn [negb].
    + exists (q ++ [b]), h, code. repeat split; auto.
    + destruct (code_pop_back code q b Hwf Hin Hc) as (Hwf' & Hin' & Hc').
      destruct (IH k g (pop_back code) Hwf' Hin' Hc' Hg ltac:(lia))
        as (q' & c & code' & Hl & Hwf2 & Hin2 & Hc2 & Hat2 & Hlen).
      exists q', c, code'. repeat split; auto.
      rewrite length_app. cbn [length]. lia.
Qed.

(** What [emplace_hint] computes: with [q] the way to the node its first
    loop stops at, the rest is the loop of [emplace] below that node. *)
Lemma emplace_hint_result (nodes : list (@btree.bnode T)) (root : btree.pointer)
    (s : btree.shape) (hint : btree.iterator) (h : nat) (v : T) (fuel : nat) :
  btree.represents nodes None root s -> NoDup (btree.addresses s) ->
  btree.m_node hint = Some h ->
  well_formed (btree.m_code hint) = true -> is_heap (btree.m_code hint) = false ->
  btree.node_at s (contents (btree.m_code hint)) = Some h ->
  (btree.height s <= fuel)%nat -> (btree.height s <= 120)%nat ->
  exists q c l x r n code1 code3 t1,
    btree.hint_loop cmp fuel nodes v (Some h) (btree.m_code hint)
      = Returns (Some c, code1)
    /\ contents code1 = q
    /\ btree.subtree s q = btree.Node c l x r
    /\ nodes !! c = Some n
    /\ well_formed code3 = true /\ is_heap code3 = false
    /\ contents code3 = q ++ btree.insert_path cmp (btree.Node c l x r) v
    /\ btree.write_slot (btree.mk_btree nodes root)
         (btree.last_slot cmp btree.root_slot (btree.Node c l x r) v)
         (Some (length nodes)) = Some t1
    /\ btree.emplace_hint cmp junk fuel (btree.mk_btree nodes root) hint v
       = Returns
           (btree.mk_btree
              (btree.m_nodes t1
               ++ [btree.mk_bnode
                     (btree.last_parent cmp (btree.parent n) (btree.Node c l x r) v)
                     None None v])
              (btree.m_root t1),
            btree.mk_iterator (Some (length nodes)) code3 false).
Proof.
  intros Hrep Hnd Hnode Hwf Hin Hat Hfuel Hh.
  destruct hint as [node code0 isEnd]. cbn [btree.m_node btree.m_code] in *.
  subst node.
  assert (Hq0 : (length (contents code0) + 1 <= btree.height s)%nat).
  { unfold btree.node_at in Hat.
    pose proof (subtree_height (contents code0) s) as H.
    destruct (btree.subtree s (contents code0)) as [|c l x r]; [discriminate|].
    specialize (H ltac:(discriminate)). cbn [btree.height] in H. lia. }
  unfold btree.emplace_hint. cbn [btree.m_node btree.m_code btree.m_nodes].
  rewrite (code_copy code0 Hwf Hin).
  destruct (hint_loop_spec v nodes s root Hrep (contents code0) fuel h code0
              Hwf Hin eq_refl Hat ltac:(lia))
    as (q & c & code1 & Hloop & Hwf1 & Hin1 & Hc1 & Hatq & Hlen).
  rewrite Hloop.
  unfold btree.node_at in Hatq.
  destruct (btree.subtree s q) as [|c' l x r] eqn:Hsub; [discriminate|].
  cbn in Hatq. injection Hatq as ->.
  destruct (subtree_node nodes q s None root c l x r Hrep Hsub)
    as (n & Hn & Hval & Hl & Hr & _).
  rewrite Hn, Hval.
  pose proof (subtree_height q s ltac:(rewrite Hsub; discriminate)) as Hqh.
  rewrite Hsub in Hqh. cbn [btree.height] in Hqh.
  assert (Hs1 : size code1 = Z.of_nat (length q)).
  { rewrite (code_size code1 Hwf1), Hc1. reflexivity. }
  destruct (code_emplace_back code1 (cmp v x) Hwf1 Hin1 ltac:(lia))
    as (code2 & He & Hwf2 & Hin2 & Hs2 & Hc2 & Hget).
  rewrite He, Hget.
  (* the loop of [emplace] below the child the value goes to *)
  assert (Hdown : exists code3,
            btree.emplace_loop cmp junk fuel (btree.mk_btree nodes root) v (Some c)
              (if cmp v x then btree.positive_slot c else btree.negative_slot c) code2
            = Returns (btree.last_parent cmp (btree.parent n) (btree.Node c l x r) v,
                       btree.last_slot cmp btree.root_slot (btree.Node c l x r) v,
                       code3)
            /\ well_formed code3 = true /\ is_heap code3 = false
            /\ contents code3 = q ++ btree.insert_path cmp (btree.Node c l x r) v).
  { cbn [btree.last_parent btree.last_slot btree.insert_path].
    destruct (cmp v x).
    - destruct (emplace_loop_spec cmp v (btree.mk_btree nodes root) l fuel (Some c)
                  (btree.positive n) (btree.positive_slot c) code2)
        as (code3 & Hl3 & Hwf3 & Hin3 & Hc3 & _); auto; try lia.
      { cbn. rewrite Hn. reflexivity. }
      exists code3. repeat split; auto.
      rewrite Hc3, Hc2, Hc1, <- app_assoc. reflexivity.
    - destruct (emplace_loop_spec cmp v (btree.mk_btree nodes root) r fuel (Some c)
                  (btree.negative n) (btree.negative_slot c) code2)
        as (code3 & Hl3 & Hwf3 & Hin3 & Hc3 & _); auto; try lia.
      { cbn. rewrite Hn. reflexivity. }
      exists code3. repeat split; auto.
      rewrite Hc3, Hc2, Hc1, <- app_assoc. reflexivity. }
  destruct Hdown as (code3 & Hdown & Hwf3 & Hin3 & Hc3).
  rewrite Hdown.
  assert (Hsubrep : btree.represents nodes (btree.parent n) (Some c) (btree.Node c l x r)).
  { cbn. split; [reflexivity|]. exists n. auto. }
  destruct (inserted_represents cmp v nodes root (btree.Node c l x r) (btree.parent n)
              (Some c) btree.root_slot)
    as (c0 & t1 & Hlast & Hc0 & Hw & _); auto; try discriminate.
  { rewrite <- Hsub. apply subtree_NoDup. exact Hnd. }
  rewrite Hw. unfold btree.make_iterator. rewrite (code_copy code3 Hwf3 Hin3).
  exists q, c, l, x, r, n, code1, code3, t1. auto 12.
Qed.

(** X29: [emplace_hint] with a hint at a node of the tree returns; the nodes
    still form a tree, which holds the old nodes and one new node and the
    old values and the new value, and the returned iterator is at the new
    node, its code the way to it. *)
Theorem emplace_hint_adds_one_node (t : @btree.btree T) (s : btree.shape)
    (hint : btree.iterator) (h : nat) (v : T) (fuel : nat) :
  btree.tree_of t s ->
  btree.m_node hint = Some h ->
  well_formed (btree.m_code hint) = true -> is_heap (btree.m_code hint) = false ->
  btree.node_at s (contents (btree.m_code hint)) = Some h ->
  (btree.height s <= fuel)%nat -> (btree.height s <= 120)%nat ->
  exists t' it s' a,
    btree.emplace_hint cmp junk fuel t hint v = Returns (t', it)
    /\ btree.tree_of t' s'
    /\ btree.points_to s' it a
    /\ btree.addresses s' ≡ₚ a :: btree.addresses s
    /\ btree.elements s' ≡ₚ v :: btree.elements s
    /\ btree.deref (btree.m_nodes t') it = Some v.
Proof.
  intros [Hrep Hnd] Hnode Hwf Hin Hat Hfuel Hh.
  destruct t as [nodes root]. cbn [btree.m_nodes btree.m_root] in *.
  destruct (emplace_hint_result nodes root s hint h v fuel Hrep Hnd Hnode Hwf Hin
              Hat Hfuel Hh)
    as (q & c & l & x & r & n & code1 & code3 & t1
        & _ & _ & Hsub & Hn & Hwf3 & Hin3 & Hc3 & Hw & He).
  destruct (subtree_node nodes q s None root c l x r Hrep Hsub)
    as (n' & Hn' & Hval & Hl & Hr & _).
  rewrite Hn in Hn'. injection Hn' as <-.
  assert (Hsubrep : btree.represents nodes (btree.parent n) (Some c) (btree.Node c l x r)).
  { cbn. split; [reflexivity|]. exists n. auto. }
  destruct (inserted_represents cmp v nodes root (btree.Node c l x r) (btree.parent n)
              (Some c) btree.root_slot)
    as (c0 & t1' & Hlast & Hc0 & Hw' & Hroot & Hlent & Hframe & Hrep1); auto;
    try discriminate.
  { rewrite <- Hsub. apply subtree_NoDup. exact Hnd. }
  rewrite Hw in Hw'. injection Hw' as <-. rewrite Hlast in He.
  set (a := length nodes) in *.
  set (s1 := btree.inserted cmp a (btree.Node c l x r) v) in *.
  assert (Hfresh : a ∉ btree.addresses s).
  { intros Ha. pose proof (represents_inside _ _ _ _ Hrep a Ha). unfold a in *. lia. }
  assert (Hperm : btree.addresses (btree.graft s q s1) ≡ₚ a :: btree.addresses s).
  { apply (graft_addresses q s (btree.Node c l x r)); auto; try discriminate.
    apply addresses_inserted. }
  assert (Hnew : (btree.m_nodes t1 ++ [btree.mk_bnode (Some c0) None None v]) !! a
                 = Some (btree.mk_bnode (Some c0) None None v)).
  { rewrite lookup_app_r by (rewrite Hlent; unfold a; lia).
    rewrite Hlent. unfold a. rewrite Nat.sub_diag. reflexivity. }
  eexists _, _, (btree.graft s q s1), a. split; [exact He|].
  cbn [btree.m_nodes btree.m_root].
  split; [split|].
  - rewrite Hroot.
    apply (graft_represents nodes _ q s None root c l x r s1 n Hrep Hnd Hsub Hn Hrep1).
    intros d Hd Hnot.
    pose proof (represents_inside _ _ _ _ Hrep d Hd) as Hdi.
    rewrite lookup_app_l by (rewrite Hlent; exact Hdi).
    apply Hframe. intros ->. contradiction.
  - rewrite Hperm. apply NoDup_cons_2; assumption.
  - split.
    { unfold btree.points_to. cbn [btree.m_isEnd btree.m_node btree.m_code].
      repeat split; auto.
      rewrite Hc3. unfold btree.node_at.
      rewrite subtree_graft by (rewrite Hsub; discriminate).
      apply node_at_inserted. }
    split; [exact Hperm|]. split.
    { apply (graft_elements q s (btree.Node c l x r)); auto; try discriminate.
      apply elements_inserted_perm. }
    unfold btree.deref. cbn [btree.m_node mbind option_bind].
    rewrite Hnew. reflexivity.
Qed.

(** *** A hint on the way [emplace] takes *)

Lemma last_slot_node (v : T) (s : btree.shape) (sl sl' : btree.slot) :
  s <> btree.Leaf -> btree.last_slot cmp sl s v = btree.last_slot cmp sl' s v.
Proof. destruct s; [contradiction | reflexivity]. Qed.

Lemma last_parent_node (v : T) (s : btree.shape) (par par' : btree.pointer) :
  s <> btree.Leaf -> btree.last_parent cmp par s v = btree.last_parent cmp par' s v.
Proof. destruct s; [contradiction | reflexivity]. Qed.

Lemma on_the_way (v : T) : forall (q rest : list bool) (s : btree.shape)
    (sl : btree.slot) (par : btree.pointer),
  btree.insert_path cmp s v = q ++ rest -> btree.subtree s q <> btree.Leaf ->
  btree.last_slot cmp sl s v = btree.last_slot cmp sl (btree.subtree s q) v
  /\ btree.last_parent cmp par s v = btree.last_parent cmp par (btree.subtree s q) v
  /\ btree.insert_path cmp s v = q ++ btree.insert_path cmp (btree.subtree s q) v.
Proof.
  induction q as [|b q IH]; intros rest s sl par Hpath Hne; [auto|].
  destruct s as [|c l x r]; [contradiction|].
  cbn [btree.subtree] in Hne |- *.
  cbn [btree.insert_path btree.last_slot btree.last_parent] in Hpath |- *.
  destruct (cmp v x); cbn in Hpath; injection Hpath as <- Hpath; cbn [app].
  - destruct (IH rest l (btree.positive_slot c) (Some c) Hpath Hne) as (H1 & H2 & H3).
    rewrite H1, H2, H3.
    rewrite (last_slot_node v _ _ sl Hne), (last_parent_node v _ _ par Hne). auto.
  - destruct (IH rest r (btree.negative_slot c) (Some c) Hpath Hne) as (H1 & H2 & H3).
    rewrite H1, H2, H3.
    rewrite (last_slot_node v _ _ sl Hne), (last_parent_node v _ _ par Hne). auto.
Qed.

Lemma insert_path_bit (v : T) : forall (q rest : list bool) (b : bool)
    (s : btree.shape) (g : nat) (l : btree.shape) (x : T) (r : btree.shape),
  btree.insert_path cmp s v = q ++ b :: rest ->
  btree.subtree s q = btree.Node g l x r -> b = cmp v x.
Proof.
  induction q as [|b0 q IH]; intros rest b s g l x r Hpath Hsub.
  - cbn in Hsub. subst s. cbn in Hpath. destruct (cmp v x); cbn in Hpath; congruence.
  - destruct s as [|c sl sx sr]; [discriminate|].
    cbn in Hsub, Hpath.
    destruct (cmp v sx); cbn in Hpath; injection Hpath as <- Hpath;
      apply (IH rest b _ g l x r Hpath Hsub).
Qed.

(** With the hint on that way the first loop does not move. *)
Lemma hint_loop_stays (v : T) (nodes : list (@btree.bnode T)) (s : btree.shape)
    (root : btree.pointer) (code : bvec) (h : nat) (rest : list bool) (fuel : nat) :
  btree.represents nodes None root s ->
  well_formed code = true -> is_heap code = false ->
  btree.node_at s (contents code) = Some h ->
  btree.insert_path cmp s v = contents code ++ rest ->
  btree.hint_loop cmp fuel nodes v (Some h) code = Returns (Some h, code).
Proof.
  intros Hrep Hwf Hin Hat Hpath.
  destruct (node_at_lookup nodes s root Hrep _ h Hat) as [n Hn].
  destruct (contents code) as [|b0 q0] eqn:Hc using rev_ind.
  - unfold btree.node_at in Hat. cbn [btree.subtree] in Hat.
    destruct s as [|c l x r] eqn:Es; [discriminate|]. cbn in Hat. injection Hat as ->.
    destruct (subtree_node nodes [] (btree.Node h l x r) None root h l x r Hrep eq_refl)
      as (n' & Hn' & _ & _ & _ & Hpar).
    destruct fuel; cbn [btree.hint_loop]; rewrite Hn', (Hpar eq_refl); reflexivity.
  - clear IHq0.
    destruct (subtree_parent nodes _ s None root b0 h n Hrep Hat Hn) as [Hpar [g Hg]].
    unfold btree.node_at in Hg.
    destruct (btree.subtree s q0) as [|g' l x r] eqn:Hsub; [discriminate|].
    cbn in Hg. injection Hg as ->.
    destruct (subtree_node nodes q0 s None root g l x r Hrep Hsub)
      as (above & Ha & Hval & _).
    rewrite <- app_assoc in Hpath. cbn [app] in Hpath.
    pose proof (insert_path_bit v q0 rest b0 s g l x r Hpath Hsub) as Hb.
    assert (Hs : size code = Z.of_nat (length q0) + 1).
    { rewrite (code_size code Hwf), Hc, length_app. cbn. lia. }
    assert (Hback : get_at code (wrap 64 (size code - 1)) = Some b0).
    { replace (size code - 1) with (Z.of_nat (length q0)) by lia.
      apply (code_get_at code (length q0) b0 Hwf Hin).
      rewrite Hc, lookup_app_r by lia. rewrite Nat.sub_diag. reflexivity. }
    unfold btree.node_at in Hpar. rewrite Hsub in Hpar. cbn in Hpar.
    destruct fuel; cbn [btree.hint_loop];
      rewrite Hn, Hpar, Ha, Hback, Hval, Hb, Bool.eqb_reflx; reflexivity.
Qed.

(** X30: with a hint at a node on the way [emplace] takes for the value,
    [emplace_hint] builds the same tree as [emplace], and the two iterators
    are at the same node with the same code. *)
Theorem emplace_hint_on_the_way (t : @btree.btree T) (s : btree.shape)
    (hint : btree.iterator) (h : nat) (v : T) (rest : list bool) (fuel : nat) :
  btree.tree_of t s ->
  btree.m_node hint = Some h ->
  well_formed (btree.m_code hint) = true -> is_heap (btree.m_code hint) = false ->
  btree.node_at s (contents (btree.m_code hint)) = Some h ->
  btree.insert_path cmp s v = contents (btree.m_code hint) ++ rest ->
  (btree.height s <= fuel)%nat -> (btree.height s <= 120)%nat ->
  exists t' it it0,
    btree.emplace_hint cmp junk fuel t hint v = Returns (t', it)
    /\ btree.emplace cmp junk fuel t v = Returns (t', it0)
    /\ btree.m_node it = btree.m_node it0
    /\ contents (btree.m_code it) = contents (btree.m_code it0)
    /\ btree.m_isEnd it = btree.m_isEnd it0.
Proof.
  intros [Hrep Hnd] Hnode Hwf Hin Hat Hpath Hfuel Hh.
  destruct t as [nodes root]. cbn [btree.m_nodes btree.m_root] in *.
  destruct (emplace_hint_result nodes root s hint h v fuel Hrep Hnd Hnode Hwf Hin
              Hat Hfuel Hh)
    as (q & c & l & x & r & n & code1 & code3 & t1
        & Hloop & Hc1 & Hsub & Hn & Hwf3 & Hin3 & Hc3 & Hw & He).
  rewrite (hint_loop_stays v nodes s root (btree.m_code hint) h rest fuel
             Hrep Hwf Hin Hat Hpath) in Hloop.
  injection Hloop as <- <-. subst q.
  assert (Hne : btree.subtree s (contents (btree.m_code hint)) <> btree.Leaf).
  { rewrite Hsub. discriminate. }
  destruct (on_the_way v _ rest s btree.root_slot None Hpath Hne) as (Hslot & Hpar & Hway).
  rewrite Hsub in Hslot, Hpar, Hway.
  destruct empty_code as (Hwf0 & Hin0 & Hc0 & Hs0).
  destruct (emplace_loop_spec cmp v (btree.mk_btree nodes root) s fuel None root
              btree.root_slot empty_bvec)
    as (code & Hl & Hwfc & Hinc & Hcc & _); auto; [rewrite Hs0; lia|].
  eexists _, _, _. split; [exact He|].
  unfold btree.emplace. rewrite Hl, Hslot. cbn [btree.m_nodes]. rewrite Hw.
  unfold btree.make_iterator. rewrite (code_copy code Hwfc Hinc).
  cbn [btree.m_nodes btree.m_root btree.m_node btree.m_code btree.m_isEnd].
  rewrite Hpar, (last_parent_node v _ None (btree.parent n)) by discriminate.
  split; [reflexivity|]. cbn [btree.m_node btree.m_code btree.m_isEnd].
  split; [reflexivity|]. split; [|reflexivity].
  rewrite Hc3, Hcc, Hc0, Hway. reflexivity.
Qed.

End Hint.

End Facts.

Lemma three_nodes_tree : btree.tree_of three_nodes three_nodes_shape.
Proof.
  split.
  - cbn. split; [reflexivity|]. eexists. split; [reflexivity|]. cbn.
    repeat split; eexists; (split; [reflexivity|]); cbn; auto.
  - cbn. repeat (apply NoDup_cons_2; [intros H; repeat (apply elem_of_cons in H as [H|H]; [discriminate|]); apply elem_of_nil in H; exact H|]).
    apply NoDup_nil_2.
Qed.

Lemma three_nodes_ordered : btree.ordered Z.ltb three_nodes_shape.
Proof. cbn. repeat split; repeat constructor. Qed.


Lemma emplace_adds_in_order_witness :
  exists t' it s',
    btree.emplace Z.ltb (fun _ => 0) 2 three_nodes 4 = Returns (t', it)
    /\ btree.tree_of t' s' /\ btree.ordered Z.ltb s'
    /\ btree.elements s'
       = List.filter (fun y => negb (4 <? y)) (btree.elements three_nodes_shape)
         ++ 4 :: List.filter (fun y => 4 <? y) (btree.elements three_nodes_shape).
Proof.
  apply (emplace_adds_in_order (fun _ => 0) Z.ltb
           bheap_facts.ltb_asym bheap_facts.ltb_negtrans
           three_nodes three_nodes_shape 4 2 three_nodes_tree three_nodes_ordered);
    cbn; lia.
Defined.

Lemma emplace_returns_iterator_at_value_witness :
  exists t' it s' a,
    btree.emplace Z.ltb (fun _ => 0) 2 three_nodes 4 = Returns (t', it)
    /\ btree.tree_of t' s'
    /\ btree.points_to s' it a
    /\ btree.addresses s' ≡ₚ a :: btree.addresses three_nodes_shape
    /\ btree.deref (btree.m_nodes t') it = Some 4.
Proof.
  apply (emplace_returns_iterator_at_value (fun _ => 0) Z.ltb
           three_nodes three_nodes_shape 4 2 three_nodes_tree);
    cbn; lia.
Defined.

Lemma begin_is_at_first_witness :
  exists it a,
    btree.begin (fun _ => 0) 2 three_nodes = Returns it
    /\ btree.points_to three_nodes_shape it a
    /\ head (btree.addresses three_nodes_shape) = Some a
    /\ btree.deref (btree.m_nodes three_nodes) it
       = head (btree.elements three_nodes_shape).
Proof.
  apply (begin_is_at_first (fun _ => 0) three_nodes three_nodes_shape 2
           three_nodes_tree);
    [reflexivity | cbn; lia | cbn; lia].
Defined.

Lemma end_is_at_last_witness :
  exists it a,
    btree.end_ (fun _ => 0) 2 three_nodes = Returns it
    /\ btree.m_isEnd it = true /\ btree.m_node it = Some a
    /\ btree.node_at three_nodes_shape (contents (btree.m_code it)) = Some a
    /\ last (btree.addresses three_nodes_shape) = Some a
    /\ btree.deref (btree.m_nodes three_nodes) it
       = last (btree.elements three_nodes_shape).
Proof.
  apply (end_is_at_last (fun _ => 0) three_nodes three_nodes_shape 2
           three_nodes_tree);
    [reflexivity | cbn; lia | cbn; lia].
Defined.

Lemma three_nodes_begin_points : btree.points_to three_nodes_shape three_nodes_begin 1.
Proof. repeat split. Qed.

Lemma increment_moves_to_next_witness :
  exists it',
    btree.increment (fun _ => 0) 2 (btree.m_nodes three_nodes) three_nodes_begin
      = Returns it'
    /\ btree.points_to three_nodes_shape it' 0.
Proof.
  apply (increment_moves_to_next (fun _ => 0) three_nodes three_nodes_shape
           three_nodes_begin 1 [] [0; 2]%nat 2
           three_nodes_tree three_nodes_begin_points);
    [reflexivity | cbn; lia | cbn; lia].
Defined.

Lemma three_nodes_root_points : btree.points_to three_nodes_shape three_nodes_root 0.
Proof. repeat split. Qed.

Lemma decrement_moves_to_previous_witness :
  exists it',
    btree.decrement (fun _ => 0) 2 (btree.m_nodes three_nodes) three_nodes_root
      = Returns it'
    /\ btree.points_to three_nodes_shape it' 1.
Proof.
  apply (decrement_moves_to_previous (fun _ => 0) three_nodes three_nodes_shape
           three_nodes_root 0 [1]%nat [2]%nat 2
           three_nodes_tree three_nodes_root_points);
    [reflexivity | cbn; lia | cbn; lia].
Defined.

Lemma decrement_of_end_witness :
  exists it it' a k,
    btree.end_ (fun _ => 0) 2 three_nodes = Returns it
    /\ btree.decrement (fun _ => 0) 2 (btree.m_nodes three_nodes) it = Returns it'
    /\ last (btree.addresses three_nodes_shape) = Some a
    /\ contents (btree.m_code it) = repeat false k
    /\ (k = 0%nat -> btree.points_to three_nodes_shape it' a)
    /\ ((0 < k)%nat ->
          btree.m_isEnd it' = true /\ btree.m_code it' = btree.m_code it
          /\ btree.m_node it' = btree.node_at three_nodes_shape (repeat false (k - 1))
          /\ btree.m_node it' <> Some a).
Proof.
  apply (decrement_of_end (fun _ => 0) three_nodes three_nodes_shape 2
           three_nodes_tree);
    [reflexivity | cbn; lia | cbn; lia].
Defined.

Lemma emplace_hint_adds_one_node_witness :
  exists t' it s' a,
    btree.emplace_hint Z.ltb (fun _ => 0) 2 three_nodes three_nodes_begin 9
      = Returns (t', it)
    /\ btree.tree_of t' s'
    /\ btree.points_to s' it a
    /\ btree.addresses s' ≡ₚ a :: btree.addresses three_nodes_shape
    /\ btree.elements s' ≡ₚ 9 :: btree.elements three_nodes_shape
    /\ btree.deref (btree.m_nodes t') it = Some 9.
Proof.
  apply (emplace_hint_adds_one_node (fun _ => 0) Z.ltb three_nodes three_nodes_shape
           three_nodes_begin 1 9 2 three_nodes_tree);
    [reflexivity | reflexivity | reflexivity | reflexivity | cbn; lia | cbn; lia].
Defined.

Lemma emplace_hint_on_the_way_witness :
  exists t' it it0,
    btree.emplace_hint Z.ltb (fun _ => 0) 2 three_nodes three_nodes_begin 4
      = Returns (t', it)
    /\ btree.emplace Z.ltb (fun _ => 0) 2 three_nodes 4 = Returns (t', it0)
    /\ btree.m_node it = btree.m_node it0
    /\ contents (btree.m_code it) = contents (btree.m_code it0)
    /\ btree.m_isEnd it = btree.m_isEnd it0.
Proof.
  apply (emplace_hint_on_the_way (fun _ => 0) Z.ltb three_nodes three_nodes_shape
           three_nodes_begin 1 4 [false] 2 three_nodes_tree);
    [reflexivity | reflexivity | reflexivity | reflexivity | reflexivity
    | cbn; lia | cbn; lia].
Defined.

Lemma deref_reads_element_in_order_witness :
  exists x, btree.deref (btree.m_nodes three_nodes) three_nodes_begin = Some x
    /\ btree.elements three_nodes_shape !! 0%nat = Some x.
Proof.
  apply (deref_reads_element_in_order three_nodes three_nodes_shape
           three_nodes_begin 0 1 three_nodes_tree);
    reflexivity.
Defined.

End btree_facts.
